(** * Sheets batch-transfer pipeline: a shallow embedding

    The development follows the two variants of the processor kept in the
    repository: [src/index.js] (module [IndexJs]) and its rewrite
    [src/unnamed/part_001] (module [Part001]).  Asynchronous methods of
    [SheetsProcessor] become computations of a small monad [M] that threads
    the two counters of the processor, reads the history of everything that
    happened so far, and returns the events it emitted; the remote Sheets
    service is an arbitrary function of that history.  The two stand-alone
    scripts [src/index2.js] and [src/unnamed/part_000] (modules [Index2Js]
    and [Part000]) run in the same monad and call the service directly. *)

From Stdlib Require Import ZArith List String Ascii Bool Lia DecimalString Permutation.
Import ListNotations.
Open Scope string_scope.
Open Scope list_scope.
Open Scope Z_scope.

Set Implicit Arguments.

(** ** Cells, rows *)

(** A cell of a row as JavaScript sees it.  [CNum] stands for an
    integer-valued number (the only number the code itself produces is 0). *)
Inductive Cell : Type :=
| CStr (s : string)
| CNum (n : Z)
| CNull
| CUndefined.

Definition Row := list Cell.
Definition Rows := list Row.

(** [cell === '' || cell === null || cell === undefined] *)
Definition is_blank (cell : Cell) : bool :=
  match cell with
  | CStr s => if string_dec s "" then true else false
  | CNum _ => false
  | CNull => true
  | CUndefined => true
  end.

(** [`${cell}`]: string conversion inside a template literal. *)
Definition string_of_Z (n : Z) : string := NilZero.string_of_int (Z.to_int n).

Definition toString (cell : Cell) : string :=
  match cell with
  | CStr s => s
  | CNum n => string_of_Z n
  | CNull => "null"
  | CUndefined => "undefined"
  end.

(** [row[i]]: reading past the end of an array yields [undefined]. *)
Definition at_index (row : Row) (i : nat) : Cell := nth i row CUndefined.

(** [data.length] *)
Definition len {A} (l : list A) : Z := Z.of_nat (List.length l).

(** [data.slice(i, j)] for [0 <= i]. *)
Definition slice {A} (data : list A) (i j : Z) : list A :=
  firstn (Z.to_nat (j - i)) (skipn (Z.to_nat i) data).

(** A row with at least one cell that is not blank, and a row with its
    blank cells replaced by 0. *)
Definition has_value (row : Row) : bool :=
  existsb (fun cell => negb (is_blank cell)) row.

Definition normalise (row : Row) : Row :=
  map (fun cell => if is_blank cell then CNum 0 else cell) row.

(** ** Errors, remote requests, events *)

(** A JavaScript [Error] object. *)
Inductive JsError : Type :=
| mkError (name message : string)
| mkErrorFrom (name message : string) (cause : JsError).

Definition name (e : JsError) : string :=
  match e with mkError n _ | mkErrorFrom n _ _ => n end.

Definition message (e : JsError) : string :=
  match e with mkError _ m | mkErrorFrom _ m _ => m end.

(** [e.cause], when the error was built with one. *)
Definition cause (e : JsError) : option JsError :=
  match e with mkError _ _ => None | mkErrorFrom _ _ c => Some c end.

(** A thrown value, or the value a promise rejects with: [undefined] (what
    [retryOperation] throws when its [lastError] was never assigned), [null],
    or an object with a [message], an [Error].  What the code does with such
    a value is read its [message], which throws a TypeError for the first
    two and for no other value; the calls of the remote service reject with
    an [Error]. *)
Inductive Thrown : Type :=
| TUndefined
| TNull
| TError (e : JsError).

(** The four calls of [service.spreadsheets.values]. *)
Inductive Request : Type :=
| Get (spreadsheetId range : Cell)
| Update (spreadsheetId range : Cell) (values : Rows)
| Append (spreadsheetId range : Cell) (values : Rows)
| Clear (spreadsheetId range : Cell).

(** What a call resolves to: a rejection, or [result.data.values], which may
    be missing. *)
Definition Reply : Type := (JsError + option Rows)%type.

Inductive Level : Type := INFO | WARN | ERROR | DEBUG.

Inductive Event : Type :=
| EThrottle                                 (* rateLimiter.throttle() *)
| ESleep (ms : Z)                           (* rateLimiter.sleep(ms) *)
| EInvoke                                   (* retryOperation calls operation() *)
| ERemote (req : Request) (reply : Reply)   (* a call of the remote service *)
| ELog (level : Level) (msg : string)       (* logger.log(level, msg, ...) *)
| EProgress (processed errors : Z).         (* logProgress() *)

Record Counters : Type := mkCounters { processedCount : Z; errorCount : Z }.

(** ** The monad of the processor's methods *)

Inductive Completion (A : Type) : Type :=
| Return (v : A)
| Throw (t : Thrown).
Arguments Return {A} v.
Arguments Throw {A} t.

(** A method reads the history so far and the counters, and yields its
    completion, the events it emitted (oldest first) and the new counters. *)
Definition M (A : Type) : Type :=
  list Event -> Counters -> Completion A * list Event * Counters.

Definition ret {A} (v : A) : M A := fun _ c => (Return v, [], c).

Definition throw {A} (t : Thrown) : M A := fun _ c => (Throw t, [], c).

Definition bind {A B} (m : M A) (k : A -> M B) : M B :=
  fun h c =>
    match m h c with
    | (Return v, e1, c1) =>
        match k v (h ++ e1) c1 with
        | (r, e2, c2) => (r, e1 ++ e2, c2)
        end
    | (Throw t, e1, c1) => (Throw t, e1, c1)
    end.

(** [try { m } catch (error) { handler error }] *)
Definition try_catch {A} (m : M A) (handler : Thrown -> M A) : M A :=
  fun h c =>
    match m h c with
    | (Return v, e1, c1) => (Return v, e1, c1)
    | (Throw t, e1, c1) =>
        match handler t (h ++ e1) c1 with
        | (r, e2, c2) => (r, e1 ++ e2, c2)
        end
    end.

Definition emit (e : Event) : M unit := fun _ c => (Return tt, [e], c).

Notation "x <- m ;; k" := (bind m (fun x => k))
  (at level 61, m at next level, right associativity).
Notation "m ;; k" := (bind m (fun _ => k))
  (at level 61, right associativity).

(** Projections of a run. *)
Definition completion {A} (r : Completion A * list Event * Counters) : Completion A :=
  fst (fst r).
Definition emitted {A} (r : Completion A * list Event * Counters) : list Event :=
  snd (fst r).
Definition counters {A} (r : Completion A * list Event * Counters) : Counters :=
  snd r.

(** [error.message]; reading a property of [undefined] or of [null] is a
    TypeError. *)
Definition message_of (error : Thrown) : M string :=
  match error with
  | TError e => ret (message e)
  | TUndefined =>
      throw (TError (mkError "TypeError"
        "Cannot read properties of undefined (reading 'message')"))
  | TNull =>
      throw (TError (mkError "TypeError"
        "Cannot read properties of null (reading 'message')"))
  end.

(** ** RateLimiter and Logger

    The time [throttle] sleeps depends on the wall clock and is not
    modelled; the call itself is recorded.  The logger swallows its own
    file errors, so a log call always returns. *)
Definition throttle : M unit := emit EThrottle.
Definition sleep (ms : Z) : M unit := emit (ESleep ms).
Definition logger_info (msg : string) : M unit := emit (ELog INFO msg).
Definition logger_warn (msg : string) : M unit := emit (ELog WARN msg).
Definition logger_error (msg : string) : M unit := emit (ELog ERROR msg).

(** [this.processedCount++] and [this.errorCount++] *)
Definition incr_processedCount : M unit :=
  fun _ c => (Return tt, [], mkCounters (processedCount c + 1) (errorCount c)).
Definition incr_errorCount : M unit :=
  fun _ c => (Return tt, [], mkCounters (processedCount c) (errorCount c + 1)).

(** [logProgress()] prints the two counters (and timings, left out). *)
Definition logProgress : M unit :=
  fun _ c => (Return tt, [EProgress (processedCount c) (errorCount c)], c).

(** [rows[rows.length - 1]] *)
Definition lastRow (rows : Rows) : Row := nth (Z.to_nat (len rows - 1)) rows [].

(** ** Operations handed to [retryOperation]

    An operation is an async function: it reads the history and yields its
    outcome, a value or the value it rejects with, together with the remote
    calls it made.  The operations of the source are closures around one
    call of the remote service and reject with the [Error] of that call. *)
Definition Operation (A : Type) : Type :=
  list Event -> (Thrown + A) * list (Request * Reply).

Definition invoke {A} (operation : Operation A) : M (Thrown + A) :=
  fun h c =>
    match operation h with
    | (r, calls) => (Return r, EInvoke :: map (fun x => ERemote (fst x) (snd x)) calls, c)
    end.

Section Remote.

(** The remote service: its reply to a request, given all that happened
    before. *)
Variable service : list Event -> Request -> Reply.

(** [async () => (await service.spreadsheets.values.get(..)).data.values || []] *)
Definition fetch_values (spreadsheetId range : Cell) : Operation Rows :=
  fun h =>
    let reply := service h (Get spreadsheetId range) in
    (match reply with
     | inl err => inl (TError err)
     | inr (Some values) => inr values
     | inr None => inr []
     end, [(Get spreadsheetId range, reply)]).

(** [async () => { await service.spreadsheets.values.<call>(..) }] *)
Definition perform (req : Request) : Operation unit :=
  fun h =>
    let reply := service h req in
    (match reply with inl err => inl (TError err) | inr _ => inr tt end, [(req, reply)]).

End Remote.

(** [1, 2, ..., maxRetries]: the values the loop counter [attempt] takes. *)
Definition attempts_upto (maxRetries : Z) : list Z :=
  map Z.of_nat (seq 1 (Z.to_nat maxRetries)).

(** Projections of a trace. *)
Definition requests (evs : list Event) : list Request :=
  flat_map (fun e => match e with ERemote req _ => [req] | _ => [] end) evs.

Definition succeeded (evs : list Event) : list Request :=
  flat_map (fun e => match e with ERemote req (inr _) => [req] | _ => [] end) evs.

Definition sleeps (evs : list Event) : list Z :=
  flat_map (fun e => match e with ESleep ms => [ms] | _ => [] end) evs.

Definition invocations (evs : list Event) : nat :=
  List.length (filter (fun e => match e with EInvoke => true | _ => false end) evs).

Definition throttles (evs : list Event) : nat :=
  List.length (filter (fun e => match e with EThrottle => true | _ => false end) evs).

(** Invocations of the operation and explicit sleeps, in order. *)
Definition attempts_and_waits (evs : list Event) : list Event :=
  filter (fun e => match e with EInvoke | ESleep _ => true | _ => false end) evs.

(** [Promise.allSettled]: every promise is run to its completion, fulfilled
    or rejected, and the completions are reported in the order of the input.
    The jobs of a batch are started together and interleave at their
    [await]s; they share nothing but the two counters, which are only ever
    incremented, and the rate limiter, so an interleaving only permutes
    events of different jobs of the batch.  The model fixes one order and
    runs the jobs one after the other: the results of a batch, its counters
    and the requests it sends are the program's, the order of events of
    different jobs of a batch is the model's choice. *)
Fixpoint allSettled {A} (promises : list (M A)) : M (list (Completion A)) :=
  match promises with
  | [] => ret []
  | p :: rest =>
      r <- (fun h c => match p h c with (r, e, c') => (Return r, e, c') end) ;;
      rs <- allSettled rest ;;
      ret (r :: rs)
  end.

(** ** Configuration constants *)

Record Config : Type := mkConfig {
  SPREADSHEET_ID : string;
  BATCH_SIZE : Z;
  RATE_LIMIT_DELAY : Z;
  MAX_RETRIES : Z;
  CHUNK_SIZE : Z
}.

(** [Math.ceil(a / b)] for [0 < b]. *)
Definition ceil_div (a b : Z) : Z := - ((- a) / b).

(** ** src/index2.js: the chunking helper *)

(** [chunkArray(array, size)]: the loop
    [for (let i = 0; i < array.length; i += size) result.push(array.slice(i, i + size))],
    with [fuel] bounding the number of iterations. *)
Fixpoint chunkArrayLoop {A} (array : list A) (size : Z) (fuel : nat) (i : Z) :
    list (list A) :=
  match fuel with
  | O => []
  | S fuel' =>
      if i <? len array
      then slice array i (i + size) :: chunkArrayLoop array size fuel' (i + size)
      else []
  end.

Definition chunkArray {A} (array : list A) (size : Z) : list (list A) :=
  chunkArrayLoop array size (List.length array) 0.

(** ** src/index.js *)

Module IndexJs.

Definition CONFIG : Config := {|
  SPREADSHEET_ID := "1TtGZrIcQXDPikzgk91UL_VEjT2Rv3maEByDj0pl2Q50";
  BATCH_SIZE := 10;
  RATE_LIMIT_DELAY := 100;
  MAX_RETRIES := 3;
  CHUNK_SIZE := 5000
|}.

(** [cleanData(data)]; [None] is a null or undefined argument. *)
Definition cleanData (data : option Rows) : Rows :=
  match data with
  | None => []
  | Some data =>
      if len data =? 0 then []
      else
        let cleanedData :=
          filter (fun row => existsb (fun cell => negb (is_blank cell)) row) data in
        map (fun row => map (fun cell => if is_blank cell then CNum 0 else cell) row)
            cleanedData
  end.

Section Processor.

Variable service : list Event -> Request -> Reply.

(** [new Date().toISOString().slice(0, 19).replace('T', ' ')] *)
Variable nowStr : list Event -> string.

(** The constants of [CONFIG]; the loops over chunks and batches end only
    when [CHUNK_SIZE] and [BATCH_SIZE] are positive. *)
Variable cfg : Config.

(** The loop of [retryOperation]: [attempts] are the values of [attempt]
    still to come; leaving the loop (by [break] or by exhausting it) throws
    [lastError].  The arguments of [logger.warn] are evaluated before the
    call, so that [error.message] is read, and may throw out of the [catch]
    block, before anything is logged. *)
Fixpoint retryLoop {A} (operation : Operation A) (maxRetries : Z)
    (attempts : list Z) (lastError : Thrown) : M A :=
  match attempts with
  | [] => throw lastError
  | attempt :: rest =>
      throttle ;;
      r <- invoke operation ;;
      match r with
      | inr v => ret v
      | inl error =>
          if attempt =? maxRetries then throw error
          else
            let delay := Z.min (1000 * 2 ^ (attempt - 1)) 10000 in
            _ <- message_of error ;;
            logger_warn ("Attempt " ++ string_of_Z attempt ++ " failed, retrying in "
                         ++ string_of_Z delay ++ "ms")%string ;;
            sleep delay ;;
            retryLoop operation maxRetries rest error
      end
  end.

Definition retryOperation {A} (operation : Operation A) (maxRetries : Z) : M A :=
  retryLoop operation maxRetries (attempts_upto maxRetries) TUndefined.

(** Building the client ([new JWT], [google.sheets]) is taken not to throw. *)
Definition initialize : M unit :=
  logger_info "Initializing Google Sheets service..." ;;
  logger_info "Google Sheets service initialized successfully".

Definition getConfigurationData : M Rows :=
  logger_info "Fetching configuration data..." ;;
  retryOperation (fetch_values service (CStr (SPREADSHEET_ID cfg)) (CStr "'COSTDATA_DB'!C2:F"))
                 (MAX_RETRIES cfg).

Definition processSheetData (spreadsheetId range : Cell) : M Rows :=
  retryOperation (fetch_values service spreadsheetId range) (MAX_RETRIES cfg).

Definition S_LOG : Cell := CStr "'S_LOG'!A2:B".

Definition logToSheet (spreadsheetId : Cell) (msg : string) : M unit :=
  fun h =>
    let logData := [[CStr (nowStr h); CStr msg]] in
    try_catch
      (retryOperation (perform service (Append spreadsheetId S_LOG logData)) (MAX_RETRIES cfg))
      (fun error =>
         _ <- message_of error ;;
         logger_error "Failed to log to sheet")
      h.

Definition sourceUrl (row : Row) : string :=
  ("https://docs.google.com/spreadsheets/d/" ++ toString (at_index row 0))%string.

(** The callback [async (row, index) => ..] mapped over the batch. *)
Definition processJob (row : Row) : M Rows :=
  let rSpreadsheetId := at_index row 0 in
  let rRange := at_index row 1 in
  let dSpreadsheetId := at_index row 2 in
  try_catch
    (rData <- processSheetData rSpreadsheetId rRange ;;
     if len rData =? 0 then
       logger_info ("Skipped empty sheet: " ++ toString rSpreadsheetId ++ ", range: "
                    ++ toString rRange)%string ;;
       ret []
     else
       let dataWithUrl := map (fun dataRow => dataRow ++ [CStr (sourceUrl row)]) rData in
       incr_processedCount ;;
       logger_info ("Processed " ++ string_of_Z (len dataWithUrl) ++ " rows from sheet "
                    ++ toString rSpreadsheetId)%string ;;
       ret dataWithUrl)
    (fun error =>
       incr_errorCount ;;
       msg <- message_of error ;;
       logger_error ("Error processing sheet " ++ toString rSpreadsheetId)%string ;;
       logToSheet dSpreadsheetId msg ;;
       ret []).

(** [results.forEach((result, index) => ..)] *)
Fixpoint collectResults (results : list (Completion Rows)) (index : Z)
    (batchResults : Rows) : M Rows :=
  match results with
  | [] => ret batchResults
  | Return value :: rest => collectResults rest (index + 1) (batchResults ++ value)
  | Throw _ :: rest =>
      logger_error ("Batch item " ++ string_of_Z index ++ " failed")%string ;;
      collectResults rest (index + 1) batchResults
  end.

Definition processBatch (batch : Rows) (batchIndex : Z) : M Rows :=
  logger_info ("Processing batch " ++ string_of_Z (batchIndex + 1) ++ " with "
               ++ string_of_Z (len batch) ++ " items")%string ;;
  results <- allSettled (map processJob batch) ;;
  collectResults results 0 [].

Definition updateDestination (destinationSpreadsheetId destinationRange : Cell)
    (data : Rows) : M unit :=
  retryOperation (perform service (Clear destinationSpreadsheetId destinationRange))
                 (MAX_RETRIES cfg) ;;
  retryOperation (perform service (Update destinationSpreadsheetId destinationRange data))
                 (MAX_RETRIES cfg).

(** The [for (let i = 0; i < data.length; i += CONFIG.CHUNK_SIZE)] loop;
    [fuel] bounds the number of iterations. *)
Fixpoint chunkLoop (destinationSpreadsheetId destinationRange : Cell) (data : Rows)
    (fuel : nat) (i : Z) : M unit :=
  match fuel with
  | O => ret tt
  | S fuel' =>
      if i <? len data then
        let chunk := slice data i (i + CHUNK_SIZE cfg) in
        let chunkNumber := i / CHUNK_SIZE cfg + 1 in
        let totalChunks := ceil_div (len data) (CHUNK_SIZE cfg) in
        logger_info ("Uploading chunk " ++ string_of_Z chunkNumber ++ "/"
                     ++ string_of_Z totalChunks ++ " (" ++ string_of_Z (len chunk)
                     ++ " rows)")%string ;;
        retryOperation
          (if i =? 0
           then perform service (Update destinationSpreadsheetId destinationRange chunk)
           else perform service (Append destinationSpreadsheetId destinationRange chunk))
          (MAX_RETRIES cfg) ;;
        chunkLoop destinationSpreadsheetId destinationRange data fuel' (i + CHUNK_SIZE cfg)
      else ret tt
  end.

Definition updateDestinationInChunks (destinationSpreadsheetId destinationRange : Cell)
    (data : Rows) : M unit :=
  if len data <=? CHUNK_SIZE cfg then
    updateDestination destinationSpreadsheetId destinationRange data
  else
    logger_info "Processing large dataset in chunks" ;;
    retryOperation (perform service (Clear destinationSpreadsheetId destinationRange))
                   (MAX_RETRIES cfg) ;;
    chunkLoop destinationSpreadsheetId destinationRange data (List.length data) 0.

(** The body of the [for (let i = 0; i < rows.length; i += CONFIG.BATCH_SIZE)]
    loop of [run]; it yields the new value of [finalData]. *)
Definition batchStep (rows : Rows) (i : Z) (finalData : Rows) : M Rows :=
  let batch := slice rows i (i + BATCH_SIZE cfg) in
  let batchIndex := i / BATCH_SIZE cfg in
  batchResults <- processBatch batch batchIndex ;;
  let finalData := finalData ++ batchResults in
  logProgress ;;
  (if len finalData >? CHUNK_SIZE cfg * 2
   then logger_info "Processing intermediate data to manage memory"
   else ret tt) ;;
  ret finalData.

(** The loop itself; [fuel] bounds the number of iterations. *)
Fixpoint batchLoop (rows : Rows) (fuel : nat) (i : Z) (finalData : Rows) : M Rows :=
  match fuel with
  | O => ret finalData
  | S fuel' =>
      if i <? len rows then
        finalData <- batchStep rows i finalData ;;
        batchLoop rows fuel' (i + BATCH_SIZE cfg) finalData
      else ret finalData
  end.

(** The log texts are kept without their leading emoji. *)
Definition run : M unit :=
  try_catch
    (initialize ;;
     rows <- getConfigurationData ;;
     logger_info ("Found " ++ string_of_Z (len rows) ++ " sheets to process")%string ;;
     if len rows =? 0 then
       logger_warn "No configuration data found"
     else
       finalData <- batchLoop rows (List.length rows) 0 [] ;;
       let finalData := cleanData (Some finalData) in
       logger_info ("Final dataset contains " ++ string_of_Z (len finalData)
                    ++ " rows")%string ;;
       (if len rows >? 0 then
          let destinationSpreadsheetId := at_index (lastRow rows) 2 in
          let destinationRange := at_index (lastRow rows) 3 in
          logger_info "Updating destination sheet..." ;;
          (if len finalData >? CHUNK_SIZE cfg
           then updateDestinationInChunks destinationSpreadsheetId destinationRange finalData
           else updateDestination destinationSpreadsheetId destinationRange finalData) ;;
          logToSheet destinationSpreadsheetId "Done" ;;
          logger_info "Process completed successfully"
        else ret tt) ;;
       logger_info "Final Statistics")
    (fun error =>
       msg <- message_of error ;;
       logger_error "Process failed" ;;
       try_catch
         (rows <- getConfigurationData ;;
          if len rows >? 0
          then logToSheet (at_index (lastRow rows) 2) ("FINAL ERROR: " ++ msg)%string
          else ret tt)
         (fun logError =>
            _ <- message_of logError ;;
            logger_error "Failed to log final error to sheet") ;;
       throw error).

(** [main()]: [try { await processor.run(); process.exit(0) } catch (error)
    { console.error(.., error.message); process.exit(1) }].  The value is the
    exit code; the two [process.on] handlers are left out. *)
Definition main : M Z :=
  try_catch
    (run ;; ret 0)
    (fun error =>
       _ <- message_of error ;;
       ret 1).

End Processor.

End IndexJs.

(** ** src/unnamed/part_001: the rewrite of index.js *)

Module Part001.

Definition CONFIG : Config := {|
  SPREADSHEET_ID := "1TtGZrIcQXDPikzgk91UL_VEjT2Rv3maEByDj0pl2Q50";
  BATCH_SIZE := 10;
  RATE_LIMIT_DELAY := 100;
  MAX_RETRIES := 3;
  CHUNK_SIZE := 3000
|}.

(** [cell != null]: loose inequality, false exactly on null and undefined. *)
Definition loosely_null (cell : Cell) : bool :=
  match cell with
  | CNull | CUndefined => true
  | _ => false
  end.

(** [cell === ''] *)
Definition is_empty_string (cell : Cell) : bool :=
  match cell with
  | CStr s => if string_dec s "" then true else false
  | _ => false
  end.

Definition cleanData (data : option Rows) : Rows :=
  match data with
  | None => []
  | Some data =>
      if len data =? 0 then []
      else
        let cleaned :=
          filter (fun row =>
                    existsb (fun cell => negb (is_empty_string cell)
                                         && negb (loosely_null cell)) row) data in
        map (fun row =>
               map (fun cell => if is_empty_string cell || loosely_null cell
                                then CNum 0 else cell) row)
            cleaned
  end.

Section Processor.

Variable service : list Event -> Request -> Reply.
Variable cfg : Config.

(** Here the loop is left only by exhausting it. *)
Fixpoint retryLoop {A} (operation : Operation A) (maxRetries : Z)
    (attempts : list Z) (lastError : Thrown) : M A :=
  match attempts with
  | [] => throw lastError
  | attempt :: rest =>
      throttle ;;
      r <- invoke operation ;;
      match r with
      | inr v => ret v
      | inl error =>
          (if attempt <? maxRetries then
             let delay := Z.min (1000 * 2 ^ (attempt - 1)) 10000 in
             _ <- message_of error ;;
             logger_warn ("Attempt " ++ string_of_Z attempt ++ " failed")%string ;;
             sleep delay
           else ret tt) ;;
          retryLoop operation maxRetries rest error
      end
  end.

Definition retryOperation {A} (operation : Operation A) (maxRetries : Z) : M A :=
  retryLoop operation maxRetries (attempts_upto maxRetries) TUndefined.

Definition initialize : M unit :=
  logger_info "Google Sheets service initialized".

Definition getConfigurationData : M Rows :=
  logger_info "Fetching configuration data..." ;;
  retryOperation (fetch_values service (CStr (SPREADSHEET_ID cfg)) (CStr "'COSTDATA_DB'!C2:F"))
                 (MAX_RETRIES cfg).

Definition processSheetData (spreadsheetId range : Cell) : M Rows :=
  retryOperation (fetch_values service spreadsheetId range) (MAX_RETRIES cfg).

Definition updateDestination (destinationSpreadsheetId destinationRange : Cell)
    (data : Rows) : M unit :=
  retryOperation (perform service (Clear destinationSpreadsheetId destinationRange))
                 (MAX_RETRIES cfg) ;;
  retryOperation (perform service (Update destinationSpreadsheetId destinationRange data))
                 (MAX_RETRIES cfg).

Fixpoint chunkLoop (destinationSpreadsheetId destinationRange : Cell) (data : Rows)
    (fuel : nat) (i : Z) : M unit :=
  match fuel with
  | O => ret tt
  | S fuel' =>
      if i <? len data then
        let chunk := slice data i (i + CHUNK_SIZE cfg) in
        let chunkNumber := i / CHUNK_SIZE cfg + 1 in
        logger_info ("Uploading chunk " ++ string_of_Z chunkNumber)%string ;;
        try_catch
          (retryOperation
             (if i =? 0
              then perform service (Update destinationSpreadsheetId destinationRange chunk)
              else perform service (Append destinationSpreadsheetId destinationRange chunk))
             (MAX_RETRIES cfg) ;;
           sleep 1000)
          (fun error =>
             _ <- message_of error ;;
             logger_error ("Chunk " ++ string_of_Z chunkNumber ++ " failed")%string ;;
             throw error) ;;
        chunkLoop destinationSpreadsheetId destinationRange data fuel' (i + CHUNK_SIZE cfg)
      else ret tt
  end.

Definition updateDestinationInChunks (destinationSpreadsheetId destinationRange : Cell)
    (data : Rows) : M unit :=
  if len data <=? CHUNK_SIZE cfg then
    updateDestination destinationSpreadsheetId destinationRange data
  else
    logger_info "Processing large dataset in chunks" ;;
    retryOperation (perform service (Clear destinationSpreadsheetId destinationRange))
                   (MAX_RETRIES cfg) ;;
    chunkLoop destinationSpreadsheetId destinationRange data (List.length data) 0.

Definition processJob (row : Row) : M Rows :=
  let rSpreadsheetId := at_index row 0 in
  let rRange := at_index row 1 in
  try_catch
    (rData <- processSheetData rSpreadsheetId rRange ;;
     if len rData =? 0 then ret []
     else
       let sourceUrl :=
         ("https://docs.google.com/spreadsheets/d/" ++ toString rSpreadsheetId)%string in
       incr_processedCount ;;
       ret (map (fun r => r ++ [CStr sourceUrl]) rData))
    (fun error =>
       incr_errorCount ;;
       _ <- message_of error ;;
       logger_error ("Error processing sheet " ++ toString rSpreadsheetId)%string ;;
       ret []).

(** [for (const result of results) if (result.status === 'fulfilled') ..] *)
Fixpoint collectResults (results : list (Completion Rows)) (batchResults : Rows) : Rows :=
  match results with
  | [] => batchResults
  | Return value :: rest => collectResults rest (batchResults ++ value)
  | Throw _ :: rest => collectResults rest batchResults
  end.

Definition processBatch (batch : Rows) (batchIndex : Z) : M Rows :=
  logger_info ("Processing batch " ++ string_of_Z (batchIndex + 1) ++ " with "
               ++ string_of_Z (len batch) ++ " items")%string ;;
  results <- allSettled (map processJob batch) ;;
  ret (collectResults results []).

Fixpoint batchLoop (rows : Rows) (fuel : nat) (i : Z) (finalData : Rows) : M Rows :=
  match fuel with
  | O => ret finalData
  | S fuel' =>
      if i <? len rows then
        let batch := slice rows i (i + BATCH_SIZE cfg) in
        let batchIndex := i / BATCH_SIZE cfg in
        batchResults <- processBatch batch batchIndex ;;
        let finalData := finalData ++ batchResults in
        logProgress ;;
        batchLoop rows fuel' (i + BATCH_SIZE cfg) finalData
      else ret finalData
  end.

(** [const [,,,, lastDestSheet, lastDestRange] = rows[rows.length - 1]]: four
    elisions, so the two names bind the elements at indices 4 and 5. *)
Definition run : M unit :=
  try_catch
    (initialize ;;
     rows <- getConfigurationData ;;
     if len rows =? 0 then
       logger_warn "No configuration data found"
     else
       finalData <- batchLoop rows (List.length rows) 0 [] ;;
       let finalData := cleanData (Some finalData) in
       let lastDestSheet := at_index (lastRow rows) 4 in
       let lastDestRange := at_index (lastRow rows) 5 in
       (if len finalData >? CHUNK_SIZE cfg
        then updateDestinationInChunks lastDestSheet lastDestRange finalData
        else updateDestination lastDestSheet lastDestRange finalData) ;;
       logger_info "Process completed")
    (fun error =>
       _ <- message_of error ;;
       logger_error "Process failed").

End Processor.

End Part001.

(** ** Auxiliary definitions used to state the properties *)

(** The backoff delay after failed attempt [attempt]. *)
Definition backoff (attempt : Z) : Z := Z.min (1000 * 2 ^ (attempt - 1)) 10000.

(** The events of the remote calls an operation made. *)
Definition remote_events (calls : list (Request * Reply)) : list Event :=
  map (fun x => ERemote (fst x) (snd x)) calls.

(** A run that happens after the events [pre]. *)
Definition after {A} (pre : list Event) (r : Completion A * list Event * Counters) :
    Completion A * list Event * Counters :=
  match r with (x, evs, c) => (x, pre ++ evs, c) end.



(** An operation that rejects with [Error] objects only. *)
Definition rejects_with_Errors {A} (operation : Operation A) : Prop :=
  forall h t calls, operation h = (inl t, calls) -> exists err, t = TError err.

(** The TypeError raised by reading the [message] of [undefined] or [null];
    none for an object. *)
Definition unreadable (t : Thrown) : option JsError :=
  match t with
  | TUndefined =>
      Some (mkError "TypeError" "Cannot read properties of undefined (reading 'message')")
  | TNull =>
      Some (mkError "TypeError" "Cannot read properties of null (reading 'message')")
  | TError _ => None
  end.

(** A service that rejects no call. *)
Definition never_fails (service : list Event -> Request -> Reply) : Prop :=
  forall h req, exists values, service h req = inr values.

(** The text of the warning logged after a failed attempt, in each variant. *)
Definition warning_index (attempt : Z) : string :=
  ("Attempt " ++ string_of_Z attempt ++ " failed, retrying in "
   ++ string_of_Z (backoff attempt) ++ "ms")%string.

Definition warning_part001 (attempt : Z) : string :=
  ("Attempt " ++ string_of_Z attempt ++ " failed")%string.

(** The runs of [retryOperation] as a relation: [Retry attempt h r evs] when
    the loop, entered at [attempt] after history [h], completes with [r]
    having emitted [evs].  An attempt returns ([Retry_ok]); or it is the last
    one and rejects, and the rejection is thrown ([Retry_last]); or it is not
    the last and rejects with an object, and the loop goes on after the
    warning and the sleep ([Retry_again]); or it is not the last and rejects
    with [undefined] or [null], and the TypeError of reading its message is
    thrown ([Retry_unreadable]). *)
Section RetryRelation.

Context {A : Type}.
Variable warning : Z -> string.
Variable operation : Operation A.
Variable maxRetries : Z.

Definition failed_attempt (attempt : Z) (calls : list (Request * Reply)) : list Event :=
  EThrottle :: EInvoke :: remote_events calls
    ++ [ELog WARN (warning attempt); ESleep (backoff attempt)].

Inductive Retry : Z -> list Event -> Completion A -> list Event -> Prop :=
| Retry_ok attempt h v calls :
    operation (h ++ [EThrottle]) = (inr v, calls) ->
    Retry attempt h (Return v) (EThrottle :: EInvoke :: remote_events calls)
| Retry_last h t calls :
    operation (h ++ [EThrottle]) = (inl t, calls) ->
    Retry maxRetries h (Throw t) (EThrottle :: EInvoke :: remote_events calls)
| Retry_again attempt h err calls r evs :
    attempt < maxRetries ->
    operation (h ++ [EThrottle]) = (inl (TError err), calls) ->
    Retry (attempt + 1) (h ++ failed_attempt attempt calls) r evs ->
    Retry attempt h r (failed_attempt attempt calls ++ evs)
| Retry_unreadable attempt h t typeError calls :
    attempt < maxRetries ->
    operation (h ++ [EThrottle]) = (inl t, calls) ->
    unreadable t = Some typeError ->
    Retry attempt h (Throw (TError typeError)) (EThrottle :: EInvoke :: remote_events calls).

End RetryRelation.

(** [a, a + 1, ..., b] *)
Definition Zrange (a b : Z) : list Z :=
  map (fun i => a + Z.of_nat i) (seq 0 (Z.to_nat (b + 1 - a))).

(** The reading of "typed as a RemoteOperationFailure (RetryExhausted)
    carrying the underlying cause": an error object of that name whose cause
    is the error of the last attempt. *)
Definition RetryExhausted_carrying (t : Thrown) (underlying : JsError) : Prop :=
  exists e, t = TError e
            /\ (name e = "RetryExhausted" \/ name e = "RemoteOperationFailure")
            /\ cause e = Some underlying.

(** An operation that always rejects with the same error, and makes no
    remote call; and one that always rejects with [undefined]. *)
Definition boom : JsError := mkError "Error" "boom".
Definition rejecting : Operation unit := fun _ => (inl (TError boom), []).
Definition rejecting_undefined : Operation unit := fun _ => (inl TUndefined, []).

Definition c0 : Counters := mkCounters 0 0.

(** An operation that makes exactly one remote call, the request [req], and
    rejects exactly when that call does, with the same error. *)
Definition calls_once {A} (req : Request) (operation : Operation A) : Prop :=
  forall h,
    (exists err, operation h = (inl (TError err), [(req, inl err)]))
    \/ (exists v values, operation h = (inr v, [(req, inr values)])).

(** A remote call that resolved. *)
Definition is_success (e : Event) : bool :=
  match e with
  | ERemote _ (inr _) => true
  | _ => false
  end.

(** What a run of [retryOperation] on a single-call operation looks like:
    only the request [req] is sent; it resolved exactly when the run
    returned, and then as the very last event. *)
Definition retried {A} (req : Request) (r : Completion A) (evs : list Event) : Prop :=
  Forall (eq req) (requests evs)
  /\ succeeded evs = match r with Return _ => [req] | Throw _ => [] end
  /\ (exists fails, Forall (fun e => is_success e = false) fails
        /\ match r with
           | Return _ => exists values, evs = fails ++ [EThrottle; EInvoke; ERemote req (inr values)]
           | Throw _ => evs = fails
           end).

(** A write of rows (update or append) that resolved. *)
Definition is_written (e : Event) : bool :=
  match e with
  | ERemote (Update _ _ _) (inr _) | ERemote (Append _ _ _) (inr _) => true
  | _ => false
  end.

(** Every resolved write of rows is directly followed by an explicit sleep of
    [delay] ms. *)
Fixpoint paced (delay : Z) (evs : list Event) : bool :=
  match evs with
  | [] => true
  | e :: rest =>
      (if is_written e
       then match rest with
            | ESleep ms :: _ => ms =? delay
            | _ => false
            end
       else true) && paced delay rest
  end.

(** The calls the specification expects of the chunked write path: one
    clear, one update with the first chunk, then an append for each further
    chunk; chunks no longer than [chunkSize] that concatenate to [data]. *)
Definition chunked_calls (destinationSpreadsheetId destinationRange : Cell)
    (chunkSize : Z) (data : Rows) (calls : list Request) : Prop :=
  exists first rest,
    calls = Clear destinationSpreadsheetId destinationRange
            :: Update destinationSpreadsheetId destinationRange first
            :: map (Append destinationSpreadsheetId destinationRange) rest
    /\ len rest = ceil_div (len data) chunkSize - 1
    /\ Forall (fun chunk => len chunk <= chunkSize) (first :: rest)
    /\ List.concat (first :: rest) = data.

(** Two services: one that resolves every call, with no values, and one that
    rejects every call. *)
Definition ok_service : list Event -> Request -> Reply := fun _ _ => inr None.
Definition down_service : list Event -> Request -> Reply :=
  fun _ _ => inl (mkError "Error" "Quota exceeded").

(** A dataset of [n] one-cell rows, and a destination. *)
Definition sample_rows (n : Z) : Rows := repeat [CStr "x"] (Z.to_nat n).
Definition dest_id : Cell := CStr "1-1DL80M1Ta--Oc2i7AIcaq4-ZznZF6D6O5MzdsQIevw".
Definition dest_range : Cell := CStr "DB!A2:T".

(** The rows a job contributes when its fetch returned [rData]: every row
    with the job's source URL appended. *)
Definition tagged (row : Row) (rData : Rows) : Rows :=
  map (fun dataRow => dataRow ++ [CStr (IndexJs.sourceUrl row)]) rData.

(** The rows of the fulfilled results, in order. *)
Definition fulfilled_rows (results : list (Completion Rows)) : Rows :=
  List.concat (map (fun r => match r with Return value => value | Throw _ => [] end)
                   results).

(** The results a settled [Promise.allSettled] reports. *)
Definition settled {A} (r : Completion (list (Completion A)) * list Event * Counters) :
    list (Completion A) :=
  match completion r with
  | Return results => results
  | Throw _ => []
  end.

(** The line [processBatch] logs first. *)
Definition batch_banner (batch : Rows) (batchIndex : Z) : Event :=
  ELog INFO ("Processing batch " ++ string_of_Z (batchIndex + 1) ++ " with "
             ++ string_of_Z (len batch) ++ " items")%string.

(** How the fetch of each job of a batch completes as the batch runs, the
    first job starting after history [h] with counters [c]. *)
Fixpoint job_fetches (service : list Event -> Request -> Reply)
    (nowStr : list Event -> string) (cfg : Config)
    (jobs : Rows) (h : list Event) (c : Counters) : list (Completion Rows) :=
  match jobs with
  | [] => []
  | row :: rest =>
      completion (IndexJs.processSheetData service cfg (at_index row 0) (at_index row 1) h c)
      :: job_fetches service nowStr cfg rest
           (h ++ emitted (IndexJs.processJob service nowStr cfg row h c))
           (counters (IndexJs.processJob service nowStr cfg row h c))
  end.

(** The same along the batch loop of [run]. *)
Fixpoint loop_fetches (service : list Event -> Request -> Reply)
    (nowStr : list Event -> string) (cfg : Config)
    (rows : Rows) (fuel : nat) (i : Z) (finalData : Rows)
    (h : list Event) (c : Counters) : list (Completion Rows) :=
  match fuel with
  | O => []
  | S fuel' =>
      if i <? len rows then
        let step := IndexJs.batchStep service nowStr cfg rows i finalData h c in
        job_fetches service nowStr cfg (slice rows i (i + BATCH_SIZE cfg))
          (h ++ [batch_banner (slice rows i (i + BATCH_SIZE cfg)) (i / BATCH_SIZE cfg)]) c
        ++ loop_fetches service nowStr cfg rows fuel' (i + BATCH_SIZE cfg)
             (match completion step with Return data => data | Throw _ => finalData end)
             (h ++ emitted step) (counters step)
      else []
  end.

(** A clock and two configuration rows, with different destinations, for
    the examples. *)
Definition noon : list Event -> string := fun _ => "2025-01-01 12:00:00".
Definition job_a : Row :=
  [CStr "source-a"; CStr "DB!A2:T"; CStr "dest-a"; CStr "Sheet1!A2:Z"].
Definition job_b : Row := [CStr "source-b"; CStr "DB!A2:T"; dest_id; dest_range].

(** A service whose reads of "source-a" are always rejected; every other
    read yields two rows and every write resolves. *)
Definition flaky_service : list Event -> Request -> Reply :=
  fun _ req =>
    match req with
    | Get (CStr id) _ =>
        if string_dec id "source-a"
        then inl (mkError "Error" "Quota exceeded")
        else inr (Some [[CStr "1"; CStr ""]; [CStr "2"]])
    | _ => inr None
    end.

(** A computation all of whose remote requests satisfy [P]. *)
Definition emits_only {A} (P : Request -> Prop) (m : M A) : Prop :=
  forall h c, Forall P (requests (emitted (m h c))).

(** The requests a run of index.js may send once the configuration rows are
    known: reads, appends to an S_LOG range, and clears, updates and appends
    that target the destination [(dest, range)]. *)
Definition targets (dest range : Cell) (req : Request) : Prop :=
  match req with
  | Get _ _ => True
  | Clear i r | Update i r _ => i = dest /\ r = range
  | Append i r _ => r = IndexJs.S_LOG \/ (i = dest /\ r = range)
  end.

(** A service that knows two jobs: the configuration range yields [job_a]
    and [job_b], every other read yields two rows, every write resolves. *)
Definition config_service : list Event -> Request -> Reply :=
  fun _ req =>
    match req with
    | Get _ (CStr range) =>
        if string_dec range "'COSTDATA_DB'!C2:F"
        then inr (Some [job_a; job_b])
        else inr (Some [[CStr "1"; CStr ""]; [CStr "2"]])
    | _ => inr None
    end.


(** An operation that rejects on its first two invocations and returns on
    the third: it counts the invocations recorded in the history. *)
Definition third_time_lucky : Operation string :=
  fun h => if (invocations h <? 2)%nat then (inl (TError boom), []) else (inr "done", []).

(** A run that works through the calls [expected] in order and stops at the
    first one whose retries are exhausted: the calls that resolved are a
    prefix [done] of [expected]; a run that returned did them all; a run
    that threw sent nothing but the calls it did and the one that failed. *)
Definition works_through {A} (expected : list Request) (r : Completion A)
    (evs : list Event) : Prop :=
  exists done todo,
    expected = done ++ todo
    /\ succeeded evs = done
    /\ match r with
       | Return _ => todo = [] /\ Forall (fun q => In q done) (requests evs)
       | Throw _ =>
           exists failed rest,
             todo = failed :: rest
             /\ Forall (fun q => In q (done ++ [failed])) (requests evs)
       end.

(** The calls of the chunked write path for [data], in order. *)
Definition chunk_calls (destinationSpreadsheetId destinationRange : Cell)
    (chunkSize : Z) (data : Rows) : list Request :=
  Clear destinationSpreadsheetId destinationRange
  :: match chunkArray data chunkSize with
     | [] => []
     | first :: rest =>
         Update destinationSpreadsheetId destinationRange first
         :: map (Append destinationSpreadsheetId destinationRange) rest
     end.

(** How many fetches threw, and how many returned at least one row. *)
Definition count_failed (fetches : list (Completion Rows)) : Z :=
  len (filter (fun r => match r with Throw _ => true | Return _ => false end) fetches).

Definition count_nonempty (fetches : list (Completion Rows)) : Z :=
  len (filter (fun r => match r with
                        | Return rData => negb (len rData =? 0)
                        | Throw _ => false
                        end) fetches).

(** A read, or an append to an S_LOG range. *)
Definition is_read_or_log (req : Request) : Prop :=
  match req with
  | Get _ _ => True
  | Append _ r _ => r = IndexJs.S_LOG
  | _ => False
  end.

Definition is_read (req : Request) : Prop :=
  match req with
  | Get _ _ => True
  | _ => False
  end.

(** The read of the job of a configuration row. *)
Definition job_read (row : Row) : Request := Get (at_index row 0) (at_index row 1).

(** A computation that sends exactly the requests [qs] and counts no error. *)
Definition sends_exactly {A} (qs : list Request) (m : M A) : Prop :=
  forall h c,
    requests (emitted (m h c)) = qs
    /\ errorCount (counters (m h c)) = errorCount c.

(** A computation that throws Error objects only, and one that never
    throws. *)
Definition throws_errors {A} (m : M A) : Prop :=
  forall h c t, completion (m h c) = Throw t -> exists err, t = TError err.

Definition never_throws {A} (m : M A) : Prop :=
  forall h c t, completion (m h c) <> Throw t.

(** The [try] block and the [catch] block of [run] in src/index.js, taken
    apart. *)
Definition index_run_try (service : list Event -> Request -> Reply)
    (nowStr : list Event -> string) (cfg : Config) : M unit :=
  IndexJs.initialize ;;
  rows <- IndexJs.getConfigurationData service cfg ;;
  logger_info ("Found " ++ string_of_Z (len rows) ++ " sheets to process")%string ;;
  if len rows =? 0 then
    logger_warn "No configuration data found"
  else
    finalData <- IndexJs.batchLoop service nowStr cfg rows (List.length rows) 0 [] ;;
    let finalData := IndexJs.cleanData (Some finalData) in
    logger_info ("Final dataset contains " ++ string_of_Z (len finalData)
                 ++ " rows")%string ;;
    (if len rows >? 0 then
       let destinationSpreadsheetId := at_index (lastRow rows) 2 in
       let destinationRange := at_index (lastRow rows) 3 in
       logger_info "Updating destination sheet..." ;;
       (if len finalData >? CHUNK_SIZE cfg
        then IndexJs.updateDestinationInChunks service cfg destinationSpreadsheetId
               destinationRange finalData
        else IndexJs.updateDestination service cfg destinationSpreadsheetId
               destinationRange finalData) ;;
       IndexJs.logToSheet service nowStr cfg destinationSpreadsheetId "Done" ;;
       logger_info "Process completed successfully"
     else ret tt) ;;
    logger_info "Final Statistics".

Definition index_run_catch (service : list Event -> Request -> Reply)
    (nowStr : list Event -> string) (cfg : Config) (error : Thrown) : M unit :=
  msg <- message_of error ;;
  logger_error "Process failed" ;;
  try_catch
    (rows <- IndexJs.getConfigurationData service cfg ;;
     if len rows >? 0
     then IndexJs.logToSheet service nowStr cfg (at_index (lastRow rows) 2)
            ("FINAL ERROR: " ++ msg)%string
     else ret tt)
    (fun logError =>
       _ <- message_of logError ;;
       logger_error "Failed to log final error to sheet") ;;
  throw error.

(** The calls of the write phase of [run] for a dataset: the chunked calls
    when it is longer than the chunk size, one clear and one update
    otherwise. *)
Definition write_calls (destinationSpreadsheetId destinationRange : Cell)
    (chunkSize : Z) (data : Rows) : list Request :=
  if len data >? chunkSize
  then chunk_calls destinationSpreadsheetId destinationRange chunkSize data
  else [Clear destinationSpreadsheetId destinationRange;
        Update destinationSpreadsheetId destinationRange data].

(** The read of the configuration range. *)
Definition config_read (cfg : Config) : Request :=
  Get (CStr (SPREADSHEET_ID cfg)) (CStr "'COSTDATA_DB'!C2:F").

(** A dataset every row of which ends with the source URL of some
    configuration row. *)
Definition all_tagged (data : Rows) : Prop :=
  Forall (fun dataRow => exists row body, dataRow = body ++ [CStr (IndexJs.sourceUrl row)])
         data.

(** A dataset with no empty row and no blank cell. *)
Definition all_filled (data : Rows) : Prop :=
  Forall (fun row => row <> [] /\ Forall (fun cell => is_blank cell = false) row) data.

(** How a run of [retryOperation] that made [k] attempts and emitted [evs]
    comes to throw [t]: its last events are an invocation that rejected, with
    [t0]; either it was the attempt numbered [maxRetries] and [t] is [t0]
    itself, or it was an earlier attempt, [t0] is [undefined] or [null], and
    [t] is the TypeError of reading its message. *)
Definition thrown_by_last_attempt {A} (operation : Operation A) (maxRetries k : Z)
    (h evs : list Event) (t : Thrown) : Prop :=
  exists pre t0 calls,
    evs = pre ++ EThrottle :: EInvoke :: remote_events calls
    /\ operation (h ++ pre ++ [EThrottle]) = (inl t0, calls)
    /\ (k = maxRetries /\ t = t0
        \/ k < maxRetries
           /\ exists typeError, unreadable t0 = Some typeError /\ t = TError typeError).

(** What a job adds to the result of its batch, by how its fetch completed:
    the fetched rows with the job's source URL appended, or nothing. *)
Definition contribution (row : Row) (fetch : Completion Rows) : Rows :=
  match fetch with
  | Return rData => tagged row rData
  | Throw _ => []
  end.

(** What the jobs add, in job order. *)
Definition contributions (jobs : Rows) (fetches : list (Completion Rows)) : Rows :=
  List.concat (map (fun p => contribution (fst p) (snd p)) (combine jobs fetches)).

(** The configuration of index.js with batches of two jobs, for the
    examples. *)
Definition batches_of_two : Config := {|
  SPREADSHEET_ID := SPREADSHEET_ID IndexJs.CONFIG;
  BATCH_SIZE := 2;
  RATE_LIMIT_DELAY := RATE_LIMIT_DELAY IndexJs.CONFIG;
  MAX_RETRIES := MAX_RETRIES IndexJs.CONFIG;
  CHUNK_SIZE := CHUNK_SIZE IndexJs.CONFIG
|}.

(** The reads of the jobs of [rows] as the fetch phase sends them: batch
    after batch, the reads of one batch in any order, since the jobs of a
    batch are started together and each waits for the rate limiter on its
    own. *)
Definition reads_by_batch (rows : Rows) (size : Z) (sent : list Request) : Prop :=
  exists parts : list (list Request),
    sent = List.concat parts
    /\ Forall2 (fun part batch => Permutation part (map job_read batch))
               parts (chunkArray rows size).

(** ** RateLimiter against the clock

    [throttle()] with its two clock readings made explicit: [now] is what
    the first [Date.now()] returns, [woken] what the second one returns,
    after the sleep if there was one. *)

Module RateLimiter.

Record t : Type := mk { delay : Z; lastRequest : Z }.

(** [new RateLimiter(delay)] *)
Definition create (delay : Z) : t := mk delay 0.

(** The [ms] of [await this.sleep(ms)], when [throttle] sleeps at all. *)
Definition pause (rl : t) (now : Z) : option Z :=
  let timeSinceLastRequest := now - lastRequest rl in
  if timeSinceLastRequest <? delay rl
  then Some (delay rl - timeSinceLastRequest)
  else None.

(** [this.lastRequest = Date.now()] *)
Definition throttle (rl : t) (woken : Z) : t := mk (delay rl) woken.

(** The stamps left by successive calls, each with its two readings. *)
Fixpoint stamps (rl : t) (readings : list (Z * Z)) : list Z :=
  match readings with
  | [] => []
  | (_, woken) :: rest => woken :: stamps (throttle rl woken) rest
  end.

End RateLimiter.

(** ** Calls without retry

    [await sheets.spreadsheets.values.<call>(..)] as the two scripts issue
    it: one request, no throttle, no second attempt. *)
Definition call (service : list Event -> Request -> Reply) (req : Request) :
    M (option Rows) :=
  fun h c =>
    match service h req with
    | inl err => (Throw (TError err), [ERemote req (inl err)], c)
    | inr values => (Return values, [ERemote req (inr values)], c)
    end.

(** [response.data.values || []] *)
Definition values_or_empty (values : option Rows) : Rows :=
  match values with
  | Some v => v
  | None => []
  end.

(** ** src/index2.js: the padded bulk transfer

    Console output is left out; building the client is taken not to
    throw. *)

Module Index2Js.

Definition SOURCE_SPREADSHEET_ID : string := "12B34rZ68BJvAfRW6LnBMTuOj-2y93tCoWFjJ_KKkJ4s".
Definition DEST_SPREADSHEET_ID : string := "19vdmS32iTys5K-sfALQXX0RrS1otgyiWZ31Riyfeuik".
Definition SOURCE_RANGE : string := "DB!A2:W167542".
Definition DEST_START_CELL : Z := 2.

(** [while (filled.length < 23) filled.push('')], with [fuel] bounding the
    number of iterations. *)
Fixpoint padLoop (fuel : nat) (filled : Row) : Row :=
  match fuel with
  | O => filled
  | S fuel' =>
      if len filled <? 23 then padLoop fuel' (filled ++ [CStr ""]) else filled
  end.

(** [row => { const filled = row.slice(); while (..) ..; return filled; }] *)
Definition pad (row : Row) : Row := padLoop 23 row.

(** [`DB!A${startRow}:W${endRow}`] *)
Definition destRange (startRow endRow : Z) : Cell :=
  CStr ("DB!A" ++ string_of_Z startRow ++ ":W" ++ string_of_Z endRow).

Section Script.

Variable service : list Event -> Request -> Reply.

(** The [for (let i = 0; i < chunks.length; i++)] loop, [startRow] being the
    variable it updates. *)
Fixpoint uploadLoop (chunks : list Rows) (startRow : Z) : M unit :=
  match chunks with
  | [] => ret tt
  | chunk :: rest =>
      let endRow := startRow + len chunk - 1 in
      call service (Update (CStr DEST_SPREADSHEET_ID) (destRange startRow endRow) chunk) ;;
      uploadLoop rest (endRow + 1)
  end.

Definition transferData : M unit :=
  try_catch
    (response <- call service (Get (CStr SOURCE_SPREADSHEET_ID) (CStr SOURCE_RANGE)) ;;
     let data := values_or_empty response in
     let cleanedData := map pad data in
     call service (Clear (CStr DEST_SPREADSHEET_ID)
                         (CStr ("DB!A" ++ string_of_Z DEST_START_CELL ++ ":W"))) ;;
     let chunks := chunkArray cleanedData 15000 in
     uploadLoop chunks DEST_START_CELL)
    (fun error =>
       _ <- message_of error ;;
       ret tt).

End Script.

End Index2Js.

(** ** src/unnamed/part_000: the date-filtered transfer

    Console output is left out; building the client is taken not to
    throw. *)

Module Part000.

Definition SOURCE_SPREADSHEET_ID : string := "12B34rZ68BJvAfRW6LnBMTuOj-2y93tCoWFjJ_KKkJ4s".
Definition DEST_SPREADSHEET_ID : string := "1-1DL80M1Ta--Oc2i7AIcaq4-ZznZF6D6O5MzdsQIevw".
Definition SOURCE_RANGE : string := "DB!A2:AE161581".
Definition DEST_START_ROW : Z := 2.
Definition DEST_SHEET : string := "DB".
Definition DATE_COLUMN_INDEX : nat := 0.

(** A value that counts as true in [date && ..]. *)
Definition truthy (cell : Cell) : bool :=
  match cell with
  | CStr s => if string_dec s "" then false else true
  | CNum n => negb (n =? 0)
  | CNull | CUndefined => false
  end.

(** [`${DEST_SHEET}!A${DEST_START_ROW}:AE${DEST_END_ROW}`] *)
Definition destRange (endRow : Z) : Cell :=
  CStr (DEST_SHEET ++ "!A" ++ string_of_Z DEST_START_ROW ++ ":AE" ++ string_of_Z endRow).

Section Script.

Variable service : list Event -> Request -> Reply.

(** [new Date(date) >= new Date(FILTER_DATE)]: how the runtime parses a date
    is not part of the script. *)
Variable on_or_after : Cell -> bool.

Definition readSourceData : M Rows :=
  res <- call service (Get (CStr SOURCE_SPREADSHEET_ID) (CStr SOURCE_RANGE)) ;;
  ret (values_or_empty res).

Definition filterAndCleanData (rows : Rows) : Rows :=
  let filtered :=
    filter (fun row =>
              let date := at_index row DATE_COLUMN_INDEX in
              truthy date && on_or_after date) rows in
  map (fun row =>
         map (fun cell => if Part001.is_empty_string cell || Part001.loosely_null cell
                          then CNum 0 else cell) row)
      (filter (fun row =>
                 existsb (fun cell => negb (Part001.is_empty_string cell)
                                      && negb (Part001.loosely_null cell)) row)
              filtered).

Definition clearDestinationRange (range : Cell) : M unit :=
  call service (Clear (CStr DEST_SPREADSHEET_ID) range) ;;
  ret tt.

Definition writeData (range : Cell) (data : Rows) : M unit :=
  call service (Update (CStr DEST_SPREADSHEET_ID) range data) ;;
  ret tt.

Definition main : M unit :=
  try_catch
    (rows <- readSourceData ;;
     let cleanedData := filterAndCleanData rows in
     let DEST_END_ROW := DEST_START_ROW + len cleanedData - 1 in
     let DEST_RANGE := destRange DEST_END_ROW in
     clearDestinationRange DEST_RANGE ;;
     writeData DEST_RANGE cleanedData)
    (fun err =>
       _ <- message_of err ;;
       ret tt).

End Script.

End Part000.

(** Consecutive stamps at least [d] apart, [last] being the stamp before the
    first. *)
Fixpoint spaced (d : Z) (last : Z) (stamps : list Z) : Prop :=
  match stamps with
  | [] => True
  | s :: rest => d <= s - last /\ spaced d s rest
  end.

(** A call whose timer does not fire early and during which the clock does
    not run backwards; and a series of such calls. *)
Definition timely (rl : RateLimiter.t) (now woken : Z) : Prop :=
  match RateLimiter.pause rl now with
  | Some ms => now + ms <= woken
  | None => now <= woken
  end.

Fixpoint all_timely (rl : RateLimiter.t) (readings : list (Z * Z)) : Prop :=
  match readings with
  | [] => True
  | (now, woken) :: rest =>
      timely rl now woken /\ all_timely (RateLimiter.throttle rl woken) rest
  end.

(** The uploads [transferData] is to make for chunks numbered from [k0]:
    chunk number [k] goes to the rows that follow the [15000 * k] rows before
    it. *)
Definition upload_calls_from (k0 : nat) (chunks : list Rows) : list Request :=
  map (fun p =>
         let k := Z.of_nat (fst p) in
         Update (CStr Index2Js.DEST_SPREADSHEET_ID)
                (Index2Js.destRange (2 + 15000 * k) (1 + 15000 * k + len (snd p)))
                (snd p))
      (combine (seq k0 (List.length chunks)) chunks).

Definition upload_calls (chunks : list Rows) : list Request := upload_calls_from 0 chunks.

(** [evs] stops at the first rejected call of [expected]. *)
Definition stops_at_first_failure (expected : list Request) (evs : list Event) : Prop :=
  exists done,
    succeeded evs = done
    /\ (requests evs = done /\ expected = done
        \/ exists failed rest,
             requests evs = done ++ [failed] /\ expected = done ++ failed :: rest).

(** A sequence of calls without retry that ran through [expected] as far as
    the first rejected call: the calls before it resolved, it is the last
    request sent, and the computation threw; or every call resolved and the
    computation returned. *)
Definition runs_through {A} (expected : list Request) (r : Completion A)
    (evs : list Event) : Prop :=
  exists done todo,
    expected = done ++ todo
    /\ succeeded evs = done
    /\ match r with
       | Return _ => todo = [] /\ requests evs = done
       | Throw t =>
           exists failed rest err,
             todo = failed :: rest /\ requests evs = done ++ [failed] /\ t = TError err
       end.

(** Chunks all of size [size], but for the last, which may be shorter. *)
Fixpoint full_but_last {A} (size : Z) (chunks : list (list A)) : Prop :=
  match chunks with
  | [] => True
  | chunk :: rest =>
      match rest with
      | [] => True
      | _ => len chunk = size
      end /\ full_but_last size rest
  end.
(** * Properties *)

(** ** DataCleaner *)

Lemma is_blank_spec (cell : Cell) :
  is_blank cell = true <-> cell = CStr "" \/ cell = CNull \/ cell = CUndefined.
Proof.
  destruct cell as [s | n | |]; simpl.
  - destruct (string_dec s "") as [-> | Hs]; split; auto.
    + discriminate.
    + intros [H | [H | H]]; try discriminate. inversion H; contradiction.
  - split; [discriminate | intros [H | [H | H]]; discriminate].
  - split; auto.
  - split; auto.
Qed.

Lemma is_blank_false (cell : Cell) :
  is_blank cell = false <-> cell <> CStr "" /\ cell <> CNull /\ cell <> CUndefined.
Proof.
  split.
  - intros H. repeat split; intros ->; discriminate H.
  - intros (H1 & H2 & H3). destruct (is_blank cell) eqn:E; [| reflexivity].
    apply is_blank_spec in E. tauto.
Qed.

Lemma cleanData_unfold (rows : Rows) :
  IndexJs.cleanData (Some rows) = map normalise (filter has_value rows).
Proof.
  unfold IndexJs.cleanData. destruct rows as [| r rows]; [reflexivity |].
  replace (len (r :: rows) =? 0) with false; [reflexivity |].
  symmetry. apply Z.eqb_neq. unfold len. simpl List.length. lia.
Qed.

Lemma normalise_not_blank (row : Row) (cell : Cell) :
  In cell (normalise row) -> is_blank cell = false.
Proof.
  unfold normalise. rewrite in_map_iff. intros (c0 & <- & _).
  destruct (is_blank c0) eqn:E; [reflexivity | exact E].
Qed.

Lemma normalise_fixed (row : Row) :
  (forall cell, In cell row -> is_blank cell = false) -> normalise row = row.
Proof.
  induction row as [| c row IH]; intros H; [reflexivity |].
  simpl. rewrite (H c (or_introl eq_refl)). f_equal.
  apply IH. intros cell Hin. apply H. right. exact Hin.
Qed.

Lemma has_value_normalise (row : Row) :
  has_value row = true -> has_value (normalise row) = true.
Proof.
  unfold has_value, normalise. induction row as [| c row IH]; [discriminate |].
  simpl. destruct (is_blank c) eqn:E; simpl; [reflexivity |].
  rewrite E. reflexivity.
Qed.

Lemma filter_all {A} (f : A -> bool) (l : list A) :
  (forall x, In x l -> f x = true) -> filter f l = l.
Proof.
  induction l as [| x l IH]; intros H; [reflexivity |].
  simpl. rewrite (H x (or_introl eq_refl)). f_equal.
  apply IH. intros y Hy. apply H. right. exact Hy.
Qed.

Lemma map_fixed {A} (f : A -> A) (l : list A) :
  (forall x, In x l -> f x = x) -> map f l = l.
Proof.
  induction l as [| x l IH]; intros H; [reflexivity |].
  simpl. rewrite (H x (or_introl eq_refl)). f_equal.
  apply IH. intros y Hy. apply H. right. exact Hy.
Qed.

Lemma part001_blank (cell : Cell) :
  Part001.is_empty_string cell || Part001.loosely_null cell = is_blank cell.
Proof.
  destruct cell as [s | n | |]; simpl; try reflexivity.
  destruct (string_dec s ""); reflexivity.
Qed.

Lemma part001_cleanData_unfold (rows : Rows) :
  Part001.cleanData (Some rows) = map normalise (filter has_value rows).
Proof.
  rewrite <- cleanData_unfold.
  unfold Part001.cleanData, IndexJs.cleanData.
  destruct (len rows =? 0); [reflexivity |]. cbv zeta.
  replace (filter (fun row => existsb (fun cell =>
             negb (Part001.is_empty_string cell) && negb (Part001.loosely_null cell)) row) rows)
    with (filter (fun row => existsb (fun cell => negb (is_blank cell)) row) rows).
  - apply map_ext. intros row. apply map_ext. intros cell.
    rewrite part001_blank. reflexivity.
  - apply filter_ext. intros row. induction row as [| c row IH]; [reflexivity |].
    simpl. rewrite IH, <- part001_blank, negb_orb. reflexivity.
Qed.

Lemma clean_twice (rows : Rows) :
  map normalise (filter has_value (map normalise (filter has_value rows)))
  = map normalise (filter has_value rows).
Proof.
  rewrite filter_all.
  - apply map_fixed. intros row Hrow. apply normalise_fixed.
    apply in_map_iff in Hrow. destruct Hrow as (r0 & <- & _).
    intros cell. apply normalise_not_blank.
  - intros row Hrow. apply in_map_iff in Hrow. destruct Hrow as (r0 & <- & Hr0).
    apply filter_In in Hr0. apply has_value_normalise, Hr0.
Qed.

(** C4. [cleanData] never returns a row holding an empty string, null or
    undefined; every row it returns is the image of an input row that had a
    cell that was none of these; and an empty (or missing) input gives the
    empty result. *)
Theorem cleanData_rows_clean (rows : Rows) :
  (forall row cell, In row (IndexJs.cleanData (Some rows)) -> In cell row ->
     cell <> CStr "" /\ cell <> CNull /\ cell <> CUndefined)
  /\ (forall row, In row (IndexJs.cleanData (Some rows)) ->
        exists input cell,
          In input rows /\ row = normalise input /\ In cell input
          /\ cell <> CStr "" /\ cell <> CNull /\ cell <> CUndefined)
  /\ IndexJs.cleanData (Some []) = []
  /\ IndexJs.cleanData None = [].
Proof.
  rewrite cleanData_unfold. repeat split; try reflexivity.
  - apply in_map_iff in H. destruct H as (r0 & <- & _).
    apply normalise_not_blank in H0. apply is_blank_false in H0. tauto.
  - apply in_map_iff in H. destruct H as (r0 & <- & _).
    apply normalise_not_blank in H0. apply is_blank_false in H0. tauto.
  - apply in_map_iff in H. destruct H as (r0 & <- & _).
    apply normalise_not_blank in H0. apply is_blank_false in H0. tauto.
  - intros row Hrow. apply in_map_iff in Hrow. destruct Hrow as (r0 & <- & Hr0).
    apply filter_In in Hr0. destruct Hr0 as [Hin Hv].
    unfold has_value in Hv. apply existsb_exists in Hv.
    destruct Hv as (cell & Hcell & Hnb). apply negb_true_iff in Hnb.
    apply is_blank_false in Hnb. exists r0, cell. tauto.
Qed.

(** C9. [cleanData] is idempotent, in both variants of the processor. *)
Theorem cleanData_idempotent (data : option Rows) :
  IndexJs.cleanData (Some (IndexJs.cleanData data)) = IndexJs.cleanData data
  /\ Part001.cleanData (Some (Part001.cleanData data)) = Part001.cleanData data.
Proof.
  destruct data as [rows |]; [| split; reflexivity].
  rewrite part001_cleanData_unfold, part001_cleanData_unfold.
  rewrite cleanData_unfold, cleanData_unfold.
  split; apply clean_twice.
Qed.

(** ** Running the monad *)

Lemma after_after {A} (p q : list Event) (r : Completion A * list Event * Counters) :
  after p (after q r) = after (p ++ q) r.
Proof. destruct r as [[x evs] c]. simpl. rewrite app_assoc. reflexivity. Qed.

Lemma after_nil {A} (r : Completion A * list Event * Counters) : after [] r = r.
Proof. destruct r as [[x evs] c]. reflexivity. Qed.

Lemma bind_emit {B} (e : Event) (k : unit -> M B) h c :
  bind (emit e) k h c = after [e] (k tt (h ++ [e]) c).
Proof. reflexivity. Qed.

Lemma bind_Return {A B} (m : M A) (k : A -> M B) h c v e1 c1 :
  m h c = (Return v, e1, c1) -> bind m k h c = after e1 (k v (h ++ e1) c1).
Proof. intros H. unfold bind. rewrite H. reflexivity. Qed.

Lemma bind_Throw {A B} (m : M A) (k : A -> M B) h c t e1 c1 :
  m h c = (Throw t, e1, c1) -> bind m k h c = (Throw t, e1, c1).
Proof. intros H. unfold bind. rewrite H. reflexivity. Qed.

Lemma try_Return {A} (m : M A) (handler : Thrown -> M A) h c v e1 c1 :
  m h c = (Return v, e1, c1) -> try_catch m handler h c = (Return v, e1, c1).
Proof. intros H. unfold try_catch. rewrite H. reflexivity. Qed.

Lemma try_Throw {A} (m : M A) (handler : Thrown -> M A) h c t e1 c1 :
  m h c = (Throw t, e1, c1) ->
  try_catch m handler h c = after e1 (handler t (h ++ e1) c1).
Proof. intros H. unfold try_catch. rewrite H. reflexivity. Qed.

Lemma invoke_run {A} (operation : Operation A) h c r calls :
  operation h = (r, calls) ->
  invoke operation h c = (Return r, EInvoke :: remote_events calls, c).
Proof. intros H. unfold invoke. rewrite H. reflexivity. Qed.

(** ** RetryExecutor *)

Lemma index_retryLoop_cons {A} (operation : Operation A) n attempt rest last h c r calls :
  operation (h ++ [EThrottle]) = (r, calls) ->
  IndexJs.retryLoop operation n (attempt :: rest) last h c =
  match r with
  | inr v => (Return v, EThrottle :: EInvoke :: remote_events calls, c)
  | inl t =>
      if attempt =? n
      then (Throw t, EThrottle :: EInvoke :: remote_events calls, c)
      else match unreadable t with
           | Some typeError =>
               (Throw (TError typeError), EThrottle :: EInvoke :: remote_events calls, c)
           | None =>
               after (failed_attempt warning_index attempt calls)
                 (IndexJs.retryLoop operation n rest t
                    (h ++ failed_attempt warning_index attempt calls) c)
           end
  end.
Proof.
  intros Hop. cbn [IndexJs.retryLoop]. unfold throttle, logger_warn, sleep.
  rewrite bind_emit. erewrite bind_Return by (apply invoke_run; exact Hop).
  destruct r as [t | v].
  - destruct (attempt =? n).
    + unfold throw. cbn [after app]. rewrite app_nil_r. reflexivity.
    + destruct t as [| | err]; cbn [unreadable message_of].
      * erewrite bind_Throw by reflexivity. cbn [after app]. rewrite app_nil_r.
        reflexivity.
      * erewrite bind_Throw by reflexivity. cbn [after app]. rewrite app_nil_r.
        reflexivity.
      * erewrite (bind_Return (B := A)) by reflexivity.
        rewrite !bind_emit, !after_after. unfold failed_attempt.
        repeat (rewrite <- ?app_assoc; cbn [app]). rewrite ?app_nil_r. reflexivity.
  - unfold ret. cbn [after app]. rewrite app_nil_r. reflexivity.
Qed.

Lemma part001_retryLoop_cons {A} (operation : Operation A) n attempt rest last h c r calls :
  operation (h ++ [EThrottle]) = (r, calls) ->
  Part001.retryLoop operation n (attempt :: rest) last h c =
  match r with
  | inr v => (Return v, EThrottle :: EInvoke :: remote_events calls, c)
  | inl t =>
      if attempt <? n
      then match unreadable t with
           | Some typeError =>
               (Throw (TError typeError), EThrottle :: EInvoke :: remote_events calls, c)
           | None =>
               after (failed_attempt warning_part001 attempt calls)
                 (Part001.retryLoop operation n rest t
                    (h ++ failed_attempt warning_part001 attempt calls) c)
           end
      else after (EThrottle :: EInvoke :: remote_events calls)
             (Part001.retryLoop operation n rest t
                (h ++ EThrottle :: EInvoke :: remote_events calls) c)
  end.
Proof.
  intros Hop. cbn [Part001.retryLoop]. unfold throttle, logger_warn, sleep.
  rewrite bind_emit. erewrite bind_Return by (apply invoke_run; exact Hop).
  destruct r as [t | v].
  - destruct (attempt <? n).
    + destruct t as [| | err]; cbn [unreadable message_of].
      * erewrite (bind_Throw (B := A)) by reflexivity. cbn [after app].
        rewrite app_nil_r. reflexivity.
      * erewrite (bind_Throw (B := A)) by reflexivity. cbn [after app].
        rewrite app_nil_r. reflexivity.
      * erewrite (bind_Return (B := A)) by reflexivity.
        rewrite !after_after. unfold failed_attempt.
        repeat (rewrite <- ?app_assoc; cbn [app]). rewrite ?app_nil_r. reflexivity.
    + erewrite (bind_Return (B := A)) by reflexivity.
      rewrite !after_after.
      repeat (rewrite <- ?app_assoc; cbn [app]). rewrite !app_nil_r. reflexivity.
  - unfold ret. cbn [after app]. rewrite app_nil_r. reflexivity.
Qed.

(** Both loops realise the relation [Retry]: with [1 <= maxRetries] the loop
    runs to a completion, and that completion and its events are a
    derivation of [Retry]. *)
Lemma index_retryLoop_Retry {A} (operation : Operation A) (n : Z) (k : nat) :
  forall a last h c,
    (1 <= k)%nat -> Z.of_nat (a + k) = n + 1 ->
    exists r evs,
      IndexJs.retryLoop operation n (map Z.of_nat (seq a k)) last h c = (r, evs, c)
      /\ Retry warning_index operation n (Z.of_nat a) h r evs.
Proof.
  induction k as [| k IH]; intros a last h c Hk Hn; [lia |].
  cbn [seq map].
  destruct (operation (h ++ [EThrottle])) as [[t | v] calls] eqn:Hop;
    erewrite index_retryLoop_cons by exact Hop.
  - destruct (Z.of_nat a =? n) eqn:E.
    + apply Z.eqb_eq in E. eexists _, _. split; [reflexivity |].
      rewrite E. apply Retry_last with (1 := Hop).
    + apply Z.eqb_neq in E. destruct (unreadable t) as [typeError |] eqn:Et.
      * eexists _, _. split; [reflexivity |].
        eapply Retry_unreadable; [lia | exact Hop | exact Et].
      * destruct t as [| | err]; try discriminate Et.
        destruct (IH (S a) (TError err)
                    (h ++ failed_attempt warning_index (Z.of_nat a) calls) c)
          as (r & evs & Hr & HR); [lia | lia |].
        rewrite Hr. eexists _, _. split; [reflexivity |].
        eapply Retry_again; [lia | exact Hop |].
        replace (Z.of_nat a + 1) with (Z.of_nat (S a)) by lia. exact HR.
  - eexists _, _. split; [reflexivity |]. apply Retry_ok with (1 := Hop).
Qed.

Lemma part001_retryLoop_Retry {A} (operation : Operation A) (n : Z) (k : nat) :
  forall a last h c,
    (1 <= k)%nat -> Z.of_nat (a + k) = n + 1 ->
    exists r evs,
      Part001.retryLoop operation n (map Z.of_nat (seq a k)) last h c = (r, evs, c)
      /\ Retry warning_part001 operation n (Z.of_nat a) h r evs.
Proof.
  induction k as [| k IH]; intros a last h c Hk Hn; [lia |].
  cbn [seq map].
  destruct (operation (h ++ [EThrottle])) as [[t | v] calls] eqn:Hop;
    erewrite part001_retryLoop_cons by exact Hop.
  - destruct (Z.of_nat a <? n) eqn:E.
    + apply Z.ltb_lt in E. destruct (unreadable t) as [typeError |] eqn:Et.
      * eexists _, _. split; [reflexivity |].
        eapply Retry_unreadable; [lia | exact Hop | exact Et].
      * destruct t as [| | err]; try discriminate Et.
        destruct (IH (S a) (TError err)
                    (h ++ failed_attempt warning_part001 (Z.of_nat a) calls) c)
          as (r & evs & Hr & HR); [lia | lia |].
        rewrite Hr. eexists _, _. split; [reflexivity |].
        eapply Retry_again; [lia | exact Hop |].
        replace (Z.of_nat a + 1) with (Z.of_nat (S a)) by lia. exact HR.
    + apply Z.ltb_ge in E. assert (k = 0%nat) by lia. subst k.
      cbn [seq map Part001.retryLoop]. unfold throw. cbn [after].
      rewrite app_nil_r. eexists _, _. split; [reflexivity |].
      replace (Z.of_nat a) with n by lia. apply Retry_last with (1 := Hop).
  - eexists _, _. split; [reflexivity |]. apply Retry_ok with (1 := Hop).
Qed.

Lemma index_retryOperation_Retry {A} (operation : Operation A) (n : Z) h c :
  1 <= n ->
  exists r evs,
    IndexJs.retryOperation operation n h c = (r, evs, c)
    /\ Retry warning_index operation n 1 h r evs.
Proof.
  intros Hn. unfold IndexJs.retryOperation, attempts_upto.
  apply (@index_retryLoop_Retry _ operation n (Z.to_nat n) 1%nat TUndefined h c); lia.
Qed.

Lemma part001_retryOperation_Retry {A} (operation : Operation A) (n : Z) h c :
  1 <= n ->
  exists r evs,
    Part001.retryOperation operation n h c = (r, evs, c)
    /\ Retry warning_part001 operation n 1 h r evs.
Proof.
  intros Hn. unfold Part001.retryOperation, attempts_upto.
  apply (@part001_retryLoop_Retry _ operation n (Z.to_nat n) 1%nat TUndefined h c); lia.
Qed.

Lemma attempts_and_waits_app (a b : list Event) :
  attempts_and_waits (a ++ b) = attempts_and_waits a ++ attempts_and_waits b.
Proof. apply filter_app. Qed.

Lemma attempts_and_waits_remote (calls : list (Request * Reply)) :
  attempts_and_waits (remote_events calls) = [].
Proof. induction calls as [| x calls IH]; [reflexivity | exact IH]. Qed.

Lemma attempts_and_waits_failed (warning : Z -> string) attempt calls :
  attempts_and_waits (failed_attempt warning attempt calls)
  = [EInvoke; ESleep (backoff attempt)].
Proof.
  unfold failed_attempt. cbn [attempts_and_waits filter].
  fold (attempts_and_waits (remote_events calls
          ++ [ELog WARN (warning attempt); ESleep (backoff attempt)])).
  rewrite attempts_and_waits_app, attempts_and_waits_remote. reflexivity.
Qed.

Lemma invocations_attempts_and_waits (evs : list Event) :
  invocations evs = invocations (attempts_and_waits evs).
Proof.
  unfold invocations, attempts_and_waits.
  induction evs as [| e evs IH]; [reflexivity |].
  destruct e; cbn [filter List.length]; rewrite ?IH; reflexivity.
Qed.

Lemma Zrange_cons (a b : Z) : a <= b -> Zrange a b = a :: Zrange (a + 1) b.
Proof.
  intros Hab. unfold Zrange.
  replace (Z.to_nat (b + 1 - a)) with (S (Z.to_nat (b + 1 - (a + 1)))) by lia.
  cbn [seq map]. f_equal; [lia |].
  rewrite <- seq_shift, map_map. apply map_ext. intros i. lia.
Qed.

Lemma Zrange_empty (a b : Z) : b < a -> Zrange a b = [].
Proof.
  intros Hab. unfold Zrange. replace (Z.to_nat (b + 1 - a)) with O by lia. reflexivity.
Qed.

Lemma invocations_app (a b : list Event) :
  (invocations (a ++ b) = invocations a + invocations b)%nat.
Proof. unfold invocations. rewrite filter_app, length_app. reflexivity. Qed.

Lemma invocations_last_attempt (calls : list (Request * Reply)) :
  invocations (EThrottle :: EInvoke :: remote_events calls) = 1%nat.
Proof.
  rewrite invocations_attempts_and_waits. cbn [attempts_and_waits filter].
  fold (attempts_and_waits (remote_events calls)).
  rewrite attempts_and_waits_remote. reflexivity.
Qed.

Lemma invocations_failed_attempt (warning : Z -> string) attempt calls :
  invocations (failed_attempt warning attempt calls) = 1%nat.
Proof.
  rewrite invocations_attempts_and_waits, attempts_and_waits_failed. reflexivity.
Qed.


(** When the loop throws, its last events are an invocation that rejected.
    Either that was the attempt numbered [maxRetries], and what is thrown is
    the very value it rejected with; or it was an earlier attempt that
    rejected with [undefined] or [null], and what is thrown is the TypeError
    of reading its message. *)
Lemma Retry_throws {A} (warning : Z -> string) (operation : Operation A) n a h r evs :
  Retry warning operation n a h r evs ->
  forall t, r = Throw t ->
  exists pre t0 calls,
    evs = pre ++ EThrottle :: EInvoke :: remote_events calls
    /\ operation (h ++ pre ++ [EThrottle]) = (inl t0, calls)
    /\ (a + Z.of_nat (invocations evs) = n + 1 /\ t = t0
        \/ a + Z.of_nat (invocations evs) < n + 1
           /\ exists typeError, unreadable t0 = Some typeError /\ t = TError typeError).
Proof.
  intros HR. induction HR as [a h v calls Hop | h t0 calls Hop
                             | a h err calls r evs Ha Hop HR IH
                             | a h t0 typeError calls Ha Hop Ht0]; intros t Ht.
  - discriminate Ht.
  - exists [], t0, calls. inversion Ht. subst.
    split; [reflexivity |]. split; [exact Hop |]. left.
    rewrite invocations_last_attempt. split; [lia | reflexivity].
  - destruct (IH t Ht) as (pre & t0 & calls' & Hevs & Hop' & Hcase).
    exists (failed_attempt warning a calls ++ pre), t0, calls'.
    split; [rewrite Hevs, app_assoc; reflexivity |].
    split; [rewrite <- Hop'; f_equal; rewrite !app_assoc; reflexivity |].
    rewrite invocations_app, invocations_failed_attempt.
    destruct Hcase as [(Hk & Heq) | (Hk & Hte)]; [left | right].
    + split; [lia | exact Heq].
    + split; [lia | exact Hte].
  - exists [], t0, calls. inversion Ht. subst.
    split; [reflexivity |]. split; [exact Hop |]. right.
    rewrite invocations_last_attempt. split; [lia |].
    exists typeError. split; [exact Ht0 | reflexivity].
Qed.




(** C10. With [maxRetries <= 0] the loop body never runs: nothing is
    emitted (no throttle, no invocation of the operation), the counters are
    untouched and the value thrown is [undefined]. *)
Theorem retryOperation_no_attempt {A} (operation : Operation A) (maxRetries : Z) h c :
  maxRetries <= 0 ->
  (completion (IndexJs.retryOperation operation maxRetries h c) = Throw TUndefined
   /\ invocations (emitted (IndexJs.retryOperation operation maxRetries h c)) = 0%nat
   /\ throttles (emitted (IndexJs.retryOperation operation maxRetries h c)) = 0%nat
   /\ IndexJs.retryOperation operation maxRetries h c = (Throw TUndefined, [], c))
  /\ (completion (Part001.retryOperation operation maxRetries h c) = Throw TUndefined
      /\ invocations (emitted (Part001.retryOperation operation maxRetries h c)) = 0%nat
      /\ throttles (emitted (Part001.retryOperation operation maxRetries h c)) = 0%nat
      /\ Part001.retryOperation operation maxRetries h c = (Throw TUndefined, [], c)).
Proof.
  intros Hn.
  unfold IndexJs.retryOperation, Part001.retryOperation, attempts_upto.
  replace (Z.to_nat maxRetries) with O by lia.
  repeat split.
Qed.

Lemma retryOperation_no_attempt_witness :
  (completion (IndexJs.retryOperation rejecting 0 [] c0) = Throw TUndefined
   /\ invocations (emitted (IndexJs.retryOperation rejecting 0 [] c0)) = 0%nat
   /\ throttles (emitted (IndexJs.retryOperation rejecting 0 [] c0)) = 0%nat
   /\ IndexJs.retryOperation rejecting 0 [] c0 = (Throw TUndefined, [], c0))
  /\ (completion (Part001.retryOperation rejecting 0 [] c0) = Throw TUndefined
      /\ invocations (emitted (Part001.retryOperation rejecting 0 [] c0)) = 0%nat
      /\ throttles (emitted (Part001.retryOperation rejecting 0 [] c0)) = 0%nat
      /\ Part001.retryOperation rejecting 0 [] c0 = (Throw TUndefined, [], c0)).
Proof.
  apply (@retryOperation_no_attempt unit rejecting 0 [] c0). lia.
Defined.

(** C7, as the code has it.  When [retryOperation] throws, the last events
    of the run are an invocation that rejected.  When that invocation is the
    final attempt, the one numbered [maxRetries], the value thrown is the
    very value it rejected with, unwrapped, whatever that value is; and
    whenever the invocation rejected with an [Error] object, the value thrown
    is that [Error] itself. *)
Theorem retryOperation_throws_raw_error {A} (operation : Operation A) (maxRetries : Z)
    h c (t : Thrown) :
  1 <= maxRetries ->
  completion (IndexJs.retryOperation operation maxRetries h c) = Throw t ->
  exists pre t0 calls,
    emitted (IndexJs.retryOperation operation maxRetries h c)
    = pre ++ EThrottle :: EInvoke :: remote_events calls
    /\ operation (h ++ pre ++ [EThrottle]) = (inl t0, calls)
    /\ (Z.of_nat (invocations (emitted (IndexJs.retryOperation operation maxRetries h c)))
        = maxRetries -> t = t0)
    /\ (forall err, t0 = TError err -> t = TError err).
Proof.
  intros Hn Ht.
  destruct (@index_retryOperation_Retry _ operation maxRetries h c Hn)
    as (r & evs & Hr & HR).
  rewrite Hr in *. cbn [completion emitted fst snd] in *.
  destruct (Retry_throws HR Ht) as (pre & t0 & calls & Hevs & Hop & Hcase).
  exists pre, t0, calls. split; [exact Hevs |]. split; [exact Hop |]. split.
  - intros Hall. destruct Hcase as [(_ & Heq) | (Hk & _)]; [exact Heq | lia].
  - intros err ->. destruct Hcase as [(_ & Heq) | (_ & typeError & Hte & _)];
      [exact Heq | discriminate Hte].
Qed.

Lemma retryOperation_throws_raw_error_witness :
  exists pre t0 calls,
    emitted (IndexJs.retryOperation rejecting 3 [] c0)
    = pre ++ EThrottle :: EInvoke :: remote_events calls
    /\ rejecting ([] ++ pre ++ [EThrottle]) = (inl t0, calls)
    /\ (Z.of_nat (invocations (emitted (IndexJs.retryOperation rejecting 3 [] c0))) = 3 ->
        TError boom = t0)
    /\ (forall err, t0 = TError err -> TError boom = TError err).
Proof.
  apply (@retryOperation_throws_raw_error unit rejecting 3 [] c0 (TError boom)).
  - lia.
  - reflexivity.
Defined.

(** C7 as the specification words it fails: the value thrown after three
    failures with [boom] is [boom], not an error named RetryExhausted (or
    RemoteOperationFailure) whose cause is [boom]. *)
Lemma retryOperation_not_RetryExhausted :
  completion (IndexJs.retryOperation rejecting 3 [] c0) = Throw (TError boom)
  /\ ~ (forall t, completion (IndexJs.retryOperation rejecting 3 [] c0) = Throw t ->
        RetryExhausted_carrying t boom).
Proof.
  split; [reflexivity |].
  intros H. destruct (H (TError boom) eq_refl) as (e & He & _ & Hcause).
  inversion He; subst e. discriminate Hcause.
Qed.

(** The scenario of the specification: failures on attempts 1 and 2, success
    on attempt 3; the value is returned after exactly three throttles. *)
Example retryOperation_third_time_lucky :
  completion (IndexJs.retryOperation third_time_lucky 3 [] c0) = Return "done"
  /\ throttles (emitted (IndexJs.retryOperation third_time_lucky 3 [] c0)) = 3%nat
  /\ sleeps (emitted (IndexJs.retryOperation third_time_lucky 3 [] c0)) = [1000; 2000]
  /\ completion (Part001.retryOperation third_time_lucky 3 [] c0) = Return "done"
  /\ throttles (emitted (Part001.retryOperation third_time_lucky 3 [] c0)) = 3%nat.
Proof. repeat split. Qed.

(** ** Chunking *)

Lemma len_nonneg {A} (l : list A) : 0 <= len l.
Proof. unfold len. lia. Qed.

Lemma len_app {A} (l1 l2 : list A) : len (l1 ++ l2) = len l1 + len l2.
Proof. unfold len. rewrite length_app. lia. Qed.

Lemma slice_step {A} (data : list A) (i size : Z) :
  slice data i (i + size) = firstn (Z.to_nat size) (skipn (Z.to_nat i) data).
Proof. unfold slice. replace (i + size - i) with size by lia. reflexivity. Qed.

Lemma len_slice_le {A} (data : list A) (i size : Z) :
  0 < size -> len (slice data i (i + size)) <= size.
Proof.
  intros Hs. rewrite slice_step. unfold len.
  pose proof (firstn_le_length (Z.to_nat size) (skipn (Z.to_nat i) data)). lia.
Qed.

Lemma chunkArrayLoop_concat {A} (data : list A) (size : Z) :
  0 < size ->
  forall fuel i,
    0 <= i -> (List.length data - Z.to_nat i <= fuel)%nat ->
    List.concat (chunkArrayLoop data size fuel i) = skipn (Z.to_nat i) data.
Proof.
  intros Hs. induction fuel as [| fuel IH]; intros i Hi Hfuel.
  - cbn [chunkArrayLoop List.concat]. symmetry. apply skipn_all2. lia.
  - cbn [chunkArrayLoop]. destruct (i <? len data) eqn:E.
    + cbn [List.concat]. rewrite IH by lia. rewrite slice_step.
      replace (Z.to_nat (i + size)) with (Z.to_nat size + Z.to_nat i)%nat by lia.
      rewrite <- skipn_skipn. apply firstn_skipn.
    + apply Z.ltb_ge in E. unfold len in E. cbn [List.concat].
      symmetry. apply skipn_all2. lia.
Qed.

Lemma chunkArrayLoop_bounded {A} (data : list A) (size : Z) :
  0 < size ->
  forall fuel i, Forall (fun chunk => len chunk <= size) (chunkArrayLoop data size fuel i).
Proof.
  intros Hs. induction fuel as [| fuel IH]; intros i; cbn [chunkArrayLoop].
  - constructor.
  - destruct (i <? len data); constructor; [apply len_slice_le, Hs | apply IH].
Qed.

Lemma ceil_div_step (a b : Z) : 0 < b -> ceil_div (a - b) b = ceil_div a b - 1.
Proof.
  intros Hb. unfold ceil_div.
  replace (- (a - b)) with (- a + 1 * b) by lia.
  rewrite Z.div_add by lia. lia.
Qed.

Lemma ceil_div_one (a b : Z) : 0 < a <= b -> ceil_div a b = 1.
Proof.
  intros Hab. unfold ceil_div.
  rewrite <- (Z.div_unique (- a) b (-1) (b - a)); lia.
Qed.

Lemma chunkArrayLoop_count {A} (data : list A) (size : Z) :
  0 < size ->
  forall fuel i,
    0 <= i -> (List.length data - Z.to_nat i <= fuel)%nat ->
    len (chunkArrayLoop data size fuel i)
    = if i <? len data then ceil_div (len data - i) size else 0.
Proof.
  intros Hs. induction fuel as [| fuel IH]; intros i Hi Hfuel.
  - cbn [chunkArrayLoop]. replace (i <? len data) with false; [reflexivity |].
    symmetry. apply Z.ltb_ge. unfold len. lia.
  - cbn [chunkArrayLoop]. destruct (i <? len data) eqn:E; [| reflexivity].
    apply Z.ltb_lt in E.
    change (len (slice data i (i + size) :: chunkArrayLoop data size fuel (i + size)))
      with (Z.of_nat (S (List.length (chunkArrayLoop data size fuel (i + size))))).
    rewrite Nat2Z.inj_succ. fold (len (chunkArrayLoop data size fuel (i + size))).
    rewrite IH by (unfold len in E; lia).
    destruct (i + size <? len data) eqn:E2.
    + replace (len data - (i + size)) with (len data - i - size) by lia.
      rewrite ceil_div_step by lia. lia.
    + apply Z.ltb_ge in E2. rewrite ceil_div_one by lia. reflexivity.
Qed.

(** ** Traces of single-call operations *)

Lemma requests_app (a b : list Event) : requests (a ++ b) = requests a ++ requests b.
Proof. apply flat_map_app. Qed.

Lemma succeeded_app (a b : list Event) : succeeded (a ++ b) = succeeded a ++ succeeded b.
Proof. apply flat_map_app. Qed.

Lemma sleeps_app (a b : list Event) : sleeps (a ++ b) = sleeps a ++ sleeps b.
Proof. apply flat_map_app. Qed.

Lemma perform_calls_once (service : list Event -> Request -> Reply) (req : Request) :
  calls_once req (perform service req).
Proof.
  intros h. unfold perform. destruct (service h req) as [err | values].
  - left. exists err. reflexivity.
  - right. exists tt, values. reflexivity.
Qed.

Lemma fetch_values_calls_once (service : list Event -> Request -> Reply)
    (spreadsheetId range : Cell) :
  calls_once (Get spreadsheetId range) (fetch_values service spreadsheetId range).
Proof.
  intros h. unfold fetch_values.
  destruct (service h (Get spreadsheetId range)) as [err | [values |]].
  - left. exists err. reflexivity.
  - right. exists values, (Some values). reflexivity.
  - right. exists [], None. reflexivity.
Qed.

Lemma is_success_failed_attempt (warning : Z -> string) attempt req err :
  Forall (fun e => is_success e = false)
         (failed_attempt warning attempt [(req, inl err)]).
Proof. unfold failed_attempt. repeat constructor. Qed.

Lemma Retry_retried {A} (warning : Z -> string) (operation : Operation A) req n a h r evs :
  calls_once req operation ->
  Retry warning operation n a h r evs ->
  retried req r evs.
Proof.
  intros Hone HR. induction HR as [a h v calls Hop | h t calls Hop
                                  | a h err calls r evs Ha Hop HR IH
                                  | a h t typeError calls Ha Hop Ht].
  - destruct (Hone (h ++ [EThrottle])) as [(err & H) | (v' & values & H)];
      rewrite H in Hop; inversion Hop; subst.
    repeat split.
    + repeat constructor.
    + exists []. split; [constructor |]. exists values. reflexivity.
  - destruct (Hone (h ++ [EThrottle])) as [(err' & H) | (v' & values & H)];
      rewrite H in Hop; inversion Hop; subst.
    repeat split.
    + repeat constructor.
    + eexists. split; [| reflexivity]. repeat constructor.
  - destruct (Hone (h ++ [EThrottle])) as [(err' & H) | (v' & values & H)];
      rewrite H in Hop; inversion Hop; subst.
    destruct IH as (Hreq & Hsucc & fails & Hfails & Hshape).
    repeat split.
    + rewrite requests_app. apply Forall_app. split; [| exact Hreq].
      repeat constructor.
    + rewrite succeeded_app, Hsucc. reflexivity.
    + exists (failed_attempt warning a [(req, inl err)] ++ fails). split.
      * apply Forall_app. split; [apply is_success_failed_attempt | exact Hfails].
      * destruct r as [v | t].
        -- destruct Hshape as (values & ->). exists values.
           rewrite app_assoc. reflexivity.
        -- rewrite Hshape. reflexivity.
  - destruct (Hone (h ++ [EThrottle])) as [(err' & H) | (v' & values & H)];
      rewrite H in Hop; inversion Hop; subst. discriminate Ht.
Qed.

(** With at least one attempt allowed, the request is sent, and a value
    thrown is an [Error]. *)
Lemma Retry_sent {A} (warning : Z -> string) (operation : Operation A) req n a h r evs :
  calls_once req operation ->
  Retry warning operation n a h r evs ->
  In req (requests evs).
Proof.
  intros Hone HR.
  destruct HR as [a h v calls Hop | h t calls Hop | a h err calls r evs Ha Hop HR
                 | a h t typeError calls Ha Hop Ht];
    destruct (Hone (h ++ [EThrottle])) as [(err' & H) | (v' & values & H)];
    rewrite H in Hop; inversion Hop; subst; left; reflexivity.
Qed.

Lemma calls_once_rejects {A} (req : Request) (operation : Operation A) :
  calls_once req operation -> rejects_with_Errors operation.
Proof.
  intros Hone h t calls Hop.
  destruct (Hone h) as [(err & H) | (v & values & H)]; rewrite H in Hop; inversion Hop.
  exists err. reflexivity.
Qed.

(** What the loop throws on an operation that rejects with [Error] objects
    only is an [Error] object. *)
Lemma Retry_throws_error {A} (warning : Z -> string) (operation : Operation A) n a h t evs :
  rejects_with_Errors operation ->
  Retry warning operation n a h (Throw t) evs -> exists err, t = TError err.
Proof.
  intros Hrej HR.
  destruct (Retry_throws HR eq_refl) as (pre & t0 & calls & _ & Hop & Hcase).
  destruct Hcase as [(_ & ->) | (_ & typeError & _ & ->)].
  - exact (Hrej _ _ _ Hop).
  - exists typeError. reflexivity.
Qed.

Lemma retried_none {A} (req : Request) (t : Thrown) : retried req (@Throw A t) [].
Proof.
  repeat split; [constructor |]. exists []. split; [constructor | reflexivity].
Qed.

Lemma retryOperation_none {A} (operation : Operation A) (n : Z) h c :
  n <= 0 ->
  IndexJs.retryOperation operation n h c = (Throw TUndefined, [], c)
  /\ Part001.retryOperation operation n h c = (Throw TUndefined, [], c).
Proof.
  intros Hn. unfold IndexJs.retryOperation, Part001.retryOperation, attempts_upto.
  replace (Z.to_nat n) with O by lia. split; reflexivity.
Qed.

Lemma index_retry_once {A} (operation : Operation A) req n h c :
  calls_once req operation ->
  exists r evs,
    IndexJs.retryOperation operation n h c = (r, evs, c) /\ retried req r evs.
Proof.
  intros Hone. destruct (Z_le_gt_dec n 0) as [Hn | Hn].
  - exists (Throw TUndefined), []. split; [apply retryOperation_none, Hn | apply retried_none].
  - destruct (@index_retryOperation_Retry _ operation n h c) as (r & evs & Hr & HR); [lia |].
    exists r, evs. split; [exact Hr | exact (Retry_retried Hone HR)].
Qed.

Lemma part001_retry_once {A} (operation : Operation A) req n h c :
  calls_once req operation ->
  exists r evs,
    Part001.retryOperation operation n h c = (r, evs, c) /\ retried req r evs.
Proof.
  intros Hone. destruct (Z_le_gt_dec n 0) as [Hn | Hn].
  - exists (Throw TUndefined), []. split; [apply retryOperation_none, Hn | apply retried_none].
  - destruct (@part001_retryOperation_Retry _ operation n h c) as (r & evs & Hr & HR); [lia |].
    exists r, evs. split; [exact Hr | exact (Retry_retried Hone HR)].
Qed.

(** With a service that rejects nothing the first attempt returns. *)
Lemma retry_perform_ok (service : list Event -> Request -> Reply) req n h c :
  never_fails service -> 1 <= n ->
  exists values,
    IndexJs.retryOperation (perform service req) n h c
    = (Return tt, [EThrottle; EInvoke; ERemote req (inr values)], c)
    /\ Part001.retryOperation (perform service req) n h c
       = (Return tt, [EThrottle; EInvoke; ERemote req (inr values)], c).
Proof.
  intros Hok Hn. destruct (Hok (h ++ [EThrottle]) req) as (values & Hv).
  exists values. unfold IndexJs.retryOperation, Part001.retryOperation, attempts_upto.
  replace (Z.to_nat n) with (S (Z.to_nat (n - 1))) by lia. cbn [seq map].
  assert (Hop : perform service req (h ++ [EThrottle]) = (inr tt, [(req, inr values)])).
  { unfold perform. rewrite Hv. reflexivity. }
  erewrite index_retryLoop_cons by exact Hop.
  erewrite part001_retryLoop_cons by exact Hop.
  split; reflexivity.
Qed.

Lemma chunkArray_first {A} (data : list A) (size : Z) :
  0 < len data ->
  chunkArray data size
  = slice data 0 (0 + size)
    :: chunkArrayLoop data size (List.length data - 1) (0 + size).
Proof.
  intros Hlen. unfold chunkArray. destruct data as [| x data]; [unfold len in Hlen; simpl in Hlen; lia |].
  cbn [List.length chunkArrayLoop].
  replace (0 <? len (x :: data)) with true by (symmetry; apply Z.ltb_lt; exact Hlen).
  replace (S (List.length data) - 1)%nat with (List.length data) by lia. reflexivity.
Qed.

(** The chunks of [chunkArray] are what the specification asks of the
    chunked write path. *)
Lemma chunked_calls_chunkArray (destinationSpreadsheetId destinationRange : Cell)
    (size : Z) (data : Rows) :
  0 < size -> size < len data ->
  chunked_calls destinationSpreadsheetId destinationRange size data
    (Clear destinationSpreadsheetId destinationRange
     :: Update destinationSpreadsheetId destinationRange (slice data 0 (0 + size))
     :: map (Append destinationSpreadsheetId destinationRange)
            (chunkArrayLoop data size (List.length data - 1) (0 + size))).
Proof.
  intros Hs Hlen. eexists _, _. split; [reflexivity |].
  assert (Hfuel : (List.length data - Z.to_nat (0 + size) <= List.length data - 1)%nat)
    by lia.
  split; [| split].
  - unfold Rows. rewrite chunkArrayLoop_count by lia.
    replace (0 + size <? len data) with true by (symmetry; apply Z.ltb_lt; lia).
    replace (len data - (0 + size)) with (len data - size) by lia.
    apply ceil_div_step, Hs.
  - constructor; [apply len_slice_le, Hs | apply chunkArrayLoop_bounded, Hs].
  - cbn [List.concat]. rewrite chunkArrayLoop_concat by lia.
    rewrite slice_step. cbn [Z.to_nat skipn].
    replace (Z.to_nat (0 + size)) with (Z.to_nat size) by lia.
    apply firstn_skipn.
Qed.

(** ** ChunkedWriter, src/index.js *)

Section IndexChunks.

Variable service : list Event -> Request -> Reply.
Variable cfg : Config.
Variables destinationSpreadsheetId destinationRange : Cell.
Variable data : Rows.

Hypothesis chunk_size_positive : 0 < CHUNK_SIZE cfg.

Let chunkLoop := IndexJs.chunkLoop service cfg destinationSpreadsheetId destinationRange data.

Lemma completion_after {A} (pre : list Event) (r : Completion A * list Event * Counters) :
  completion (after pre r) = completion r.
Proof. destruct r as [[x evs] c]. reflexivity. Qed.

Lemma emitted_after {A} (pre : list Event) (r : Completion A * list Event * Counters) :
  emitted (after pre r) = pre ++ emitted r.
Proof. destruct r as [[x evs] c]. reflexivity. Qed.

Lemma counters_after {A} (pre : list Event) (r : Completion A * list Event * Counters) :
  counters (after pre r) = counters r.
Proof. destruct r as [[x evs] c]. reflexivity. Qed.

(** The appends that resolved in a loop that returned are the chunks from
    offset [i] on, in order. *)
Lemma index_chunkLoop_succeeded (fuel : nat) :
  forall i h c,
    0 < i ->
    completion (chunkLoop fuel i h c) = Return tt ->
    succeeded (emitted (chunkLoop fuel i h c))
    = map (Append destinationSpreadsheetId destinationRange)
          (chunkArrayLoop data (CHUNK_SIZE cfg) fuel i).
Proof.
  unfold chunkLoop. induction fuel as [| fuel IH]; intros i h c Hi Hret; [reflexivity |].
  cbn [IndexJs.chunkLoop chunkArrayLoop] in *.
  destruct (i <? len data); [| reflexivity].
  replace (i =? 0) with false in * by (symmetry; apply Z.eqb_neq; lia).
  unfold logger_info in *. rewrite bind_emit in *.
  rewrite completion_after in Hret. rewrite emitted_after.
  match type of Hret with
  | completion (bind (IndexJs.retryOperation ?op ?n) _ ?h' ?c') = _ =>
      destruct (@index_retry_once _ op
                  (Append destinationSpreadsheetId destinationRange
                     (slice data i (i + CHUNK_SIZE cfg))) n h' c'
                  (perform_calls_once _ _))
        as (r & evs & Hr & Hreq & Hsucc & _)
  end.
  destruct r as [[] | t].
  - erewrite bind_Return in * by exact Hr.
    rewrite completion_after in Hret. rewrite emitted_after.
    rewrite !succeeded_app, Hsucc, IH by (lia || exact Hret). reflexivity.
  - erewrite bind_Throw in Hret by exact Hr. discriminate Hret.
Qed.

(** With a service that rejects nothing the loop returns, sends exactly the
    appends of the chunks and never sleeps. *)
Lemma index_chunkLoop_ok (fuel : nat) :
  never_fails service -> 1 <= MAX_RETRIES cfg ->
  forall i h c,
    0 < i ->
    completion (chunkLoop fuel i h c) = Return tt
    /\ requests (emitted (chunkLoop fuel i h c))
       = map (Append destinationSpreadsheetId destinationRange)
             (chunkArrayLoop data (CHUNK_SIZE cfg) fuel i)
    /\ sleeps (emitted (chunkLoop fuel i h c)) = [].
Proof.
  intros Hok Hmax. unfold chunkLoop.
  induction fuel as [| fuel IH]; intros i h c Hi; [repeat split |].
  cbn [IndexJs.chunkLoop chunkArrayLoop].
  destruct (i <? len data); [| repeat split].
  replace (i =? 0) with false by (symmetry; apply Z.eqb_neq; lia).
  unfold logger_info. rewrite bind_emit, completion_after, emitted_after.
  match goal with
  | |- completion (bind (IndexJs.retryOperation (perform _ ?req) ?n) _ ?h' ?c') = _ /\ _ =>
      destruct (@retry_perform_ok service req n h' c' Hok Hmax) as (values & Hr & _)
  end.
  erewrite bind_Return by exact Hr.
  rewrite completion_after, emitted_after, !requests_app, !sleeps_app.
  destruct (IH (i + CHUNK_SIZE cfg)
              ((h ++ [ELog INFO
                 ("Uploading chunk " ++ string_of_Z (i / CHUNK_SIZE cfg + 1) ++ "/"
                  ++ string_of_Z (ceil_div (len data) (CHUNK_SIZE cfg)) ++ " ("
                  ++ string_of_Z (len (slice data i (i + CHUNK_SIZE cfg)))
                  ++ " rows)")%string])
               ++ [EThrottle; EInvoke;
                   ERemote (Append destinationSpreadsheetId destinationRange
                              (slice data i (i + CHUNK_SIZE cfg))) (inr values)]) c)
    as (Hc & Hq & Hs); [lia |].
  rewrite Hc, Hq, Hs. repeat split.
Qed.

Lemma index_chunked_unfold h c :
  CHUNK_SIZE cfg < len data ->
  IndexJs.updateDestinationInChunks service cfg destinationSpreadsheetId destinationRange
    data h c
  = after [ELog INFO "Processing large dataset in chunks"]
      (bind (IndexJs.retryOperation
               (perform service (Clear destinationSpreadsheetId destinationRange))
               (MAX_RETRIES cfg))
            (fun _ =>
               logger_info ("Uploading chunk " ++ string_of_Z (0 / CHUNK_SIZE cfg + 1) ++ "/"
                  ++ string_of_Z (ceil_div (len data) (CHUNK_SIZE cfg)) ++ " ("
                  ++ string_of_Z (len (slice data 0 (0 + CHUNK_SIZE cfg)))
                  ++ " rows)")%string ;;
               IndexJs.retryOperation
                 (perform service
                    (Update destinationSpreadsheetId destinationRange
                       (slice data 0 (0 + CHUNK_SIZE cfg))))
                 (MAX_RETRIES cfg) ;;
               chunkLoop (List.length data - 1) (0 + CHUNK_SIZE cfg))
            (h ++ [ELog INFO "Processing large dataset in chunks"]) c).
Proof.
  intros Hlen. unfold IndexJs.updateDestinationInChunks.
  replace (len data <=? CHUNK_SIZE cfg) with false by (symmetry; apply Z.leb_gt; lia).
  unfold logger_info at 1. rewrite bind_emit. f_equal.
  assert (Hpos : 0 < len data) by lia.
  destruct data as [| x rows]; [unfold len in Hpos; simpl in Hpos; lia |].
  cbn [List.length IndexJs.chunkLoop].
  replace (0 <? len (x :: rows)) with true by (symmetry; apply Z.ltb_lt; exact Hpos).
  replace (S (List.length rows) - 1)%nat with (List.length rows) by lia.
  reflexivity.
Qed.

Lemma index_chunked_succeeded h c :
  CHUNK_SIZE cfg < len data ->
  completion (IndexJs.updateDestinationInChunks service cfg destinationSpreadsheetId
                destinationRange data h c) = Return tt ->
  succeeded (emitted (IndexJs.updateDestinationInChunks service cfg
                        destinationSpreadsheetId destinationRange data h c))
  = Clear destinationSpreadsheetId destinationRange
    :: Update destinationSpreadsheetId destinationRange (slice data 0 (0 + CHUNK_SIZE cfg))
    :: map (Append destinationSpreadsheetId destinationRange)
           (chunkArrayLoop data (CHUNK_SIZE cfg) (List.length data - 1) (0 + CHUNK_SIZE cfg)).
Proof.
  intros Hlen. rewrite index_chunked_unfold by exact Hlen.
  rewrite completion_after, emitted_after.
  match goal with
  | |- completion (bind (IndexJs.retryOperation ?op ?n) _ ?h' ?c') = _ -> _ =>
      destruct (@index_retry_once _ op (Clear destinationSpreadsheetId destinationRange)
                  n h' c' (perform_calls_once _ _))
        as (r & evs & Hr & _ & Hsucc & _)
  end.
  destruct r as [[] | t]; [| erewrite bind_Throw by exact Hr; discriminate].
  erewrite bind_Return by exact Hr.
  rewrite completion_after, emitted_after. unfold logger_info.
  rewrite bind_emit, completion_after, emitted_after.
  match goal with
  | |- completion (bind (IndexJs.retryOperation ?op ?n) _ ?h' ?c') = _ -> _ =>
      destruct (@index_retry_once _ op
                  (Update destinationSpreadsheetId destinationRange
                     (slice data 0 (0 + CHUNK_SIZE cfg)))
                  n h' c' (perform_calls_once _ _))
        as (r2 & evs2 & Hr2 & _ & Hsucc2 & _)
  end.
  destruct r2 as [[] | t]; [| erewrite bind_Throw by exact Hr2; discriminate].
  erewrite bind_Return by exact Hr2.
  rewrite completion_after, emitted_after. intros Hret.
  rewrite !succeeded_app, Hsucc, Hsucc2.
  rewrite index_chunkLoop_succeeded by (lia || exact Hret). reflexivity.
Qed.

Lemma index_chunked_ok h c :
  never_fails service -> 1 <= MAX_RETRIES cfg ->
  CHUNK_SIZE cfg < len data ->
  completion (IndexJs.updateDestinationInChunks service cfg destinationSpreadsheetId
                destinationRange data h c) = Return tt
  /\ requests (emitted (IndexJs.updateDestinationInChunks service cfg
                          destinationSpreadsheetId destinationRange data h c))
     = Clear destinationSpreadsheetId destinationRange
       :: Update destinationSpreadsheetId destinationRange (slice data 0 (0 + CHUNK_SIZE cfg))
       :: map (Append destinationSpreadsheetId destinationRange)
              (chunkArrayLoop data (CHUNK_SIZE cfg) (List.length data - 1)
                 (0 + CHUNK_SIZE cfg))
  /\ sleeps (emitted (IndexJs.updateDestinationInChunks service cfg
                        destinationSpreadsheetId destinationRange data h c)) = [].
Proof.
  intros Hok Hmax Hlen. rewrite index_chunked_unfold by exact Hlen.
  rewrite completion_after, emitted_after.
  match goal with
  | |- completion (bind (IndexJs.retryOperation (perform _ ?req) ?n) _ ?h' ?c') = _ /\ _ =>
      destruct (@retry_perform_ok service req n h' c' Hok Hmax) as (values & Hr & _)
  end.
  erewrite bind_Return by exact Hr.
  rewrite completion_after, emitted_after. unfold logger_info.
  rewrite bind_emit, completion_after, emitted_after.
  match goal with
  | |- completion (bind (IndexJs.retryOperation (perform _ ?req) ?n) _ ?h' ?c') = _ /\ _ =>
      destruct (@retry_perform_ok service req n h' c' Hok Hmax) as (values2 & Hr2 & _)
  end.
  erewrite bind_Return by exact Hr2.
  rewrite completion_after, emitted_after, !requests_app, !sleeps_app.
  match goal with
  | |- completion (chunkLoop ?f ?i ?h' ?c') = _ /\ _ =>
      destruct (@index_chunkLoop_ok f Hok Hmax i h' c') as (Hc & Hq & Hs); [lia |]
  end.
  rewrite Hc, Hq, Hs. repeat split.
Qed.

End IndexChunks.

(** ** ChunkedWriter, src/unnamed/part_001 *)

Lemma paced_app_unwritten (delay : Z) (a b : list Event) :
  Forall (fun e => is_written e = false) a -> paced delay (a ++ b) = paced delay b.
Proof.
  induction 1 as [| e a He Ha IH]; [reflexivity |].
  cbn [app paced]. rewrite He, IH. reflexivity.
Qed.

Lemma unwritten_of_failed (evs : list Event) :
  Forall (fun e => is_success e = false) evs ->
  Forall (fun e => is_written e = false) evs.
Proof.
  apply Forall_impl. intros [| ms | | req [err | values] | lvl msg | p e] H;
    try reflexivity; try discriminate H.
  destruct req; reflexivity.
Qed.

Lemma paced_unwritten (delay : Z) (evs : list Event) :
  Forall (fun e => is_written e = false) evs -> paced delay evs = true.
Proof.
  intros H. rewrite <- (app_nil_r evs), paced_app_unwritten by exact H. reflexivity.
Qed.

Section Part001Chunks.

Variable service : list Event -> Request -> Reply.
Variable cfg : Config.
Variables destinationSpreadsheetId destinationRange : Cell.
Variable data : Rows.

Hypothesis chunk_size_positive : 0 < CHUNK_SIZE cfg.

Let chunkLoop := Part001.chunkLoop service cfg destinationSpreadsheetId destinationRange data.

(** One chunk write with its pacing sleep and its error report. *)
Lemma part001_write_chunk (req : Request) (msg : string) (n : Z) h c :
  exists r evs,
    try_catch
      (Part001.retryOperation (perform service req) n ;; sleep 1000)
      (fun error => _ <- message_of error ;; logger_error msg ;; throw error) h c
    = (r, evs, c)
    /\ match r with
       | Return _ =>
           exists evs0, evs = evs0 ++ [ESleep 1000] /\ retried req (Return tt) evs0
       | Throw _ =>
           Forall (eq req) (requests evs) /\ succeeded evs = []
           /\ Forall (fun e => is_success e = false) evs
       end.
Proof.
  destruct (@part001_retry_once _ (perform service req) req n h c (perform_calls_once _ _))
    as (r & evs & Hr & Hretried).
  destruct r as [[] | t].
  - eexists _, _. split.
    + apply try_Return. erewrite bind_Return by exact Hr. reflexivity.
    + exists evs. split; [reflexivity | exact Hretried].
  - destruct Hretried as (Hreq & Hsucc & fails & Hfails & ->).
    erewrite try_Throw by (erewrite bind_Throw by exact Hr; reflexivity).
    destruct t as [| | e].
    + eexists _, _. split; [reflexivity |]. cbn [app]. rewrite app_nil_r. auto.
    + eexists _, _. split; [reflexivity |]. cbn [app]. rewrite app_nil_r. auto.
    + eexists _, _. split; [reflexivity |]. cbn [app].
      rewrite requests_app, succeeded_app, Hsucc, !app_nil_r.
      repeat split; [exact Hreq |].
      apply Forall_app. split; [exact Hfails | repeat constructor].
Qed.

Lemma part001_chunkLoop_cons (fuel : nat) i h c :
  i < len data ->
  chunkLoop (S fuel) i h c
  = after [ELog INFO ("Uploading chunk " ++ string_of_Z (i / CHUNK_SIZE cfg + 1))%string]
      (bind
         (try_catch
            (Part001.retryOperation
               (perform service
                  (if i =? 0
                   then Update destinationSpreadsheetId destinationRange
                          (slice data i (i + CHUNK_SIZE cfg))
                   else Append destinationSpreadsheetId destinationRange
                          (slice data i (i + CHUNK_SIZE cfg))))
               (MAX_RETRIES cfg) ;; sleep 1000)
            (fun error =>
               _ <- message_of error ;;
               logger_error ("Chunk " ++ string_of_Z (i / CHUNK_SIZE cfg + 1)
                             ++ " failed")%string ;;
               throw error))
         (fun _ => chunkLoop fuel (i + CHUNK_SIZE cfg))
         (h ++ [ELog INFO ("Uploading chunk "
                           ++ string_of_Z (i / CHUNK_SIZE cfg + 1))%string]) c).
Proof.
  intros Hi. unfold chunkLoop. cbn [Part001.chunkLoop].
  replace (i <? len data) with true by (symmetry; apply Z.ltb_lt; exact Hi).
  unfold logger_info at 1. rewrite bind_emit. destruct (i =? 0); reflexivity.
Qed.

Lemma part001_chunkLoop_succeeded (fuel : nat) :
  forall i h c,
    0 < i ->
    completion (chunkLoop fuel i h c) = Return tt ->
    succeeded (emitted (chunkLoop fuel i h c))
    = map (Append destinationSpreadsheetId destinationRange)
          (chunkArrayLoop data (CHUNK_SIZE cfg) fuel i).
Proof.
  induction fuel as [| fuel IH]; intros i h c Hi Hret; [reflexivity |].
  cbn [chunkArrayLoop]. destruct (i <? len data) eqn:E.
  - apply Z.ltb_lt in E. rewrite part001_chunkLoop_cons in * by exact E.
    replace (i =? 0) with false in * by (symmetry; apply Z.eqb_neq; lia).
    rewrite completion_after in Hret. rewrite emitted_after.
    match type of Hret with
    | completion (bind (try_catch (bind (Part001.retryOperation (perform _ ?req) ?n) _)
                                  (fun error => _ <- _ ;; logger_error ?msg ;; _)) _ ?h' ?c') = _ =>
        destruct (part001_write_chunk req msg n h' c') as (r & evs & Hr & Hshape)
    end.
    destruct r as [[] | t].
    + erewrite bind_Return in * by exact Hr.
      rewrite completion_after in Hret. rewrite emitted_after.
      destruct Hshape as (evs0 & -> & _ & Hsucc & _).
      rewrite !succeeded_app, Hsucc, IH by (lia || exact Hret). reflexivity.
    + erewrite bind_Throw in Hret by exact Hr. discriminate Hret.
  - unfold chunkLoop. cbn [Part001.chunkLoop]. rewrite E. reflexivity.
Qed.

(** Every chunk write that resolved is directly followed by the pacing
    sleep of 1000 ms, whatever the service does. *)
Lemma part001_chunkLoop_paced (fuel : nat) :
  forall i h c, paced 1000 (emitted (chunkLoop fuel i h c)) = true.
Proof.
  induction fuel as [| fuel IH]; intros i h c; [reflexivity |].
  destruct (i <? len data) eqn:E.
  - apply Z.ltb_lt in E. rewrite part001_chunkLoop_cons by exact E.
    rewrite emitted_after.
    match goal with
    | |- context [bind (try_catch (bind (Part001.retryOperation (perform _ ?req) ?n) _)
                                  (fun error => _ <- _ ;; logger_error ?msg ;; _)) _ ?h' ?c'] =>
        destruct (part001_write_chunk req msg n h' c') as (r & evs & Hr & Hshape)
    end.
    destruct r as [[] | t].
    + erewrite bind_Return by exact Hr. rewrite emitted_after.
      destruct Hshape as (evs0 & -> & _ & _ & fails & Hfails & values & ->).
      cbn [app paced is_written andb].
      rewrite <- !app_assoc.
      rewrite paced_app_unwritten by (apply unwritten_of_failed, Hfails).
      cbn [app paced is_written andb]. rewrite IH.
      destruct (i =? 0); reflexivity.
    + erewrite bind_Throw by exact Hr. cbn [emitted fst snd app paced is_written andb].
      destruct Hshape as (_ & _ & Hfails).
      apply paced_unwritten, unwritten_of_failed, Hfails.
  - unfold chunkLoop. cbn [Part001.chunkLoop]. rewrite E. reflexivity.
Qed.

Lemma part001_chunkLoop_ok (fuel : nat) :
  never_fails service -> 1 <= MAX_RETRIES cfg ->
  forall i h c,
    0 < i ->
    completion (chunkLoop fuel i h c) = Return tt
    /\ requests (emitted (chunkLoop fuel i h c))
       = map (Append destinationSpreadsheetId destinationRange)
             (chunkArrayLoop data (CHUNK_SIZE cfg) fuel i).
Proof.
  intros Hok Hmax.
  induction fuel as [| fuel IH]; intros i h c Hi; [repeat split |].
  cbn [chunkArrayLoop]. destruct (i <? len data) eqn:E.
  - apply Z.ltb_lt in E. rewrite part001_chunkLoop_cons by exact E.
    replace (i =? 0) with false by (symmetry; apply Z.eqb_neq; lia).
    rewrite completion_after, emitted_after.
    match goal with
    | |- context [bind (try_catch (bind (Part001.retryOperation (perform _ ?req) ?n) _) _)
                       _ ?h' ?c'] =>
        destruct (@retry_perform_ok service req n h' c' Hok Hmax) as (values & _ & Hr)
    end.
    erewrite bind_Return
      by (apply try_Return; erewrite bind_Return by exact Hr; reflexivity).
    rewrite completion_after, emitted_after, !requests_app.
    match goal with
    | |- completion (chunkLoop fuel ?j ?h' ?c') = _ /\ _ =>
        destruct (IH j h' c') as (Hc & Hq); [lia |]
    end.
    rewrite Hc, Hq. repeat split.
  - unfold chunkLoop. cbn [Part001.chunkLoop]. rewrite E. repeat split.
Qed.

Lemma part001_chunked_unfold h c :
  CHUNK_SIZE cfg < len data ->
  Part001.updateDestinationInChunks service cfg destinationSpreadsheetId destinationRange
    data h c
  = after [ELog INFO "Processing large dataset in chunks"]
      (bind (Part001.retryOperation
               (perform service (Clear destinationSpreadsheetId destinationRange))
               (MAX_RETRIES cfg))
            (fun _ => chunkLoop (S (List.length data - 1)) 0)
            (h ++ [ELog INFO "Processing large dataset in chunks"]) c).
Proof.
  intros Hlen. unfold Part001.updateDestinationInChunks.
  replace (len data <=? CHUNK_SIZE cfg) with false by (symmetry; apply Z.leb_gt; lia).
  unfold logger_info at 1. rewrite bind_emit.
  replace (S (List.length data - 1)) with (List.length data)
    by (unfold len in Hlen; lia).
  reflexivity.
Qed.

Lemma part001_chunked_succeeded h c :
  CHUNK_SIZE cfg < len data ->
  completion (Part001.updateDestinationInChunks service cfg destinationSpreadsheetId
                destinationRange data h c) = Return tt ->
  succeeded (emitted (Part001.updateDestinationInChunks service cfg
                        destinationSpreadsheetId destinationRange data h c))
  = Clear destinationSpreadsheetId destinationRange
    :: Update destinationSpreadsheetId destinationRange (slice data 0 (0 + CHUNK_SIZE cfg))
    :: map (Append destinationSpreadsheetId destinationRange)
           (chunkArrayLoop data (CHUNK_SIZE cfg) (List.length data - 1) (0 + CHUNK_SIZE cfg)).
Proof.
  intros Hlen. rewrite part001_chunked_unfold by exact Hlen.
  rewrite completion_after, emitted_after.
  match goal with
  | |- completion (bind (Part001.retryOperation ?op ?n) _ ?h' ?c') = _ -> _ =>
      destruct (@part001_retry_once _ op (Clear destinationSpreadsheetId destinationRange)
                  n h' c' (perform_calls_once _ _))
        as (r & evs & Hr & _ & Hsucc & _)
  end.
  destruct r as [[] | t]; [| erewrite bind_Throw by exact Hr; discriminate].
  erewrite bind_Return by exact Hr.
  rewrite completion_after, emitted_after.
  rewrite part001_chunkLoop_cons by lia.
  rewrite completion_after, emitted_after. cbn [Z.eqb].
  match goal with
  | |- completion (bind (try_catch (bind (Part001.retryOperation (perform _ ?req) ?n) _)
                                   (fun error => _ <- _ ;; logger_error ?msg ;; _)) _ ?h' ?c') = _
       -> _ =>
      destruct (part001_write_chunk req msg n h' c') as (r2 & evs2 & Hr2 & Hshape)
  end.
  destruct r2 as [[] | t]; [| erewrite bind_Throw by exact Hr2; discriminate].
  erewrite bind_Return by exact Hr2.
  rewrite completion_after, emitted_after. intros Hret.
  destruct Hshape as (evs0 & -> & _ & Hsucc2 & _).
  rewrite !succeeded_app, Hsucc, Hsucc2.
  rewrite part001_chunkLoop_succeeded by (lia || exact Hret). reflexivity.
Qed.

Lemma part001_chunked_ok h c :
  never_fails service -> 1 <= MAX_RETRIES cfg ->
  CHUNK_SIZE cfg < len data ->
  completion (Part001.updateDestinationInChunks service cfg destinationSpreadsheetId
                destinationRange data h c) = Return tt
  /\ requests (emitted (Part001.updateDestinationInChunks service cfg
                          destinationSpreadsheetId destinationRange data h c))
     = Clear destinationSpreadsheetId destinationRange
       :: Update destinationSpreadsheetId destinationRange (slice data 0 (0 + CHUNK_SIZE cfg))
       :: map (Append destinationSpreadsheetId destinationRange)
              (chunkArrayLoop data (CHUNK_SIZE cfg) (List.length data - 1)
                 (0 + CHUNK_SIZE cfg)).
Proof.
  intros Hok Hmax Hlen. rewrite part001_chunked_unfold by exact Hlen.
  rewrite completion_after, emitted_after.
  match goal with
  | |- completion (bind (Part001.retryOperation (perform _ ?req) ?n) _ ?h' ?c') = _ /\ _ =>
      destruct (@retry_perform_ok service req n h' c' Hok Hmax) as (values & _ & Hr)
  end.
  erewrite bind_Return by exact Hr.
  rewrite completion_after, emitted_after.
  rewrite part001_chunkLoop_cons by lia.
  rewrite completion_after, emitted_after. cbn [Z.eqb].
  match goal with
  | |- context [bind (try_catch (bind (Part001.retryOperation (perform _ ?req) ?n) _) _)
                     _ ?h' ?c'] =>
      destruct (@retry_perform_ok service req n h' c' Hok Hmax) as (values2 & _ & Hr2)
  end.
  erewrite bind_Return
    by (apply try_Return; erewrite bind_Return by exact Hr2; reflexivity).
  rewrite completion_after, emitted_after, !requests_app.
  match goal with
  | |- completion (chunkLoop ?f ?j ?h' ?c') = _ /\ _ =>
      destruct (@part001_chunkLoop_ok f Hok Hmax j h' c') as (Hc & Hq); [lia |]
  end.
  rewrite Hc, Hq. repeat split.
Qed.

Lemma part001_chunked_paced h c :
  CHUNK_SIZE cfg < len data ->
  paced 1000 (emitted (Part001.updateDestinationInChunks service cfg
                         destinationSpreadsheetId destinationRange data h c)) = true.
Proof.
  intros Hlen. rewrite part001_chunked_unfold by exact Hlen.
  rewrite emitted_after.
  match goal with
  | |- context [bind (Part001.retryOperation ?op ?n) _ ?h' ?c'] =>
      destruct (@part001_retry_once _ op (Clear destinationSpreadsheetId destinationRange)
                  n h' c' (perform_calls_once _ _))
        as (r & evs & Hr & _ & _ & fails & Hfails & Hshape)
  end.
  cbn [app paced is_written andb].
  destruct r as [[] | t].
  - erewrite bind_Return by exact Hr. rewrite emitted_after.
    destruct Hshape as (values & ->). rewrite <- !app_assoc.
    rewrite paced_app_unwritten by (apply unwritten_of_failed, Hfails).
    cbn [app paced is_written andb]. apply part001_chunkLoop_paced.
  - erewrite bind_Throw by exact Hr. cbn [emitted fst snd]. subst evs.
    apply paced_unwritten, unwritten_of_failed, Hfails.
Qed.

End Part001Chunks.

(** ** The loops run to their end

    With a positive step, [data.length] iterations are enough: more fuel
    does not change the run of a loop. *)

Lemma bind_ext {A B} (m : M A) (k1 k2 : A -> M B) h c :
  (forall v h' c', k1 v h' c' = k2 v h' c') -> bind m k1 h c = bind m k2 h c.
Proof.
  intros Hk. unfold bind. destruct (m h c) as [[[v | t] e1] c1]; [| reflexivity].
  rewrite Hk. reflexivity.
Qed.

Lemma index_chunkLoop_fuel (service : list Event -> Request -> Reply) (cfg : Config)
    (destinationSpreadsheetId destinationRange : Cell) (data : Rows) :
  0 < CHUNK_SIZE cfg ->
  forall fuel fuel' i h c,
    0 <= i -> (List.length data - Z.to_nat i <= fuel)%nat -> (fuel <= fuel')%nat ->
    IndexJs.chunkLoop service cfg destinationSpreadsheetId destinationRange data fuel' i h c
    = IndexJs.chunkLoop service cfg destinationSpreadsheetId destinationRange data fuel i h c.
Proof.
  intros Hs. induction fuel as [| fuel IH]; intros fuel' i h c Hi Hfuel Hle.
  - assert (E : (i <? len data) = false) by (apply Z.ltb_ge; unfold len; lia).
    destruct fuel'; cbn [IndexJs.chunkLoop]; rewrite ?E; reflexivity.
  - destruct fuel' as [| fuel']; [lia |]. cbn [IndexJs.chunkLoop].
    destruct (i <? len data); [| reflexivity].
    apply bind_ext. intros _ h1 c1. apply bind_ext. intros _ h2 c2.
    apply IH; lia.
Qed.

Lemma part001_chunkLoop_fuel (service : list Event -> Request -> Reply) (cfg : Config)
    (destinationSpreadsheetId destinationRange : Cell) (data : Rows) :
  0 < CHUNK_SIZE cfg ->
  forall fuel fuel' i h c,
    0 <= i -> (List.length data - Z.to_nat i <= fuel)%nat -> (fuel <= fuel')%nat ->
    Part001.chunkLoop service cfg destinationSpreadsheetId destinationRange data fuel' i h c
    = Part001.chunkLoop service cfg destinationSpreadsheetId destinationRange data fuel i h c.
Proof.
  intros Hs. induction fuel as [| fuel IH]; intros fuel' i h c Hi Hfuel Hle.
  - assert (E : (i <? len data) = false) by (apply Z.ltb_ge; unfold len; lia).
    destruct fuel'; cbn [Part001.chunkLoop]; rewrite ?E; reflexivity.
  - destruct fuel' as [| fuel']; [lia |]. cbn [Part001.chunkLoop].
    destruct (i <? len data); [| reflexivity].
    apply bind_ext. intros _ h1 c1. apply bind_ext. intros _ h2 c2.
    apply IH; lia.
Qed.

Lemma index_batchLoop_fuel (service : list Event -> Request -> Reply)
    (nowStr : list Event -> string) (cfg : Config) (rows : Rows) :
  0 < BATCH_SIZE cfg ->
  forall fuel fuel' i finalData h c,
    0 <= i -> (List.length rows - Z.to_nat i <= fuel)%nat -> (fuel <= fuel')%nat ->
    IndexJs.batchLoop service nowStr cfg rows fuel' i finalData h c
    = IndexJs.batchLoop service nowStr cfg rows fuel i finalData h c.
Proof.
  intros Hs. induction fuel as [| fuel IH]; intros fuel' i finalData h c Hi Hfuel Hle.
  - assert (E : (i <? len rows) = false) by (apply Z.ltb_ge; unfold len; lia).
    destruct fuel'; cbn [IndexJs.batchLoop]; rewrite ?E; reflexivity.
  - destruct fuel' as [| fuel']; [lia |]. cbn [IndexJs.batchLoop].
    destruct (i <? len rows); [| reflexivity].
    apply bind_ext. intros data h1 c1. apply IH; lia.
Qed.

Lemma chunkArrayLoop_fuel {A} (array : list A) (size : Z) :
  0 < size ->
  forall fuel fuel' i,
    0 <= i -> (List.length array - Z.to_nat i <= fuel)%nat -> (fuel <= fuel')%nat ->
    chunkArrayLoop array size fuel' i = chunkArrayLoop array size fuel i.
Proof.
  intros Hs. induction fuel as [| fuel IH]; intros fuel' i Hi Hfuel Hle.
  - assert (E : (i <? len array) = false) by (apply Z.ltb_ge; unfold len; lia).
    destruct fuel'; cbn [chunkArrayLoop]; rewrite ?E; reflexivity.
  - destruct fuel' as [| fuel']; [lia |]. cbn [chunkArrayLoop].
    destruct (i <? len array); [| reflexivity].
    f_equal. apply IH; lia.
Qed.

(** C6 on src/index.js.  With 5001 rows and a service that rejects nothing,
    the chunked write path of index.js returns after one update of 5000 rows
    and one append of 1 row, and emits no explicit sleep at all: the update
    that resolved is not followed by a pacing delay. *)
Theorem index_chunks_not_paced :
  completion (IndexJs.updateDestinationInChunks ok_service IndexJs.CONFIG
                dest_id dest_range (sample_rows 5001) [] c0) = Return tt
  /\ succeeded (emitted (IndexJs.updateDestinationInChunks ok_service IndexJs.CONFIG
                           dest_id dest_range (sample_rows 5001) [] c0))
     = [Clear dest_id dest_range;
        Update dest_id dest_range (sample_rows 5000);
        Append dest_id dest_range (sample_rows 1)]
  /\ sleeps (emitted (IndexJs.updateDestinationInChunks ok_service IndexJs.CONFIG
                        dest_id dest_range (sample_rows 5001) [] c0)) = []
  /\ paced 1000 (emitted (IndexJs.updateDestinationInChunks ok_service IndexJs.CONFIG
                            dest_id dest_range (sample_rows 5001) [] c0)) = false.
Proof. repeat split; vm_compute; reflexivity. Qed.


(** The scenario of the specification: 7000 rows with a chunk size of 3000
    are written as an update of 3000 rows and appends of 3000 and 1000
    rows. *)
Example part001_seven_thousand_rows :
  requests (emitted (Part001.updateDestinationInChunks ok_service Part001.CONFIG
                       dest_id dest_range (sample_rows 7000) [] c0))
  = [Clear dest_id dest_range;
     Update dest_id dest_range (sample_rows 3000);
     Append dest_id dest_range (sample_rows 3000);
     Append dest_id dest_range (sample_rows 1000)]
  /\ sleeps (emitted (Part001.updateDestinationInChunks ok_service Part001.CONFIG
                        dest_id dest_range (sample_rows 7000) [] c0))
     = [1000; 1000; 1000].
Proof. split; vm_compute; reflexivity. Qed.

(** ** BatchFetcher, src/index.js *)

Lemma allSettled_cons {A} (p : M A) (rest : list (M A)) h c r e c1 rs e2 c2 :
  p h c = (r, e, c1) ->
  allSettled rest (h ++ e) c1 = (Return rs, e2, c2) ->
  allSettled (p :: rest) h c = (Return (r :: rs), e ++ e2, c2).
Proof.
  intros Hp Hrest. cbn [allSettled].
  erewrite bind_Return by (rewrite Hp; reflexivity).
  erewrite bind_Return by exact Hrest.
  cbn [after ret]. rewrite app_nil_r. reflexivity.
Qed.

(** [Promise.allSettled] never rejects. *)
Lemma allSettled_total {A} (promises : list (M A)) :
  forall h c, exists rs evs c', allSettled promises h c = (Return rs, evs, c').
Proof.
  induction promises as [| p rest IH]; intros h c.
  - exists [], [], c. reflexivity.
  - destruct (p h c) as [[r e] c1] eqn:Hp.
    destruct (IH (h ++ e) c1) as (rs & e2 & c2 & Hrest).
    eexists _, _, _. eapply allSettled_cons; eassumption.
Qed.

Lemma allSettled_app {A} (ps qs : list (M A)) :
  forall h c rs1 e1 c1 rs2 e2 c2,
    allSettled ps h c = (Return rs1, e1, c1) ->
    allSettled qs (h ++ e1) c1 = (Return rs2, e2, c2) ->
    allSettled (ps ++ qs) h c = (Return (rs1 ++ rs2), e1 ++ e2, c2).
Proof.
  induction ps as [| p ps IH]; intros h c rs1 e1 c1 rs2 e2 c2 Hps Hqs.
  - cbn in Hps. inversion Hps; subst. rewrite app_nil_r in Hqs. exact Hqs.
  - destruct (p h c) as [[r e] c'] eqn:Hp.
    destruct (allSettled_total ps (h ++ e) c') as (rs & ev & c'' & Hrest).
    erewrite allSettled_cons in Hps; [| exact Hp | exact Hrest]. inversion Hps; subst.
    rewrite app_assoc in Hqs.
    cbn [app]. rewrite <- app_assoc.
    eapply allSettled_cons; [exact Hp |].
    eapply IH; eassumption.
Qed.

Lemma fulfilled_rows_app (a b : list (Completion Rows)) :
  fulfilled_rows (a ++ b) = fulfilled_rows a ++ fulfilled_rows b.
Proof. unfold fulfilled_rows. rewrite map_app, concat_app. reflexivity. Qed.

Lemma index_collectResults (results : list (Completion Rows)) :
  forall index batchResults h c,
  exists evs,
    IndexJs.collectResults results index batchResults h c
    = (Return (batchResults ++ fulfilled_rows results), evs, c)
    /\ requests evs = [].
Proof.
  induction results as [| [value | t] rest IH]; intros index acc h c.
  - exists []. cbn. rewrite app_nil_r. auto.
  - destruct (IH (index + 1) (acc ++ value) h c) as (evs & Hr & Hq).
    exists evs. cbn [IndexJs.collectResults]. rewrite Hr.
    unfold fulfilled_rows. cbn [map List.concat]. rewrite app_assoc. auto.
  - cbn [IndexJs.collectResults]. unfold logger_error. rewrite bind_emit.
    match goal with
    | |- context [IndexJs.collectResults rest ?i acc ?h' c] =>
        destruct (IH i acc h' c) as (evs & Hr & Hq); rewrite Hr
    end.
    eexists. split; [reflexivity |]. exact Hq.
Qed.

Section IndexBatch.

Variable service : list Event -> Request -> Reply.
Variable nowStr : list Event -> string.
Variable cfg : Config.

Let processJob := IndexJs.processJob service nowStr cfg.
Let processSheetData := IndexJs.processSheetData service cfg.
Let processBatch := IndexJs.processBatch service nowStr cfg.
Let logToSheet := IndexJs.logToSheet service nowStr cfg.

Lemma index_processBatch_run (batch : Rows) (batchIndex : Z) h c rs evs c' :
  allSettled (map processJob batch) (h ++ [batch_banner batch batchIndex]) c
  = (Return rs, evs, c') ->
  exists e_end,
    processBatch batch batchIndex h c
    = (Return (fulfilled_rows rs), batch_banner batch batchIndex :: evs ++ e_end, c')
    /\ requests e_end = [].
Proof.
  intros Hall. unfold processBatch, IndexJs.processBatch, logger_info.
  rewrite bind_emit. fold (batch_banner batch batchIndex).
  erewrite bind_Return by exact Hall.
  match goal with
  | |- context [IndexJs.collectResults rs 0 [] ?h' c'] =>
      destruct (index_collectResults rs 0 [] h' c') as (e_end & Hr & Hq); rewrite Hr
  end.
  exists e_end. split; [reflexivity | exact Hq].
Qed.

(** [processBatch] always returns, whatever happens to its jobs. *)
Lemma index_processBatch_returns (batch : Rows) (batchIndex : Z) h c :
  exists rows evs c', processBatch batch batchIndex h c = (Return rows, evs, c').
Proof.
  destruct (allSettled_total (map processJob batch)
              (h ++ [batch_banner batch batchIndex]) c) as (rs & evs & c' & Hall).
  destruct (@index_processBatch_run batch batchIndex h c rs evs c' Hall) as (e_end & Hr & _).
  eexists _, _, _. exact Hr.
Qed.

(** One step of the batch loop returns [finalData] extended with the rows
    of its batch, and touches no counter after the batch. *)
Lemma index_batchStep_run (rows : Rows) (i : Z) (finalData : Rows) h c :
  exists batchResults evs c',
    processBatch (slice rows i (i + BATCH_SIZE cfg)) (i / BATCH_SIZE cfg) h c
    = (Return batchResults, evs, c')
    /\ exists e_end,
         IndexJs.batchStep service nowStr cfg rows i finalData h c
         = (Return (finalData ++ batchResults), evs ++ e_end, c')
         /\ requests e_end = [].
Proof.
  destruct (index_processBatch_returns (slice rows i (i + BATCH_SIZE cfg))
              (i / BATCH_SIZE cfg) h c) as (rs & e1 & c1 & Hb).
  exists rs, e1, c1. split; [exact Hb |].
  unfold IndexJs.batchStep. unfold processBatch in Hb.
  erewrite bind_Return by exact Hb.
  erewrite bind_Return by reflexivity.
  match goal with
  | |- context [bind (if ?b then _ else _)] => destruct b
  end.
  - unfold logger_info. rewrite bind_emit. eexists. split; [reflexivity | reflexivity].
  - erewrite bind_Return by reflexivity. eexists. split; [reflexivity | reflexivity].
Qed.

(** The batch loop of [run] always returns: no failed job ends the run. *)
Lemma index_batchLoop_returns (rows : Rows) (fuel : nat) :
  forall i finalData h c,
  exists data evs c',
    IndexJs.batchLoop service nowStr cfg rows fuel i finalData h c = (Return data, evs, c').
Proof.
  induction fuel as [| fuel IH]; intros i finalData h c.
  - eexists _, _, _. reflexivity.
  - cbn [IndexJs.batchLoop]. destruct (i <? len rows); [| eexists _, _, _; reflexivity].
    destruct (index_batchStep_run rows i finalData h c)
      as (batchResults & evs & c1 & Hb & e_end & Hstep & _).
    erewrite bind_Return by exact Hstep.
    match goal with
    | |- context [IndexJs.batchLoop service nowStr cfg rows fuel ?j ?d ?h' ?c''] =>
        destruct (IH j d h' c'') as (data & e2 & c2 & Hl); rewrite Hl
    end.
    eexists _, _, _. reflexivity.
Qed.

(** The best-effort log write: it never rejects, and it sends (at least
    once, and nothing else than) the append of [[nowStr, message]] to the
    S_LOG range of the given spreadsheet. *)
Lemma index_logToSheet_returns (spreadsheetId : Cell) (msg : string) h c :
  1 <= MAX_RETRIES cfg ->
  exists evs,
    logToSheet spreadsheetId msg h c = (Return tt, evs, c)
    /\ Forall (eq (Append spreadsheetId IndexJs.S_LOG [[CStr (nowStr h); CStr msg]]))
              (requests evs)
    /\ In (Append spreadsheetId IndexJs.S_LOG [[CStr (nowStr h); CStr msg]]) (requests evs).
Proof.
  intros Hmax. unfold logToSheet, IndexJs.logToSheet.
  match goal with
  | |- context [IndexJs.retryOperation ?op ?n] =>
      destruct (@index_retryOperation_Retry _ op n h c Hmax) as (r & evs & Hr & HR);
      pose proof (Retry_retried (perform_calls_once _ _) HR) as (Hreq & _);
      pose proof (Retry_sent (perform_calls_once _ _) HR) as Hin
  end.
  destruct r as [[] | t].
  - exists evs. erewrite try_Return by exact Hr. auto.
  - destruct (Retry_throws_error (calls_once_rejects (perform_calls_once _ _)) HR)
      as (err & ->).
    erewrite try_Throw by exact Hr.
    eexists. split; [reflexivity |].
    rewrite requests_app. cbn [requests flat_map]. rewrite app_nil_r. auto.
Qed.

(** A job whose fetch returned contributes the fetched rows, tagged. *)
Lemma index_processJob_fetched (row : Row) h c rData e_f c_f :
  processSheetData (at_index row 0) (at_index row 1) h c = (Return rData, e_f, c_f) ->
  exists e c',
    processJob row h c = (Return (tagged row rData), e_f ++ e, c')
    /\ requests e = [] /\ errorCount c' = errorCount c_f.
Proof.
  intros Hf. unfold processJob, IndexJs.processJob.
  fold (processSheetData (at_index row 0) (at_index row 1)).
  destruct (len rData =? 0) eqn:E.
  - assert (rData = []) as ->.
    { apply Z.eqb_eq in E. destruct rData; [reflexivity | unfold len in E; simpl in E; lia]. }
    eexists _, _. split; [| split].
    + apply try_Return. erewrite bind_Return by exact Hf. cbn [len List.length Z.of_nat Z.eqb].
      unfold logger_info. rewrite bind_emit. reflexivity.
    + reflexivity.
    + reflexivity.
  - eexists _, _. split; [| split].
    + apply try_Return. erewrite bind_Return by exact Hf. rewrite E.
      erewrite bind_Return by reflexivity.
      unfold logger_info. rewrite bind_emit. reflexivity.
    + reflexivity.
    + reflexivity.
Qed.

(** A job whose fetch exhausted its attempts: the error is counted once, it
    is appended to the S_LOG range of the job's destination, and the job
    fulfils with no rows. *)
Lemma index_processJob_failed (row : Row) h c :
  1 <= MAX_RETRIES cfg ->
  (forall rData,
     completion (processSheetData (at_index row 0) (at_index row 1) h c) <> Return rData) ->
  exists err e_f e_log stamp,
    processSheetData (at_index row 0) (at_index row 1) h c = (Throw (TError err), e_f, c)
    /\ processJob row h c
       = (Return [], e_f ++ e_log, mkCounters (processedCount c) (errorCount c + 1))
    /\ Forall (eq (Get (at_index row 0) (at_index row 1))) (requests e_f)
    /\ Forall (eq (Append (at_index row 2) IndexJs.S_LOG [[CStr stamp; CStr (message err)]]))
              (requests e_log)
    /\ In (Append (at_index row 2) IndexJs.S_LOG [[CStr stamp; CStr (message err)]])
          (requests e_log).
Proof.
  intros Hmax Hfail.
  unfold processSheetData, IndexJs.processSheetData in *.
  match type of Hfail with
  | context [IndexJs.retryOperation ?op ?n] =>
      destruct (@index_retryOperation_Retry _ op n h c Hmax) as (r & e_f & Hr & HR);
      pose proof (Retry_retried (fetch_values_calls_once _ _ _) HR) as (Hreq & _)
  end.
  rewrite Hr in Hfail. cbn [completion fst] in Hfail.
  destruct r as [rData | t]; [exfalso; apply (Hfail rData); reflexivity |].
  destruct (Retry_throws_error (calls_once_rejects (fetch_values_calls_once _ _ _)) HR)
    as (err & ->).
  destruct (@index_logToSheet_returns (at_index row 2) (message err)
              ((h ++ e_f) ++ [ELog ERROR ("Error processing sheet "
                                          ++ toString (at_index row 0))%string])
              (mkCounters (processedCount c) (errorCount c + 1)) Hmax)
    as (e_log & Hlog & Hlogreq & Hlogin).
  exists err, e_f,
    (ELog ERROR ("Error processing sheet " ++ toString (at_index row 0))%string :: e_log),
    (nowStr ((h ++ e_f) ++ [ELog ERROR ("Error processing sheet "
                                        ++ toString (at_index row 0))%string])).
  split; [exact Hr |]. split; [| split; [exact Hreq | split]].
  - unfold processJob, IndexJs.processJob.
    erewrite try_Throw
      by (unfold IndexJs.processSheetData; erewrite bind_Throw by exact Hr; reflexivity).
    erewrite bind_Return by reflexivity.
    erewrite bind_Return by reflexivity.
    unfold logger_error at 1. rewrite bind_emit.
    rewrite !app_nil_r.
    unfold logToSheet in Hlog. erewrite bind_Return by exact Hlog.
    cbn [after ret app]. rewrite app_nil_r. reflexivity.
  - cbn [requests flat_map app]. exact Hlogreq.
  - cbn [requests flat_map app]. exact Hlogin.
Qed.

End IndexBatch.

Lemma fulfilled_rows_Return (l : list Rows) :
  fulfilled_rows (map Return l) = List.concat l.
Proof. unfold fulfilled_rows. rewrite map_map, map_id. reflexivity. Qed.

(** When the fetch of every job returned, the jobs fulfil with their fetched
    rows tagged, and no error is counted. *)
Lemma index_allSettled_fetched (service : list Event -> Request -> Reply)
    (nowStr : list Event -> string) (cfg : Config) (jobs : Rows) :
  forall fetched h c,
    job_fetches service nowStr cfg jobs h c = map Return fetched ->
    exists evs c',
      allSettled (map (IndexJs.processJob service nowStr cfg) jobs) h c
      = (Return (map Return (map (fun p => tagged (fst p) (snd p)) (combine jobs fetched))),
         evs, c')
      /\ errorCount c' = errorCount c.
Proof.
  induction jobs as [| row rest IH]; intros fetched h c Hf.
  - exists [], c. split; reflexivity.
  - destruct fetched as [| rData fetched]; [discriminate Hf |].
    cbn [job_fetches map] in Hf. inversion Hf as [[Hrow Hrest]]. clear Hf.
    destruct (IndexJs.processSheetData service cfg (at_index row 0) (at_index row 1) h c)
      as [[r e_f] c_f] eqn:Hfetch.
    cbn [completion fst] in Hrow. subst r.
    assert (c_f = c) as ->.
    { unfold IndexJs.processSheetData in Hfetch.
      destruct (@index_retry_once _ (fetch_values service (at_index row 0) (at_index row 1))
                  _ (MAX_RETRIES cfg) h c (fetch_values_calls_once _ _ _))
        as (r & evs & Hr & _).
      rewrite Hr in Hfetch. inversion Hfetch. reflexivity. }
    destruct (@index_processJob_fetched service nowStr cfg row h c rData e_f c Hfetch)
      as (e & c1 & Hjob & _ & Hcount).
    rewrite Hjob in Hrest. cbn [emitted counters fst snd] in Hrest.
    destruct (IH fetched _ _ Hrest) as (evs & c' & Hall & Hcount').
    eexists _, c'. split.
    + cbn [map combine fst snd]. eapply allSettled_cons; [exact Hjob | exact Hall].
    + lia.
Qed.

Lemma tagged_last (row : Row) (rData : Rows) (r : Row) :
  In r (tagged row rData) -> last r CUndefined = CStr (IndexJs.sourceUrl row).
Proof.
  unfold tagged. rewrite in_map_iff. intros (dataRow & <- & _). apply last_last.
Qed.

Lemma len_tagged (row : Row) (rData : Rows) : len (tagged row rData) = len rData.
Proof. unfold tagged, len. rewrite length_map. reflexivity. Qed.

(** When no job of a batch fails, the batch result is the concatenation, in
    job order, of each job's fetched rows tagged with that job's URL, and no
    error is counted. *)
Lemma index_processBatch_provenance (service : list Event -> Request -> Reply)
    (nowStr : list Event -> string) (cfg : Config)
    (batch : Rows) (batchIndex : Z) (fetched : list Rows) h c :
  job_fetches service nowStr cfg batch (h ++ [batch_banner batch batchIndex]) c
  = map Return fetched ->
  exists evs c',
    IndexJs.processBatch service nowStr cfg batch batchIndex h c
    = (Return (List.concat (map (fun p => tagged (fst p) (snd p)) (combine batch fetched))),
       evs, c')
    /\ errorCount c' = errorCount c.
Proof.
  intros Hf.
  destruct (index_allSettled_fetched _ _ _ _ _ _ _ Hf) as (evs & c' & Hall & Hcount).
  destruct (@index_processBatch_run service nowStr cfg batch batchIndex h c _ _ _ Hall)
    as (e_end & Hrun & _).
  rewrite fulfilled_rows_Return in Hrun. eexists _, _. split; [exact Hrun | exact Hcount].
Qed.

Lemma length_job_fetches (service : list Event -> Request -> Reply)
    (nowStr : list Event -> string) (cfg : Config) (jobs : Rows) :
  forall h c, List.length (job_fetches service nowStr cfg jobs h c) = List.length jobs.
Proof.
  induction jobs as [| row rest IH]; intros h c; [reflexivity |].
  cbn [job_fetches List.length]. rewrite IH. reflexivity.
Qed.

Lemma combine_app_eq {A B} (a1 a2 : list A) (b1 b2 : list B) :
  List.length a1 = List.length b1 ->
  combine (a1 ++ a2) (b1 ++ b2) = combine a1 b1 ++ combine a2 b2.
Proof.
  revert b1. induction a1 as [| x a1 IH]; intros [| y b1] Hlen;
    try discriminate Hlen; [reflexivity |].
  cbn [app combine]. rewrite IH by (simpl in Hlen; lia). reflexivity.
Qed.

(** The same along the batch loop of [run]: when no job of the list fails,
    the loop returns the rows it started with followed by the tagged rows of
    all the jobs it visits, in order. *)
Lemma index_batchLoop_fetched (service : list Event -> Request -> Reply)
    (nowStr : list Event -> string) (cfg : Config) (rows : Rows) (fuel : nat) :
  forall i finalData fetched h c,
    loop_fetches service nowStr cfg rows fuel i finalData h c = map Return fetched ->
    exists evs c',
      IndexJs.batchLoop service nowStr cfg rows fuel i finalData h c
      = (Return (finalData
                 ++ List.concat
                      (map (fun p => tagged (fst p) (snd p))
                           (combine (List.concat
                                       (chunkArrayLoop rows (BATCH_SIZE cfg) fuel i))
                                    fetched))),
         evs, c')
      /\ errorCount c' = errorCount c.
Proof.
  induction fuel as [| fuel IH]; intros i finalData fetched h c Hf.
  - eexists _, _. split; [| reflexivity]. cbn. rewrite app_nil_r. reflexivity.
  - cbn [loop_fetches IndexJs.batchLoop chunkArrayLoop] in *.
    destruct (i <? len rows).
    2:{ eexists _, _. split; [| reflexivity]. cbn. rewrite app_nil_r. reflexivity. }
    symmetry in Hf. apply map_eq_app in Hf. destruct Hf as (f1 & f2 & -> & Hf1 & Hf2).
    set (batch := slice rows i (i + BATCH_SIZE cfg)) in *.
    assert (Hlen : List.length batch = List.length f1).
    { rewrite <- (length_job_fetches service nowStr cfg batch
                    (h ++ [batch_banner batch (i / BATCH_SIZE cfg)]) c).
      rewrite <- Hf1. apply length_map. }
    symmetry in Hf1.
    destruct (@index_processBatch_provenance service nowStr cfg batch
                (i / BATCH_SIZE cfg) f1 h c Hf1) as (evs & c1 & Hbatch & Hcount).
    destruct (index_batchStep_run service nowStr cfg rows i finalData h c)
      as (batchResults & evs' & c1' & Hb & e_end & Hstep & _).
    fold batch in Hb. rewrite Hbatch in Hb. inversion Hb; subst batchResults evs' c1'.
    rewrite Hstep in Hf2. cbn [completion emitted counters fst snd] in Hf2.
    symmetry in Hf2. destruct (IH _ _ _ _ _ Hf2) as (evs2 & c2 & Hloop & Hcount2).
    erewrite bind_Return by exact Hstep. rewrite Hloop.
    eexists _, c2. split; [| lia].
    cbn [after List.concat]. rewrite combine_app_eq by exact Hlen.
    rewrite map_app, concat_app, !app_assoc. reflexivity.
Qed.

(** C5. When no job of the list fails, the aggregate dataset collected by
    the batch loop of [run] is the concatenation, in job order, of each
    job's fetched rows with that job's source URL appended: every row a job
    contributes ends with that job's URL, a job contributes as many rows as
    its fetch returned, and no error is counted. *)
Theorem rows_carry_provenance (service : list Event -> Request -> Reply)
    (nowStr : list Event -> string) (cfg : Config)
    (rows : Rows) (fetched : list Rows) h c :
  0 < BATCH_SIZE cfg ->
  loop_fetches service nowStr cfg rows (List.length rows) 0 [] h c = map Return fetched ->
  completion (IndexJs.batchLoop service nowStr cfg rows (List.length rows) 0 [] h c)
  = Return (List.concat (map (fun p => tagged (fst p) (snd p)) (combine rows fetched)))
  /\ (forall row rData,
        In (row, rData) (combine rows fetched) ->
        len (tagged row rData) = len rData
        /\ forall r, In r (tagged row rData) ->
             last r CUndefined
             = CStr ("https://docs.google.com/spreadsheets/d/" ++ toString (at_index row 0)))
  /\ errorCount (counters (IndexJs.batchLoop service nowStr cfg rows (List.length rows)
                             0 [] h c))
     = errorCount c.
Proof.
  intros Hsize Hf.
  destruct (index_batchLoop_fetched _ _ _ _ _ _ _ _ _ _ Hf) as (evs & c' & Hloop & Hcount).
  rewrite Hloop. cbn [completion counters fst snd app].
  rewrite chunkArrayLoop_concat by lia. cbn [Z.to_nat skipn].
  repeat split.
  - apply len_tagged.
  - intros r Hr. apply (tagged_last _ _ _ Hr).
  - exact Hcount.
Qed.

Lemma rows_carry_provenance_witness :
  completion (IndexJs.batchLoop flaky_service noon IndexJs.CONFIG [job_b; job_b] 2 0 []
                [] c0)
  = Return (List.concat (map (fun p => tagged (fst p) (snd p))
              (combine [job_b; job_b]
                 [[[CStr "1"; CStr ""]; [CStr "2"]]; [[CStr "1"; CStr ""]; [CStr "2"]]])))
  /\ (forall row rData,
        In (row, rData)
           (combine [job_b; job_b]
              [[[CStr "1"; CStr ""]; [CStr "2"]]; [[CStr "1"; CStr ""]; [CStr "2"]]]) ->
        len (tagged row rData) = len rData
        /\ forall r, In r (tagged row rData) ->
             last r CUndefined
             = CStr ("https://docs.google.com/spreadsheets/d/" ++ toString (at_index row 0)))
  /\ errorCount (counters (IndexJs.batchLoop flaky_service noon IndexJs.CONFIG
                             [job_b; job_b] 2 0 [] [] c0))
     = errorCount c0.
Proof.
  apply (@rows_carry_provenance flaky_service noon IndexJs.CONFIG [job_b; job_b]
           [[[CStr "1"; CStr ""]; [CStr "2"]]; [[CStr "1"; CStr ""]; [CStr "2"]]] [] c0).
  - reflexivity.
  - vm_compute. reflexivity.
Defined.


(** ** Orchestrator *)

Lemma emits_only_ret {A} (P : Request -> Prop) (v : A) : emits_only P (ret v).
Proof. intros h c. constructor. Qed.

Lemma emits_only_throw {A} (P : Request -> Prop) (t : Thrown) : emits_only P (@throw A t).
Proof. intros h c. constructor. Qed.

Lemma emits_only_logger_info (P : Request -> Prop) (msg : string) :
  emits_only P (logger_info msg).
Proof. intros h c. constructor. Qed.

Lemma emits_only_logger_warn (P : Request -> Prop) (msg : string) :
  emits_only P (logger_warn msg).
Proof. intros h c. constructor. Qed.

Lemma emits_only_logger_error (P : Request -> Prop) (msg : string) :
  emits_only P (logger_error msg).
Proof. intros h c. constructor. Qed.

Lemma emits_only_message_of (P : Request -> Prop) (t : Thrown) :
  emits_only P (message_of t).
Proof. intros h c. destruct t; constructor. Qed.

Lemma requests_bind {A B} (P : Request -> Prop) (m : M A) (k : A -> M B) h c :
  Forall P (requests (emitted (m h c))) ->
  (forall v, emits_only P (k v)) ->
  Forall P (requests (emitted (bind m k h c))).
Proof.
  intros Hm Hk. unfold bind. destruct (m h c) as [[[v | t] e1] c1]; [| exact Hm].
  specialize (Hk v (h ++ e1) c1). destruct (k v (h ++ e1) c1) as [[r e2] c2].
  cbn [emitted fst snd] in *. rewrite requests_app. apply Forall_app. auto.
Qed.

Lemma emits_only_bind {A B} (P : Request -> Prop) (m : M A) (k : A -> M B) :
  emits_only P m -> (forall v, emits_only P (k v)) -> emits_only P (bind m k).
Proof. intros Hm Hk h c. apply requests_bind; [apply Hm | exact Hk]. Qed.

Lemma requests_try_catch {A} (P : Request -> Prop) (m : M A) (handler : Thrown -> M A) h c :
  Forall P (requests (emitted (m h c))) ->
  (forall t, emits_only P (handler t)) ->
  Forall P (requests (emitted (try_catch m handler h c))).
Proof.
  intros Hm Hk. unfold try_catch. destruct (m h c) as [[[v | t] e1] c1]; [exact Hm |].
  specialize (Hk t (h ++ e1) c1). destruct (handler t (h ++ e1) c1) as [[r e2] c2].
  cbn [emitted fst snd] in *. rewrite requests_app. apply Forall_app. auto.
Qed.

Lemma emits_only_try_catch {A} (P : Request -> Prop) (m : M A) (handler : Thrown -> M A) :
  emits_only P m -> (forall t, emits_only P (handler t)) -> emits_only P (try_catch m handler).
Proof. intros Hm Hk h c. apply requests_try_catch; [apply Hm | exact Hk]. Qed.

Lemma emits_only_index_retry {A} (P : Request -> Prop) (operation : Operation A) req n :
  calls_once req operation -> P req -> emits_only P (IndexJs.retryOperation operation n).
Proof.
  intros Hone HP h c.
  destruct (@index_retry_once _ operation req n h c Hone) as (r & evs & Hr & Hreq & _).
  rewrite Hr. cbn [emitted fst snd].
  eapply Forall_impl; [| exact Hreq]. intros x <-. exact HP.
Qed.

Lemma emits_only_allSettled {A} (P : Request -> Prop) (promises : list (M A)) :
  Forall (emits_only P) promises -> emits_only P (allSettled promises).
Proof.
  induction 1 as [| p rest Hp Hrest IH]; [apply emits_only_ret |].
  cbn [allSettled]. apply emits_only_bind.
  - intros h c. specialize (Hp h c). destruct (p h c) as [[r e] c']. exact Hp.
  - intros r. apply emits_only_bind; [exact IH | intros rs; apply emits_only_ret].
Qed.

Section IndexRun.

Variable service : list Event -> Request -> Reply.
Variable nowStr : list Event -> string.
Variable cfg : Config.
Variables dest range : Cell.

Lemma emits_only_index_logToSheet (spreadsheetId : Cell) (msg : string) :
  emits_only (targets dest range) (IndexJs.logToSheet service nowStr cfg spreadsheetId msg).
Proof.
  intros h c. unfold IndexJs.logToSheet. apply requests_try_catch.
  - eapply emits_only_index_retry; [apply perform_calls_once |]. left. reflexivity.
  - intros t. apply emits_only_bind; [apply emits_only_message_of |].
    intros _. apply emits_only_logger_error.
Qed.

Lemma emits_only_index_processJob (row : Row) :
  emits_only (targets dest range) (IndexJs.processJob service nowStr cfg row).
Proof.
  unfold IndexJs.processJob. apply emits_only_try_catch.
  - apply emits_only_bind.
    + eapply emits_only_index_retry; [apply fetch_values_calls_once |]. exact I.
    + intros rData. destruct (len rData =? 0).
      * apply emits_only_bind; [apply emits_only_logger_info | intros; apply emits_only_ret].
      * apply emits_only_bind; [intros h c; constructor |].
        intros _. apply emits_only_bind; [apply emits_only_logger_info |].
        intros; apply emits_only_ret.
  - intros t. apply emits_only_bind; [intros h c; constructor |].
    intros _. apply emits_only_bind; [apply emits_only_message_of |].
    intros msg. apply emits_only_bind; [apply emits_only_logger_error |].
    intros _. apply emits_only_bind; [apply emits_only_index_logToSheet |].
    intros; apply emits_only_ret.
Qed.

Lemma emits_only_index_processBatch (batch : Rows) (batchIndex : Z) :
  emits_only (targets dest range) (IndexJs.processBatch service nowStr cfg batch batchIndex).
Proof.
  unfold IndexJs.processBatch. apply emits_only_bind; [apply emits_only_logger_info |].
  intros _. apply emits_only_bind.
  - apply emits_only_allSettled. apply Forall_forall. intros p Hp.
    apply in_map_iff in Hp. destruct Hp as (row & <- & _).
    apply emits_only_index_processJob.
  - intros results h c.
    destruct (index_collectResults results 0 [] h c) as (evs & Hr & Hq).
    rewrite Hr. cbn [emitted fst snd]. rewrite Hq. constructor.
Qed.

Lemma emits_only_index_batchLoop (rows : Rows) (fuel : nat) :
  forall i finalData,
    emits_only (targets dest range)
               (IndexJs.batchLoop service nowStr cfg rows fuel i finalData).
Proof.
  induction fuel as [| fuel IH]; intros i finalData; [apply emits_only_ret |].
  cbn [IndexJs.batchLoop]. destruct (i <? len rows); [| apply emits_only_ret].
  apply emits_only_bind; [| intros data; apply IH].
  unfold IndexJs.batchStep.
  apply emits_only_bind; [apply emits_only_index_processBatch |].
  intros batchResults. apply emits_only_bind; [intros h c; constructor |].
  intros _. apply emits_only_bind; [| intros _; apply emits_only_ret].
  match goal with |- context [if ?b then _ else _] => destruct b end;
    [apply emits_only_logger_info | apply emits_only_ret].
Qed.

Lemma emits_only_index_updateDestination (data : Rows) :
  emits_only (targets dest range) (IndexJs.updateDestination service cfg dest range data).
Proof.
  unfold IndexJs.updateDestination. apply emits_only_bind.
  - eapply emits_only_index_retry; [apply perform_calls_once |]. split; reflexivity.
  - intros _. eapply emits_only_index_retry; [apply perform_calls_once |]. split; reflexivity.
Qed.

Lemma emits_only_index_chunkLoop (data : Rows) (fuel : nat) :
  forall i,
    emits_only (targets dest range) (IndexJs.chunkLoop service cfg dest range data fuel i).
Proof.
  induction fuel as [| fuel IH]; intros i; [apply emits_only_ret |].
  cbn [IndexJs.chunkLoop]. destruct (i <? len data); [| apply emits_only_ret].
  apply emits_only_bind; [apply emits_only_logger_info |].
  intros _. apply emits_only_bind; [| intros _; apply IH].
  destruct (i =? 0).
  - eapply emits_only_index_retry; [apply perform_calls_once |]. split; reflexivity.
  - eapply emits_only_index_retry; [apply perform_calls_once |]. right. split; reflexivity.
Qed.

Lemma emits_only_index_updateDestinationInChunks (data : Rows) :
  emits_only (targets dest range)
             (IndexJs.updateDestinationInChunks service cfg dest range data).
Proof.
  unfold IndexJs.updateDestinationInChunks.
  destruct (len data <=? CHUNK_SIZE cfg); [apply emits_only_index_updateDestination |].
  apply emits_only_bind; [apply emits_only_logger_info |].
  intros _. apply emits_only_bind.
  - eapply emits_only_index_retry; [apply perform_calls_once |]. split; reflexivity.
  - intros _. apply emits_only_index_chunkLoop.
Qed.

Lemma emits_only_index_getConfigurationData :
  emits_only (targets dest range) (IndexJs.getConfigurationData service cfg).
Proof.
  unfold IndexJs.getConfigurationData.
  apply emits_only_bind; [apply emits_only_logger_info |].
  intros _. eapply emits_only_index_retry; [apply fetch_values_calls_once |]. exact I.
Qed.

End IndexRun.

(** X18. The destination of a run of src/index.js.  Once the configuration read has returned a
    non-empty list of rows, every clear and every update of the run, and
    every append outside the S_LOG ranges, addresses the spreadsheet and the
    range found at indices 2 and 3 of the last configuration row. *)
Lemma index_run_destination (service : list Event -> Request -> Reply)
    (nowStr : list Event -> string) (cfg : Config) h c rows e0 c1 :
  IndexJs.getConfigurationData service cfg
    (h ++ [ELog INFO "Initializing Google Sheets service...";
           ELog INFO "Google Sheets service initialized successfully"]) c
  = (Return rows, e0, c1) ->
  0 < len rows ->
  Forall (targets (at_index (lastRow rows) 2) (at_index (lastRow rows) 3))
         (requests (emitted (IndexJs.run service nowStr cfg h c))).
Proof.
  intros Hconf Hrows. unfold IndexJs.run.
  set (dest := at_index (lastRow rows) 2). set (range := at_index (lastRow rows) 3).
  apply requests_try_catch.
  - assert (Hinit : IndexJs.initialize h c
                    = (Return tt,
                       [ELog INFO "Initializing Google Sheets service...";
                        ELog INFO "Google Sheets service initialized successfully"], c))
      by reflexivity.
    erewrite bind_Return by exact Hinit. rewrite emitted_after.
    erewrite bind_Return by exact Hconf. rewrite emitted_after.
    rewrite !requests_app. apply Forall_app. split; [constructor |].
    apply Forall_app. split.
    + pose proof (@emits_only_index_getConfigurationData service cfg dest range
                    (h ++ [ELog INFO "Initializing Google Sheets service...";
                           ELog INFO "Google Sheets service initialized successfully"]) c)
        as H.
      rewrite Hconf in H. exact H.
    + apply requests_bind; [constructor |]. intros _.
      replace (len rows =? 0) with false by (symmetry; apply Z.eqb_neq; lia).
      replace (len rows >? 0) with true by (symmetry; apply Z.gtb_lt; lia).
      apply emits_only_bind; [apply emits_only_index_batchLoop |].
      intros finalData. apply emits_only_bind; [apply emits_only_logger_info |].
      intros _. apply emits_only_bind; [| intros _; apply emits_only_logger_info].
      apply emits_only_bind; [apply emits_only_logger_info |].
      intros _. apply emits_only_bind.
      * match goal with |- context [if ?b then _ else _] => destruct b end;
          [apply emits_only_index_updateDestinationInChunks
          | apply emits_only_index_updateDestination].
      * intros _. apply emits_only_bind; [apply emits_only_index_logToSheet |].
        intros _. apply emits_only_logger_info.
  - intros t. apply emits_only_bind; [apply emits_only_message_of |].
    intros msg. apply emits_only_bind; [apply emits_only_logger_error |].
    intros _. apply emits_only_bind; [| intros _; apply emits_only_throw].
    apply emits_only_try_catch.
    + apply emits_only_bind; [apply emits_only_index_getConfigurationData |].
      intros rows'. destruct (len rows' >? 0);
        [apply emits_only_index_logToSheet | apply emits_only_ret].
    + intros t'. apply emits_only_bind; [apply emits_only_message_of |].
      intros _. apply emits_only_logger_error.
Qed.

Lemma index_run_destination_witness :
  Forall (targets dest_id dest_range)
         (requests (emitted (IndexJs.run config_service noon IndexJs.CONFIG [] c0))).
Proof.
  eapply (@index_run_destination config_service noon IndexJs.CONFIG [] c0
            [job_a; job_b]).
  - reflexivity.
  - reflexivity.
Defined.

(** C8 on src/unnamed/part_001.  With two configuration rows whose fields at
    indices 2 and 3 name the destination, the run of part_001 clears and
    updates the spreadsheet [undefined], range [undefined]: its
    destructuring skips four elements and reads indices 4 and 5.  The run of
    index.js on the same service addresses the destination of the last
    row. *)
Theorem part001_run_wrong_destination :
  at_index (lastRow [job_a; job_b]) 2 = dest_id
  /\ at_index (lastRow [job_a; job_b]) 3 = dest_range
  /\ filter (fun req => match req with Get _ _ => false | _ => true end)
            (requests (emitted (Part001.run config_service Part001.CONFIG [] c0)))
     = [Clear CUndefined CUndefined;
        Update CUndefined CUndefined
          [[CStr "1"; CNum 0; CStr "https://docs.google.com/spreadsheets/d/source-a"];
           [CStr "2"; CStr "https://docs.google.com/spreadsheets/d/source-a"];
           [CStr "1"; CNum 0; CStr "https://docs.google.com/spreadsheets/d/source-b"];
           [CStr "2"; CStr "https://docs.google.com/spreadsheets/d/source-b"]]]
  /\ filter (fun req => match req with Get _ _ => false | _ => true end)
            (requests (emitted (IndexJs.run config_service noon IndexJs.CONFIG [] c0)))
     = [Clear dest_id dest_range;
        Update dest_id dest_range
          [[CStr "1"; CNum 0; CStr "https://docs.google.com/spreadsheets/d/source-a"];
           [CStr "2"; CStr "https://docs.google.com/spreadsheets/d/source-a"];
           [CStr "1"; CNum 0; CStr "https://docs.google.com/spreadsheets/d/source-b"];
           [CStr "2"; CStr "https://docs.google.com/spreadsheets/d/source-b"]];
        Append dest_id IndexJs.S_LOG [[CStr "2025-01-01 12:00:00"; CStr "Done"]]].
Proof. repeat split; vm_compute; reflexivity. Qed.

(** * Further properties *)

(** ** RetryExecutor, for every operation *)

Lemma throttles_app (a b : list Event) : (throttles (a ++ b) = throttles a + throttles b)%nat.
Proof. unfold throttles. rewrite filter_app, length_app. reflexivity. Qed.

Lemma remote_events_quiet (calls : list (Request * Reply)) :
  throttles (remote_events calls) = 0%nat
  /\ invocations (remote_events calls) = 0%nat
  /\ sleeps (remote_events calls) = [].
Proof.
  induction calls as [| x calls IH]; [repeat split |].
  destruct IH as (H1 & H2 & H3). repeat split; assumption.
Qed.

Lemma failed_attempt_counts (warning : Z -> string) attempt calls :
  throttles (failed_attempt warning attempt calls) = 1%nat
  /\ invocations (failed_attempt warning attempt calls) = 1%nat
  /\ sleeps (failed_attempt warning attempt calls) = [backoff attempt].
Proof.
  destruct (remote_events_quiet calls) as (H1 & H2 & H3).
  unfold failed_attempt.
  change (EThrottle :: EInvoke :: remote_events calls
            ++ [ELog WARN (warning attempt); ESleep (backoff attempt)])
    with ([EThrottle; EInvoke] ++ remote_events calls
            ++ [ELog WARN (warning attempt); ESleep (backoff attempt)]).
  rewrite !throttles_app, !invocations_app, !sleeps_app, H1, H2, H3. repeat split.
Qed.

Lemma last_attempt_counts (calls : list (Request * Reply)) :
  throttles (EThrottle :: EInvoke :: remote_events calls) = 1%nat
  /\ invocations (EThrottle :: EInvoke :: remote_events calls) = 1%nat
  /\ sleeps (EThrottle :: EInvoke :: remote_events calls) = [].
Proof.
  destruct (remote_events_quiet calls) as (H1 & H2 & H3).
  change (EThrottle :: EInvoke :: remote_events calls)
    with ([EThrottle; EInvoke] ++ remote_events calls).
  rewrite !throttles_app, !invocations_app, !sleeps_app, H1, H2, H3. repeat split.
Qed.

(** The shape of every run of the loop entered at [attempt]: it makes the
    attempts [attempt .. k] for some [k], throttling before each and
    sleeping the backoff after each but the last. *)
Lemma Retry_shape {A} (warning : Z -> string) (operation : Operation A) n a h r evs :
  Retry warning operation n a h r evs ->
  a <= n ->
  exists k,
    a <= k <= n
    /\ throttles evs = Z.to_nat (k + 1 - a)
    /\ invocations evs = Z.to_nat (k + 1 - a)
    /\ sleeps evs = map backoff (Zrange a (k - 1)).
Proof.
  intros HR. induction HR as [a h v calls Hop | h t calls Hop
                             | a h err calls r evs Ha Hop HR IH
                             | a h t typeError calls Ha Hop Ht]; intros Han.
  - exists a. destruct (last_attempt_counts calls) as (H1 & H2 & H3).
    rewrite H1, H2, H3, Zrange_empty by lia.
    repeat split; lia.
  - exists n. destruct (last_attempt_counts calls) as (H1 & H2 & H3).
    rewrite H1, H2, H3, Zrange_empty by lia.
    repeat split; lia.
  - destruct IH as (k & Hk & Ht & Hi & Hs); [lia |].
    exists k. destruct (failed_attempt_counts warning a calls) as (H1 & H2 & H3).
    rewrite throttles_app, invocations_app, sleeps_app, H1, H2, H3, Ht, Hi, Hs.
    rewrite (Zrange_cons (a := a) (b := k - 1)) by lia.
    repeat split; lia.
  - exists a. destruct (last_attempt_counts calls) as (H1 & H2 & H3).
    rewrite H1, H2, H3, Zrange_empty by lia.
    repeat split; lia.
Qed.

(** The attempts made, and how the run comes to throw. *)
Lemma Retry_attempts {A} (warning : Z -> string) (operation : Operation A) n h r evs :
  Retry warning operation n 1 h r evs ->
  1 <= n ->
  exists k,
    1 <= k <= n
    /\ throttles evs = Z.to_nat k
    /\ invocations evs = Z.to_nat k
    /\ sleeps evs = map (fun j => Z.min (1000 * 2 ^ (j - 1)) 10000) (Zrange 1 (k - 1))
    /\ (forall t, r = Throw t -> thrown_by_last_attempt operation n k h evs t).
Proof.
  intros HR Hn. destruct (Retry_shape HR Hn) as (k & Hk & Ht & Hi & Hs).
  replace (k + 1 - 1) with k in * by lia.
  exists k. split; [exact Hk |]. split; [exact Ht |]. split; [exact Hi |].
  split; [exact Hs |]. intros t Hr.
  destruct (Retry_throws HR Hr) as (pre & t0 & calls & Hevs & Hop & Hcase).
  exists pre, t0, calls. split; [exact Hevs |]. split; [exact Hop |].
  rewrite Hi in Hcase. destruct Hcase as [(Hall & Heq) | (Hless & Hte)].
  - left. split; [lia | exact Heq].
  - right. split; [lia | exact Hte].
Qed.

Lemma backoff_bounds (attempt : Z) : 1 <= attempt -> 1000 <= backoff attempt <= 10000.
Proof.
  intros Ha. unfold backoff.
  assert (1 <= 2 ^ (attempt - 1)) by (apply Z.pow_le_mono_r with (b := 0); lia).
  lia.
Qed.

Lemma Zrange_bounds (a b x : Z) : In x (Zrange a b) -> a <= x <= b.
Proof.
  unfold Zrange. rewrite in_map_iff. intros (i & <- & Hi). apply in_seq in Hi. lia.
Qed.

(** X1. For every operation, whatever it rejects with, and every
    [maxRetries >= 1], a run of [retryOperation] makes some number [k] of
    attempts, [1 <= k <= maxRetries]: it throttles exactly once before each
    invocation, sleeps the backoff of attempt [j] after each failed attempt
    [j < k] and not after the last, and leaves the counters alone.  It stops
    before [maxRetries] attempts only by returning, or because an attempt
    rejected with [undefined] or [null]: then it throws the TypeError raised
    by reading the message of that value.  After [maxRetries] failed attempts
    it throws what the last one rejected with.  Both variants. *)
Theorem retryOperation_attempts {A} (operation : Operation A) (maxRetries : Z) h c :
  1 <= maxRetries ->
  (exists k,
     1 <= k <= maxRetries
     /\ throttles (emitted (IndexJs.retryOperation operation maxRetries h c)) = Z.to_nat k
     /\ invocations (emitted (IndexJs.retryOperation operation maxRetries h c)) = Z.to_nat k
     /\ sleeps (emitted (IndexJs.retryOperation operation maxRetries h c))
        = map (fun j => Z.min (1000 * 2 ^ (j - 1)) 10000) (Zrange 1 (k - 1))
     /\ counters (IndexJs.retryOperation operation maxRetries h c) = c
     /\ (forall t,
           completion (IndexJs.retryOperation operation maxRetries h c) = Throw t ->
           thrown_by_last_attempt operation maxRetries k h
             (emitted (IndexJs.retryOperation operation maxRetries h c)) t))
  /\ (exists k,
        1 <= k <= maxRetries
        /\ throttles (emitted (Part001.retryOperation operation maxRetries h c)) = Z.to_nat k
        /\ invocations (emitted (Part001.retryOperation operation maxRetries h c))
           = Z.to_nat k
        /\ sleeps (emitted (Part001.retryOperation operation maxRetries h c))
           = map (fun j => Z.min (1000 * 2 ^ (j - 1)) 10000) (Zrange 1 (k - 1))
        /\ counters (Part001.retryOperation operation maxRetries h c) = c
        /\ (forall t,
              completion (Part001.retryOperation operation maxRetries h c) = Throw t ->
              thrown_by_last_attempt operation maxRetries k h
                (emitted (Part001.retryOperation operation maxRetries h c)) t)).
Proof.
  intros Hn.
  destruct (@index_retryOperation_Retry _ operation maxRetries h c Hn) as (r & evs & Hr & HR).
  destruct (@part001_retryOperation_Retry _ operation maxRetries h c Hn)
    as (r' & evs' & Hr' & HR').
  rewrite Hr, Hr'. cbn [completion emitted counters fst snd].
  destruct (Retry_attempts HR Hn) as (k & Hk & Ht & Hi & Hs & Hthrow).
  destruct (Retry_attempts HR' Hn) as (k' & Hk' & Ht' & Hi' & Hs' & Hthrow').
  split.
  - exists k. repeat split; try assumption; lia.
  - exists k'. repeat split; try assumption; lia.
Qed.

Lemma retryOperation_attempts_witness :
  (exists k,
     1 <= k <= 3
     /\ throttles (emitted (IndexJs.retryOperation rejecting_undefined 3 [] c0)) = Z.to_nat k
     /\ invocations (emitted (IndexJs.retryOperation rejecting_undefined 3 [] c0))
        = Z.to_nat k
     /\ sleeps (emitted (IndexJs.retryOperation rejecting_undefined 3 [] c0))
        = map (fun j => Z.min (1000 * 2 ^ (j - 1)) 10000) (Zrange 1 (k - 1))
     /\ counters (IndexJs.retryOperation rejecting_undefined 3 [] c0) = c0
     /\ (forall t,
           completion (IndexJs.retryOperation rejecting_undefined 3 [] c0) = Throw t ->
           thrown_by_last_attempt rejecting_undefined 3 k []
             (emitted (IndexJs.retryOperation rejecting_undefined 3 [] c0)) t))
  /\ (exists k,
        1 <= k <= 3
        /\ throttles (emitted (Part001.retryOperation rejecting_undefined 3 [] c0))
           = Z.to_nat k
        /\ invocations (emitted (Part001.retryOperation rejecting_undefined 3 [] c0))
           = Z.to_nat k
        /\ sleeps (emitted (Part001.retryOperation rejecting_undefined 3 [] c0))
           = map (fun j => Z.min (1000 * 2 ^ (j - 1)) 10000) (Zrange 1 (k - 1))
        /\ counters (Part001.retryOperation rejecting_undefined 3 [] c0) = c0
        /\ (forall t,
              completion (Part001.retryOperation rejecting_undefined 3 [] c0) = Throw t ->
              thrown_by_last_attempt rejecting_undefined 3 k []
                (emitted (Part001.retryOperation rejecting_undefined 3 [] c0)) t)).
Proof.
  apply (@retryOperation_attempts unit rejecting_undefined 3 [] c0). discriminate.
Defined.

(** X2. Whatever the operation does and however many attempts are allowed,
    every explicit sleep of [retryOperation] lasts between 1000 and 10000
    ms.  Both variants. *)
Theorem retryOperation_sleeps_bounded {A} (operation : Operation A) (maxRetries : Z) h c :
  Forall (fun ms => 1000 <= ms <= 10000)
         (sleeps (emitted (IndexJs.retryOperation operation maxRetries h c)))
  /\ Forall (fun ms => 1000 <= ms <= 10000)
            (sleeps (emitted (Part001.retryOperation operation maxRetries h c))).
Proof.
  destruct (Z_le_gt_dec maxRetries 0) as [Hn | Hn].
  - destruct (@retryOperation_none _ operation maxRetries h c Hn) as (-> & ->).
    split; constructor.
  - assert (Hn' : 1 <= maxRetries) by lia.
    destruct (@index_retryOperation_Retry _ operation maxRetries h c Hn')
      as (r & evs & Hr & HR).
    destruct (@part001_retryOperation_Retry _ operation maxRetries h c Hn')
      as (r' & evs' & Hr' & HR').
    rewrite Hr, Hr'. cbn [emitted fst snd].
    destruct (Retry_shape HR Hn') as (k & Hk & _ & _ & Hs).
    destruct (Retry_shape HR' Hn') as (k' & Hk' & _ & _ & Hs').
    rewrite Hs, Hs'. split; apply Forall_forall; intros ms Hms;
      apply in_map_iff in Hms; destruct Hms as (j & <- & Hj);
      apply Zrange_bounds in Hj; apply (backoff_bounds (attempt := j)); lia.
Qed.

(** ** The write paths, for every service *)

Lemma works_through_nil {A} (v : A) (evs : list Event) :
  requests evs = [] -> works_through [] (Return v) evs.
Proof.
  intros Hq. exists [], []. split; [reflexivity |]. split.
  - assert (H : forall l, requests l = [] -> succeeded l = []).
    { induction l as [| e l IH]; [reflexivity |].
      destruct e as [| | | req [err | values] | |]; cbn; try exact IH; discriminate. }
    apply H, Hq.
  - split; [reflexivity |]. rewrite Hq. constructor.
Qed.

Lemma works_through_ext {A} (expected : list Request) (r : Completion A) evs evs' :
  requests evs' = requests evs -> succeeded evs' = succeeded evs ->
  works_through expected r evs -> works_through expected r evs'.
Proof.
  intros Hq Hs (done & todo & He & Hd & Hr). exists done, todo.
  rewrite Hq, Hs. auto.
Qed.

(** The first call failed for good: nothing else is sent. *)
Lemma works_through_throw {A B} (req : Request) (expected : list Request)
    (t t' : Thrown) evs :
  retried req (@Throw A t) evs -> works_through (req :: expected) (@Throw B t') evs.
Proof.
  intros (Hreq & Hsucc & _). exists [], (req :: expected).
  split; [reflexivity |]. split; [exact Hsucc |].
  exists req, expected. split; [reflexivity |].
  eapply Forall_impl; [| exact Hreq]. intros q <-. left. reflexivity.
Qed.

(** The first call resolved: the run goes on with the others. *)
Lemma works_through_return {A B} (req : Request) (expected : list Request)
    (v : A) (r : Completion B) evs1 evs2 :
  retried req (Return v) evs1 -> works_through expected r evs2 ->
  works_through (req :: expected) r (evs1 ++ evs2).
Proof.
  intros (Hreq & Hsucc & _) (done & todo & He & Hd & Hr).
  exists (req :: done), todo. split; [rewrite He; reflexivity |].
  split; [rewrite succeeded_app, Hsucc, Hd; reflexivity |].
  rewrite requests_app. destruct r as [w | t].
  - destruct Hr as (-> & Hall). split; [reflexivity |].
    apply Forall_app. split.
    + eapply Forall_impl; [| exact Hreq]. intros q <-. left. reflexivity.
    + eapply Forall_impl; [| exact Hall]. intros q Hq. right. exact Hq.
  - destruct Hr as (failed & rest & -> & Hall). exists failed, rest.
    split; [reflexivity |]. apply Forall_app. split.
    + eapply Forall_impl; [| exact Hreq]. intros q <-. left. reflexivity.
    + eapply Forall_impl; [| exact Hall]. intros q Hq. right. exact Hq.
Qed.

Lemma works_through_log {A} (expected : list Request) (r : Completion A)
    (level : Level) (msg : string) evs :
  works_through expected r evs -> works_through expected r (ELog level msg :: evs).
Proof. apply works_through_ext; reflexivity. Qed.

Section Writes.

Variable service : list Event -> Request -> Reply.
Variable cfg : Config.
Variables destinationSpreadsheetId destinationRange : Cell.
Variable data : Rows.

Hypothesis chunk_size_positive : 0 < CHUNK_SIZE cfg.

Lemma index_updateDestination_works h c :
  works_through [Clear destinationSpreadsheetId destinationRange;
                 Update destinationSpreadsheetId destinationRange data]
    (completion (IndexJs.updateDestination service cfg destinationSpreadsheetId
                   destinationRange data h c))
    (emitted (IndexJs.updateDestination service cfg destinationSpreadsheetId
                destinationRange data h c))
  /\ counters (IndexJs.updateDestination service cfg destinationSpreadsheetId
                 destinationRange data h c) = c.
Proof.
  unfold IndexJs.updateDestination.
  destruct (@index_retry_once _ (perform service
              (Clear destinationSpreadsheetId destinationRange)) _ (MAX_RETRIES cfg) h c
              (perform_calls_once _ _)) as (r & evs & Hr & Hretried).
  destruct r as [[] | t].
  - erewrite bind_Return by exact Hr.
    destruct (@index_retry_once _ (perform service
                (Update destinationSpreadsheetId destinationRange data)) _
                (MAX_RETRIES cfg) (h ++ evs) c (perform_calls_once _ _))
      as (r2 & evs2 & Hr2 & Hretried2).
    rewrite Hr2. cbn [after completion emitted counters fst snd]. split; [| reflexivity].
    apply (works_through_return Hretried).
    destruct r2 as [[] | t].
    + rewrite <- (app_nil_r evs2). apply (works_through_return Hretried2).
      apply works_through_nil. reflexivity.
    + apply (works_through_throw (B := unit) [] t Hretried2).
  - erewrite bind_Throw by exact Hr. cbn [completion emitted counters fst snd].
    split; [| reflexivity]. apply (works_through_throw (B := unit) _ t Hretried).
Qed.

Lemma part001_updateDestination_works h c :
  works_through [Clear destinationSpreadsheetId destinationRange;
                 Update destinationSpreadsheetId destinationRange data]
    (completion (Part001.updateDestination service cfg destinationSpreadsheetId
                   destinationRange data h c))
    (emitted (Part001.updateDestination service cfg destinationSpreadsheetId
                destinationRange data h c))
  /\ counters (Part001.updateDestination service cfg destinationSpreadsheetId
                 destinationRange data h c) = c.
Proof.
  unfold Part001.updateDestination.
  destruct (@part001_retry_once _ (perform service
              (Clear destinationSpreadsheetId destinationRange)) _ (MAX_RETRIES cfg) h c
              (perform_calls_once _ _)) as (r & evs & Hr & Hretried).
  destruct r as [[] | t].
  - erewrite bind_Return by exact Hr.
    destruct (@part001_retry_once _ (perform service
                (Update destinationSpreadsheetId destinationRange data)) _
                (MAX_RETRIES cfg) (h ++ evs) c (perform_calls_once _ _))
      as (r2 & evs2 & Hr2 & Hretried2).
    rewrite Hr2. cbn [after completion emitted counters fst snd]. split; [| reflexivity].
    apply (works_through_return Hretried).
    destruct r2 as [[] | t].
    + rewrite <- (app_nil_r evs2). apply (works_through_return Hretried2).
      apply works_through_nil. reflexivity.
    + apply (works_through_throw (B := unit) [] t Hretried2).
  - erewrite bind_Throw by exact Hr. cbn [completion emitted counters fst snd].
    split; [| reflexivity]. apply (works_through_throw (B := unit) _ t Hretried).
Qed.

Lemma index_chunkLoop_works (fuel : nat) :
  forall i h c,
    0 < i ->
    works_through
      (map (Append destinationSpreadsheetId destinationRange)
           (chunkArrayLoop data (CHUNK_SIZE cfg) fuel i))
      (completion (IndexJs.chunkLoop service cfg destinationSpreadsheetId
                     destinationRange data fuel i h c))
      (emitted (IndexJs.chunkLoop service cfg destinationSpreadsheetId
                  destinationRange data fuel i h c)).
Proof.
  induction fuel as [| fuel IH]; intros i h c Hi;
    [apply works_through_nil; reflexivity |].
  cbn [IndexJs.chunkLoop chunkArrayLoop].
  destruct (i <? len data); [| apply works_through_nil; reflexivity].
  replace (i =? 0) with false by (symmetry; apply Z.eqb_neq; lia).
  unfold logger_info. rewrite bind_emit, completion_after, emitted_after.
  apply works_through_log.
  match goal with
  | |- context [bind (IndexJs.retryOperation ?op ?n) _ ?h' ?c'] =>
      destruct (@index_retry_once _ op
                  (Append destinationSpreadsheetId destinationRange
                     (slice data i (i + CHUNK_SIZE cfg))) n h' c'
                  (perform_calls_once _ _))
        as (r & evs & Hr & Hretried)
  end.
  destruct r as [[] | t].
  - erewrite bind_Return by exact Hr. rewrite completion_after, emitted_after.
    apply (works_through_return Hretried). apply IH. lia.
  - erewrite bind_Throw by exact Hr. cbn [completion emitted fst snd].
    apply (works_through_throw (B := unit) _ t Hretried).
Qed.

Lemma part001_chunkLoop_works (fuel : nat) :
  forall i h c,
    0 < i ->
    works_through
      (map (Append destinationSpreadsheetId destinationRange)
           (chunkArrayLoop data (CHUNK_SIZE cfg) fuel i))
      (completion (Part001.chunkLoop service cfg destinationSpreadsheetId
                     destinationRange data fuel i h c))
      (emitted (Part001.chunkLoop service cfg destinationSpreadsheetId
                  destinationRange data fuel i h c)).
Proof.
  induction fuel as [| fuel IH]; intros i h c Hi;
    [apply works_through_nil; reflexivity |].
  cbn [chunkArrayLoop]. destruct (i <? len data) eqn:E.
  - apply Z.ltb_lt in E. rewrite part001_chunkLoop_cons by exact E.
    replace (i =? 0) with false by (symmetry; apply Z.eqb_neq; lia).
    rewrite completion_after, emitted_after. apply works_through_log.
    match goal with
    | |- context [bind (try_catch (bind (Part001.retryOperation (perform _ ?req) ?n) _)
                                  (fun error => _ <- _ ;; logger_error ?msg ;; _)) _ ?h' ?c'] =>
        destruct (part001_write_chunk service req msg n h' c') as (r & evs & Hr & Hshape)
    end.
    destruct r as [[] | t].
    + erewrite bind_Return by exact Hr. rewrite completion_after, emitted_after.
      destruct Hshape as (evs0 & -> & Hretried).
      match goal with |- works_through _ (completion ?X) _ => set (rest := X) end.
      rewrite <- app_assoc. apply (works_through_return Hretried).
      apply (works_through_ext (evs := emitted rest)); try reflexivity.
      subst rest. apply IH. lia.
    + erewrite bind_Throw by exact Hr. cbn [completion emitted fst snd].
      destruct Hshape as (Hreq & Hsucc & _).
      eexists [], _. split; [reflexivity |]. split; [exact Hsucc |].
      eexists _, _. split; [reflexivity |].
      eapply Forall_impl; [| exact Hreq]. intros q <-. left. reflexivity.
  - unfold Part001.chunkLoop. rewrite E. apply works_through_nil. reflexivity.
Qed.

End Writes.

(** The chunked write of each variant works through [chunk_calls]. *)
Lemma index_chunked_works (service : list Event -> Request -> Reply) (cfg : Config)
    (destinationSpreadsheetId destinationRange : Cell) (data : Rows) h c :
  0 < CHUNK_SIZE cfg ->
  CHUNK_SIZE cfg < len data ->
  works_through
    (chunk_calls destinationSpreadsheetId destinationRange (CHUNK_SIZE cfg) data)
    (completion (IndexJs.updateDestinationInChunks service cfg destinationSpreadsheetId
                   destinationRange data h c))
    (emitted (IndexJs.updateDestinationInChunks service cfg destinationSpreadsheetId
                destinationRange data h c)).
Proof.
  intros Hsize Hlen. unfold chunk_calls. rewrite chunkArray_first by lia.
  rewrite index_chunked_unfold by assumption.
  rewrite completion_after, emitted_after. apply works_through_log.
  match goal with
  | |- context [bind (IndexJs.retryOperation ?op ?n) _ ?h' ?c'] =>
      destruct (@index_retry_once _ op (Clear destinationSpreadsheetId destinationRange)
                  n h' c' (perform_calls_once _ _))
        as (r & evs & Hr & Hretried)
  end.
  destruct r as [[] | t].
  2:{ erewrite bind_Throw by exact Hr. cbn [completion emitted fst snd].
      apply (works_through_throw (B := unit) _ t Hretried). }
  erewrite bind_Return by exact Hr. rewrite completion_after, emitted_after.
  apply (works_through_return Hretried).
  unfold logger_info. rewrite bind_emit, completion_after, emitted_after.
  apply works_through_log.
  match goal with
  | |- context [bind (IndexJs.retryOperation ?op ?n) _ ?h' ?c'] =>
      destruct (@index_retry_once _ op
                  (Update destinationSpreadsheetId destinationRange
                     (slice data 0 (0 + CHUNK_SIZE cfg)))
                  n h' c' (perform_calls_once _ _))
        as (r2 & evs2 & Hr2 & Hretried2)
  end.
  destruct r2 as [[] | t].
  + erewrite bind_Return by exact Hr2. rewrite completion_after, emitted_after.
    apply (works_through_return Hretried2). apply index_chunkLoop_works; lia.
  + erewrite bind_Throw by exact Hr2. cbn [completion emitted fst snd].
    apply (works_through_throw (B := unit) _ t Hretried2).
Qed.

Lemma part001_chunked_works (service : list Event -> Request -> Reply) (cfg : Config)
    (destinationSpreadsheetId destinationRange : Cell) (data : Rows) h c :
  0 < CHUNK_SIZE cfg ->
  CHUNK_SIZE cfg < len data ->
  works_through
    (chunk_calls destinationSpreadsheetId destinationRange (CHUNK_SIZE cfg) data)
    (completion (Part001.updateDestinationInChunks service cfg destinationSpreadsheetId
                   destinationRange data h c))
    (emitted (Part001.updateDestinationInChunks service cfg destinationSpreadsheetId
                destinationRange data h c)).
Proof.
  intros Hsize Hlen. unfold chunk_calls. rewrite chunkArray_first by lia.
  rewrite part001_chunked_unfold by assumption.
  rewrite completion_after, emitted_after. apply works_through_log.
  match goal with
  | |- context [bind (Part001.retryOperation ?op ?n) _ ?h' ?c'] =>
      destruct (@part001_retry_once _ op (Clear destinationSpreadsheetId destinationRange)
                  n h' c' (perform_calls_once _ _))
        as (r & evs & Hr & Hretried)
  end.
  destruct r as [[] | t].
  2:{ erewrite bind_Throw by exact Hr. cbn [completion emitted fst snd].
      apply (works_through_throw (B := unit) _ t Hretried). }
  erewrite bind_Return by exact Hr. rewrite completion_after, emitted_after.
  apply (works_through_return Hretried).
  rewrite part001_chunkLoop_cons by lia.
  rewrite completion_after, emitted_after. cbn [Z.eqb]. apply works_through_log.
  match goal with
  | |- context [bind (try_catch (bind (Part001.retryOperation (perform _ ?req) ?n) _)
                                (fun error => _ <- _ ;; logger_error ?msg ;; _)) _ ?h' ?c'] =>
      destruct (part001_write_chunk service req msg n h' c') as (r2 & evs2 & Hr2 & Hshape)
  end.
  destruct r2 as [[] | t].
  + erewrite bind_Return by exact Hr2. rewrite completion_after, emitted_after.
    destruct Hshape as (evs0 & -> & Hretried2).
    match goal with |- works_through _ (completion ?X) _ => set (rest := X) end.
    rewrite <- app_assoc. apply (works_through_return Hretried2).
    apply (works_through_ext (evs := emitted rest)); try reflexivity.
    subst rest. apply part001_chunkLoop_works; lia.
  + erewrite bind_Throw by exact Hr2. cbn [completion emitted fst snd].
    destruct Hshape as (Hreq & Hsucc & _).
    eexists [], _. split; [reflexivity |]. split; [exact Hsucc |].
    eexists _, _. split; [reflexivity |].
    eapply Forall_impl; [| exact Hreq]. intros q <-. left. reflexivity.
Qed.

(** [chunk_calls] is the list of calls the specification asks for. *)
Lemma chunked_calls_chunk_calls (destinationSpreadsheetId destinationRange : Cell)
    (size : Z) (data : Rows) :
  0 < size -> size < len data ->
  chunked_calls destinationSpreadsheetId destinationRange size data
    (chunk_calls destinationSpreadsheetId destinationRange size data).
Proof.
  intros Hsize Hlen. unfold chunk_calls. rewrite chunkArray_first by lia.
  apply chunked_calls_chunkArray; assumption.
Qed.


(** X3. The single-shot write, for every service: [updateDestination] sends
    the clear and, only once the clear has resolved, the update with all the
    rows; it returns exactly when both resolved, throws without sending the
    update when the clear is exhausted, and never touches the counters.
    Both variants. *)
Theorem updateDestination_clears_then_updates
    (service : list Event -> Request -> Reply) (cfg : Config)
    (destinationSpreadsheetId destinationRange : Cell) (data : Rows) h c :
  (works_through [Clear destinationSpreadsheetId destinationRange;
                  Update destinationSpreadsheetId destinationRange data]
     (completion (IndexJs.updateDestination service cfg destinationSpreadsheetId
                    destinationRange data h c))
     (emitted (IndexJs.updateDestination service cfg destinationSpreadsheetId
                 destinationRange data h c))
   /\ counters (IndexJs.updateDestination service cfg destinationSpreadsheetId
                  destinationRange data h c) = c)
  /\ (works_through [Clear destinationSpreadsheetId destinationRange;
                     Update destinationSpreadsheetId destinationRange data]
        (completion (Part001.updateDestination service cfg destinationSpreadsheetId
                       destinationRange data h c))
        (emitted (Part001.updateDestination service cfg destinationSpreadsheetId
                    destinationRange data h c))
      /\ counters (Part001.updateDestination service cfg destinationSpreadsheetId
                     destinationRange data h c) = c).
Proof.
  split; [apply index_updateDestination_works | apply part001_updateDestination_works].
Qed.

(** X5. A dataset no longer than CHUNK_SIZE (the boundary and the empty
    dataset included) is written by [updateDestinationInChunks] in one
    piece: the clear, then a single update carrying all the rows, and never
    an append.  Both variants. *)
Theorem small_dataset_written_in_one_update
    (service : list Event -> Request -> Reply) (cfg : Config)
    (destinationSpreadsheetId destinationRange : Cell) (data : Rows) h c :
  len data <= CHUNK_SIZE cfg ->
  works_through [Clear destinationSpreadsheetId destinationRange;
                 Update destinationSpreadsheetId destinationRange data]
    (completion (IndexJs.updateDestinationInChunks service cfg destinationSpreadsheetId
                   destinationRange data h c))
    (emitted (IndexJs.updateDestinationInChunks service cfg destinationSpreadsheetId
                destinationRange data h c))
  /\ works_through [Clear destinationSpreadsheetId destinationRange;
                    Update destinationSpreadsheetId destinationRange data]
       (completion (Part001.updateDestinationInChunks service cfg destinationSpreadsheetId
                      destinationRange data h c))
       (emitted (Part001.updateDestinationInChunks service cfg destinationSpreadsheetId
                   destinationRange data h c)).
Proof.
  intros Hlen. unfold IndexJs.updateDestinationInChunks, Part001.updateDestinationInChunks.
  replace (len data <=? CHUNK_SIZE cfg) with true by (symmetry; apply Z.leb_le; exact Hlen).
  split; [apply index_updateDestination_works | apply part001_updateDestination_works].
Qed.

Lemma small_dataset_written_in_one_update_witness :
  works_through [Clear dest_id dest_range; Update dest_id dest_range (sample_rows 5000)]
    (completion (IndexJs.updateDestinationInChunks ok_service IndexJs.CONFIG
                   dest_id dest_range (sample_rows 5000) [] c0))
    (emitted (IndexJs.updateDestinationInChunks ok_service IndexJs.CONFIG
                dest_id dest_range (sample_rows 5000) [] c0))
  /\ works_through [Clear dest_id dest_range; Update dest_id dest_range (sample_rows 5000)]
       (completion (Part001.updateDestinationInChunks ok_service IndexJs.CONFIG
                      dest_id dest_range (sample_rows 5000) [] c0))
       (emitted (Part001.updateDestinationInChunks ok_service IndexJs.CONFIG
                   dest_id dest_range (sample_rows 5000) [] c0)).
Proof.
  apply (@small_dataset_written_in_one_update ok_service IndexJs.CONFIG dest_id dest_range
           (sample_rows 5000) [] c0).
  vm_compute. discriminate.
Defined.

(** X4. The chunked write, for every service: for a dataset longer than
    CHUNK_SIZE the path works through the clear, the update of the first
    chunk and the appends of the further chunks in this order and stops at
    the first call whose retries are exhausted: the calls that resolved are
    a prefix of that list, no later chunk is sent after a failure, and the
    path returns exactly when the whole list resolved.  Both variants. *)
Theorem chunked_write_stops_at_failure
    (service : list Event -> Request -> Reply) (cfg : Config)
    (destinationSpreadsheetId destinationRange : Cell) (data : Rows) h c :
  0 < CHUNK_SIZE cfg ->
  CHUNK_SIZE cfg < len data ->
  works_through
    (chunk_calls destinationSpreadsheetId destinationRange (CHUNK_SIZE cfg) data)
    (completion (IndexJs.updateDestinationInChunks service cfg destinationSpreadsheetId
                   destinationRange data h c))
    (emitted (IndexJs.updateDestinationInChunks service cfg destinationSpreadsheetId
                destinationRange data h c))
  /\ works_through
       (chunk_calls destinationSpreadsheetId destinationRange (CHUNK_SIZE cfg) data)
       (completion (Part001.updateDestinationInChunks service cfg destinationSpreadsheetId
                      destinationRange data h c))
       (emitted (Part001.updateDestinationInChunks service cfg destinationSpreadsheetId
                   destinationRange data h c)).
Proof.
  intros Hsize Hlen. split.
  - apply index_chunked_works; assumption.
  - apply part001_chunked_works; assumption.
Qed.

Lemma chunked_write_stops_at_failure_witness :
  works_through (chunk_calls dest_id dest_range 5000 (sample_rows 5001))
    (completion (IndexJs.updateDestinationInChunks down_service IndexJs.CONFIG
                   dest_id dest_range (sample_rows 5001) [] c0))
    (emitted (IndexJs.updateDestinationInChunks down_service IndexJs.CONFIG
                dest_id dest_range (sample_rows 5001) [] c0))
  /\ works_through (chunk_calls dest_id dest_range 5000 (sample_rows 5001))
       (completion (Part001.updateDestinationInChunks down_service IndexJs.CONFIG
                      dest_id dest_range (sample_rows 5001) [] c0))
       (emitted (Part001.updateDestinationInChunks down_service IndexJs.CONFIG
                   dest_id dest_range (sample_rows 5001) [] c0)).
Proof.
  apply (@chunked_write_stops_at_failure down_service IndexJs.CONFIG dest_id dest_range
           (sample_rows 5001) [] c0); reflexivity.
Defined.
(** ** The chunked write against its specification *)

Lemma ok_service_never_fails : never_fails ok_service.
Proof. intros h req. exists None. reflexivity. Qed.

(** C1, as the code has it.  For a dataset longer than the chunk size there
    is a list of calls, in order one clear of the destination range, one
    update carrying the first chunk and one append for each further chunk,
    ceil(len/chunkSize) - 1 of them, no chunk longer than the chunk size and
    the chunks concatenating to the dataset, that the chunked write path
    works through: the calls that resolved are always a prefix of the list;
    the path returns exactly when the whole list resolved, and then every
    call it sent is one of the list; it throws at the first call whose
    attempts all failed, and then it sent nothing but the calls that
    resolved and that one call, so no later call of the list.  When the
    service rejects no call (and at least one attempt is allowed) the path
    returns and the calls it sends are exactly the list.  Both variants of
    the processor behave so. *)
Theorem chunked_write_calls (service : list Event -> Request -> Reply) (cfg : Config)
    (destinationSpreadsheetId destinationRange : Cell) (data : Rows) h c :
  0 < CHUNK_SIZE cfg ->
  CHUNK_SIZE cfg < len data ->
  exists expected : list Request,
    chunked_calls destinationSpreadsheetId destinationRange (CHUNK_SIZE cfg) data expected
    /\ works_through expected
         (completion (IndexJs.updateDestinationInChunks service cfg
                        destinationSpreadsheetId destinationRange data h c))
         (emitted (IndexJs.updateDestinationInChunks service cfg
                     destinationSpreadsheetId destinationRange data h c))
    /\ (completion (IndexJs.updateDestinationInChunks service cfg
                      destinationSpreadsheetId destinationRange data h c) = Return tt ->
        succeeded (emitted (IndexJs.updateDestinationInChunks service cfg
                              destinationSpreadsheetId destinationRange data h c))
        = expected)
    /\ (never_fails service -> 1 <= MAX_RETRIES cfg ->
        completion (IndexJs.updateDestinationInChunks service cfg
                      destinationSpreadsheetId destinationRange data h c) = Return tt
        /\ requests (emitted (IndexJs.updateDestinationInChunks service cfg
                                destinationSpreadsheetId destinationRange data h c))
           = expected)
    /\ works_through expected
         (completion (Part001.updateDestinationInChunks service cfg
                        destinationSpreadsheetId destinationRange data h c))
         (emitted (Part001.updateDestinationInChunks service cfg
                     destinationSpreadsheetId destinationRange data h c))
    /\ (completion (Part001.updateDestinationInChunks service cfg
                      destinationSpreadsheetId destinationRange data h c) = Return tt ->
        succeeded (emitted (Part001.updateDestinationInChunks service cfg
                              destinationSpreadsheetId destinationRange data h c))
        = expected)
    /\ (never_fails service -> 1 <= MAX_RETRIES cfg ->
        completion (Part001.updateDestinationInChunks service cfg
                      destinationSpreadsheetId destinationRange data h c) = Return tt
        /\ requests (emitted (Part001.updateDestinationInChunks service cfg
                                destinationSpreadsheetId destinationRange data h c))
           = expected).
Proof.
  intros Hsize Hlen.
  exists (chunk_calls destinationSpreadsheetId destinationRange (CHUNK_SIZE cfg) data).
  split; [apply chunked_calls_chunk_calls; assumption |].
  split; [apply index_chunked_works; assumption |].
  split.
  { intros Hret. rewrite index_chunked_succeeded by assumption.
    unfold chunk_calls. rewrite chunkArray_first by lia. reflexivity. }
  split.
  { intros Hok Hmax.
    destruct (@index_chunked_ok service cfg destinationSpreadsheetId destinationRange
                data Hsize h c Hok Hmax Hlen) as (Hc & Hq & _).
    split; [exact Hc |]. rewrite Hq.
    unfold chunk_calls. rewrite chunkArray_first by lia. reflexivity. }
  split; [apply part001_chunked_works; assumption |].
  split.
  { intros Hret. rewrite part001_chunked_succeeded by assumption.
    unfold chunk_calls. rewrite chunkArray_first by lia. reflexivity. }
  intros Hok Hmax.
  destruct (@part001_chunked_ok service cfg destinationSpreadsheetId destinationRange
              data Hsize h c Hok Hmax Hlen) as (Hc & Hq).
  split; [exact Hc |]. rewrite Hq.
  unfold chunk_calls. rewrite chunkArray_first by lia. reflexivity.
Qed.

Lemma chunked_write_calls_witness :
  exists expected : list Request,
    chunked_calls dest_id dest_range 5000 (sample_rows 5001) expected
    /\ works_through expected
         (completion (IndexJs.updateDestinationInChunks ok_service IndexJs.CONFIG
                        dest_id dest_range (sample_rows 5001) [] c0))
         (emitted (IndexJs.updateDestinationInChunks ok_service IndexJs.CONFIG
                     dest_id dest_range (sample_rows 5001) [] c0))
    /\ succeeded (emitted (IndexJs.updateDestinationInChunks ok_service IndexJs.CONFIG
                             dest_id dest_range (sample_rows 5001) [] c0))
       = expected
    /\ requests (emitted (IndexJs.updateDestinationInChunks ok_service IndexJs.CONFIG
                            dest_id dest_range (sample_rows 5001) [] c0))
       = expected
    /\ works_through expected
         (completion (Part001.updateDestinationInChunks ok_service IndexJs.CONFIG
                        dest_id dest_range (sample_rows 5001) [] c0))
         (emitted (Part001.updateDestinationInChunks ok_service IndexJs.CONFIG
                     dest_id dest_range (sample_rows 5001) [] c0))
    /\ requests (emitted (Part001.updateDestinationInChunks ok_service IndexJs.CONFIG
                            dest_id dest_range (sample_rows 5001) [] c0))
       = expected.
Proof.
  destruct (@chunked_write_calls ok_service IndexJs.CONFIG dest_id dest_range
              (sample_rows 5001) [] c0)
    as (expected & H0 & H1 & H2 & H3 & H4 & _ & H6); [reflexivity | reflexivity |].
  exists expected.
  split; [exact H0 |]. split; [exact H1 |].
  split; [apply H2; vm_compute; reflexivity |].
  split; [apply H3; [apply ok_service_never_fails | discriminate] |].
  split; [exact H4 |].
  apply H6; [apply ok_service_never_fails | discriminate].
Defined.

(** C1 as the specification words it fails: when the service rejects every
    call, the path sends the clear three times and then throws, so there is
    no update and no append, neither sent nor resolved. *)
Lemma chunked_write_calls_service_down :
  requests (emitted (IndexJs.updateDestinationInChunks down_service IndexJs.CONFIG
                       dest_id dest_range (sample_rows 5001) [] c0))
  = [Clear dest_id dest_range; Clear dest_id dest_range; Clear dest_id dest_range]
  /\ ~ chunked_calls dest_id dest_range 5000 (sample_rows 5001)
         (requests (emitted (IndexJs.updateDestinationInChunks down_service IndexJs.CONFIG
                               dest_id dest_range (sample_rows 5001) [] c0)))
  /\ ~ chunked_calls dest_id dest_range 5000 (sample_rows 5001)
         (succeeded (emitted (IndexJs.updateDestinationInChunks down_service
                                IndexJs.CONFIG dest_id dest_range (sample_rows 5001)
                                [] c0))).
Proof.
  assert (Hreq : requests (emitted (IndexJs.updateDestinationInChunks down_service
                    IndexJs.CONFIG dest_id dest_range (sample_rows 5001) [] c0))
                 = [Clear dest_id dest_range; Clear dest_id dest_range;
                    Clear dest_id dest_range]) by (vm_compute; reflexivity).
  assert (Hsucc : succeeded (emitted (IndexJs.updateDestinationInChunks down_service
                    IndexJs.CONFIG dest_id dest_range (sample_rows 5001) [] c0)) = [])
    by (vm_compute; reflexivity).
  split; [exact Hreq |]. rewrite Hreq, Hsucc.
  split; intros (first & rest & Hcalls & _); discriminate Hcalls.
Qed.


(** ** BatchFetcher: statistics and requests, for every service *)

Section IndexCounters.

Variable service : list Event -> Request -> Reply.
Variable nowStr : list Event -> string.
Variable cfg : Config.

Lemma index_logToSheet_counters (spreadsheetId : Cell) (msg : string) h c :
  counters (IndexJs.logToSheet service nowStr cfg spreadsheetId msg h c) = c.
Proof.
  unfold IndexJs.logToSheet.
  match goal with
  | |- context [IndexJs.retryOperation ?op ?n] =>
      destruct (@index_retry_once _ op _ n h c (perform_calls_once _ _))
        as (r & evs & Hr & _)
  end.
  destruct r as [[] | t].
  - erewrite try_Return by exact Hr. reflexivity.
  - erewrite try_Throw by exact Hr. destruct t; reflexivity.
Qed.

(** What a job does to the counters, whatever happens to it: a fetch that
    threw counts one error, a fetch that returned rows counts one processed
    sheet, a fetch that returned no row counts nothing. *)
Lemma index_processJob_counters (row : Row) h c :
  counters (IndexJs.processJob service nowStr cfg row h c)
  = match completion (IndexJs.processSheetData service cfg
                        (at_index row 0) (at_index row 1) h c) with
    | Return rData =>
        if len rData =? 0 then c
        else mkCounters (processedCount c + 1) (errorCount c)
    | Throw _ => mkCounters (processedCount c) (errorCount c + 1)
    end.
Proof.
  unfold IndexJs.processSheetData.
  destruct (@index_retry_once _ (fetch_values service (at_index row 0) (at_index row 1))
              _ (MAX_RETRIES cfg) h c (fetch_values_calls_once _ _ _))
    as (r & e_f & Hr & _).
  rewrite Hr. cbn [completion fst].
  unfold IndexJs.processJob, IndexJs.processSheetData.
  destruct r as [rData | t].
  - destruct (len rData =? 0) eqn:E.
    + erewrite try_Return.
      2:{ erewrite bind_Return by exact Hr. rewrite E. unfold logger_info.
          rewrite bind_emit. reflexivity. }
      reflexivity.
    + erewrite try_Return.
      2:{ erewrite bind_Return by exact Hr. rewrite E.
          erewrite bind_Return by reflexivity. unfold logger_info.
          rewrite bind_emit. reflexivity. }
      reflexivity.
  - erewrite try_Throw by (erewrite bind_Throw by exact Hr; reflexivity).
    rewrite counters_after. erewrite bind_Return by reflexivity.
    rewrite counters_after. destruct t as [| | err].
    + reflexivity.
    + reflexivity.
    + erewrite bind_Return by reflexivity. rewrite counters_after.
      unfold logger_error at 1. rewrite bind_emit, counters_after.
      match goal with
      | |- counters (bind (IndexJs.logToSheet _ _ _ ?i ?m) _ ?h' ?c') = _ =>
          pose proof (index_logToSheet_counters i m h' c') as Hlog;
          destruct (IndexJs.logToSheet service nowStr cfg i m h' c') as [[[[] | t] e] c2] eqn:E
      end.
      * erewrite bind_Return by exact E. cbn [counters snd] in Hlog. subst c2. reflexivity.
      * erewrite bind_Throw by exact E. cbn [counters snd] in Hlog. subst c2. reflexivity.
Qed.

Lemma count_failed_cons (r : Completion Rows) (fs : list (Completion Rows)) :
  count_failed (r :: fs)
  = (match r with Throw _ => 1 | Return _ => 0 end) + count_failed fs.
Proof.
  unfold count_failed. unfold len at 1. destruct r; cbn [filter List.length].
  - reflexivity.
  - rewrite Nat2Z.inj_succ. unfold len. lia.
Qed.

Lemma count_nonempty_cons (r : Completion Rows) (fs : list (Completion Rows)) :
  count_nonempty (r :: fs)
  = (match r with
     | Return rData => if len rData =? 0 then 0 else 1
     | Throw _ => 0
     end) + count_nonempty fs.
Proof.
  unfold count_nonempty. unfold len at 1. destruct r as [rData | t]; cbn [filter].
  - destruct (len rData =? 0); cbn [negb List.length].
    + reflexivity.
    + rewrite Nat2Z.inj_succ. unfold len at 2. lia.
  - reflexivity.
Qed.

Lemma count_failed_app (a b : list (Completion Rows)) :
  count_failed (a ++ b) = count_failed a + count_failed b.
Proof. unfold count_failed. rewrite filter_app. apply len_app. Qed.

Lemma count_nonempty_app (a b : list (Completion Rows)) :
  count_nonempty (a ++ b) = count_nonempty a + count_nonempty b.
Proof. unfold count_nonempty. rewrite filter_app. apply len_app. Qed.

Lemma index_allSettled_counters (jobs : Rows) :
  forall h c,
    processedCount (counters (allSettled (map (IndexJs.processJob service nowStr cfg) jobs)
                                h c))
    = processedCount c + count_nonempty (job_fetches service nowStr cfg jobs h c)
    /\ errorCount (counters (allSettled (map (IndexJs.processJob service nowStr cfg) jobs)
                               h c))
       = errorCount c + count_failed (job_fetches service nowStr cfg jobs h c).
Proof.
  induction jobs as [| row rest IH]; intros h c.
  - cbn. unfold count_nonempty, count_failed, len. cbn. lia.
  - cbn [map job_fetches]. rewrite count_failed_cons, count_nonempty_cons.
    pose proof (index_processJob_counters row h c) as Hjob.
    destruct (IndexJs.processJob service nowStr cfg row h c) as [[r e] c1] eqn:Ejob.
    destruct (allSettled_total (map (IndexJs.processJob service nowStr cfg) rest)
                (h ++ e) c1) as (rs & e2 & c2 & Hrest).
    erewrite allSettled_cons by eassumption.
    destruct (IH (h ++ e) c1) as (IHp & IHe). rewrite Hrest in IHp, IHe.
    cbn [counters emitted fst snd] in *. rewrite IHp, IHe, Hjob.
    destruct (completion (IndexJs.processSheetData service cfg (at_index row 0)
                            (at_index row 1) h c)) as [rData | t].
    + destruct (len rData =? 0); cbn [processedCount errorCount]; lia.
    + cbn [processedCount errorCount]. lia.
Qed.

Lemma index_processBatch_counters (batch : Rows) (batchIndex : Z) h c :
  counters (IndexJs.processBatch service nowStr cfg batch batchIndex h c)
  = counters (allSettled (map (IndexJs.processJob service nowStr cfg) batch)
                (h ++ [batch_banner batch batchIndex]) c).
Proof.
  destruct (allSettled_total (map (IndexJs.processJob service nowStr cfg) batch)
              (h ++ [batch_banner batch batchIndex]) c) as (rs & evs & c' & Hall).
  destruct (@index_processBatch_run service nowStr cfg batch batchIndex h c _ _ _ Hall)
    as (e_end & Hrun & _).
  rewrite Hrun, Hall. reflexivity.
Qed.

Lemma index_batchLoop_counters (rows : Rows) (fuel : nat) :
  forall i finalData h c,
    processedCount (counters (IndexJs.batchLoop service nowStr cfg rows fuel i finalData h c))
    = processedCount c
      + count_nonempty (loop_fetches service nowStr cfg rows fuel i finalData h c)
    /\ errorCount (counters (IndexJs.batchLoop service nowStr cfg rows fuel i finalData h c))
       = errorCount c
         + count_failed (loop_fetches service nowStr cfg rows fuel i finalData h c).
Proof.
  induction fuel as [| fuel IH]; intros i finalData h c.
  - cbn. unfold count_nonempty, count_failed, len. cbn. lia.
  - cbn [IndexJs.batchLoop loop_fetches]. destruct (i <? len rows).
    2:{ cbn. unfold count_nonempty, count_failed, len. cbn. lia. }
    rewrite count_failed_app, count_nonempty_app.
    destruct (index_batchStep_run service nowStr cfg rows i finalData h c)
      as (batchResults & evs & c1 & Hb & e_end & Hstep & _).
    rewrite Hstep. cbn [completion emitted counters fst snd].
    erewrite bind_Return by exact Hstep. rewrite counters_after.
    destruct (IH (i + BATCH_SIZE cfg) (finalData ++ batchResults) (h ++ evs ++ e_end) c1)
      as (IHp & IHe).
    rewrite IHp, IHe.
    pose proof (index_processBatch_counters (slice rows i (i + BATCH_SIZE cfg))
                  (i / BATCH_SIZE cfg) h c) as Hc.
    rewrite Hb in Hc. cbn [counters snd] in Hc.
    destruct (index_allSettled_counters (slice rows i (i + BATCH_SIZE cfg))
                (h ++ [batch_banner (slice rows i (i + BATCH_SIZE cfg))
                         (i / BATCH_SIZE cfg)]) c) as (Hp & He).
    rewrite <- Hc in Hp, He. lia.
Qed.

End IndexCounters.

(** X6. The statistics of a run of index.js are exact, whatever the service
    does: after the batch loop, [errorCount] has grown by the number of jobs
    whose fetch threw and [processedCount] by the number of jobs whose fetch
    returned at least one row; a job whose fetch returned no row is counted
    in neither. *)
Theorem run_statistics_exact (service : list Event -> Request -> Reply)
    (nowStr : list Event -> string) (cfg : Config) (rows : Rows) h c :
  0 < BATCH_SIZE cfg ->
  processedCount (counters (IndexJs.batchLoop service nowStr cfg rows (List.length rows)
                              0 [] h c))
  = processedCount c
    + count_nonempty (loop_fetches service nowStr cfg rows (List.length rows) 0 [] h c)
  /\ errorCount (counters (IndexJs.batchLoop service nowStr cfg rows (List.length rows)
                             0 [] h c))
     = errorCount c
       + count_failed (loop_fetches service nowStr cfg rows (List.length rows) 0 [] h c)
  /\ List.length (loop_fetches service nowStr cfg rows (List.length rows) 0 [] h c)
     = List.length rows.
Proof.
  intros Hsize.
  destruct (index_batchLoop_counters service nowStr cfg rows (List.length rows) 0 [] h c)
    as (Hp & He).
  split; [exact Hp |]. split; [exact He |].
  assert (Hlen : forall fuel i finalData h c,
            List.length (loop_fetches service nowStr cfg rows fuel i finalData h c)
            = List.length (List.concat (chunkArrayLoop rows (BATCH_SIZE cfg) fuel i))).
  { induction fuel as [| fuel IH]; intros i finalData h' c'; [reflexivity |].
    cbn [loop_fetches chunkArrayLoop]. destruct (i <? len rows); [| reflexivity].
    cbn [List.concat]. rewrite !length_app, length_job_fetches, IH. reflexivity. }
  rewrite Hlen, chunkArrayLoop_concat by lia. reflexivity.
Qed.

Lemma run_statistics_exact_witness :
  processedCount (counters (IndexJs.batchLoop flaky_service noon IndexJs.CONFIG
                              [job_b; job_a; job_b] 3 0 [] [] c0))
  = processedCount c0
    + count_nonempty (loop_fetches flaky_service noon IndexJs.CONFIG
                        [job_b; job_a; job_b] 3 0 [] [] c0)
  /\ errorCount (counters (IndexJs.batchLoop flaky_service noon IndexJs.CONFIG
                             [job_b; job_a; job_b] 3 0 [] [] c0))
     = errorCount c0
       + count_failed (loop_fetches flaky_service noon IndexJs.CONFIG
                         [job_b; job_a; job_b] 3 0 [] [] c0)
  /\ List.length (loop_fetches flaky_service noon IndexJs.CONFIG
                    [job_b; job_a; job_b] 3 0 [] [] c0)
     = 3%nat.
Proof.
  apply (@run_statistics_exact flaky_service noon IndexJs.CONFIG [job_b; job_a; job_b]
           [] c0).
  reflexivity.
Defined.
(** ** A failed job and the rest of the run *)

Section IndexContributions.

Variable service : list Event -> Request -> Reply.
Variable nowStr : list Event -> string.
Variable cfg : Config.

Hypothesis one_attempt : 1 <= MAX_RETRIES cfg.

(** Whatever its fetch does, a job fulfils, with its contribution. *)
Lemma index_processJob_contribution (row : Row) h c :
  completion (IndexJs.processJob service nowStr cfg row h c)
  = Return (contribution row
              (completion (IndexJs.processSheetData service cfg (at_index row 0)
                             (at_index row 1) h c))).
Proof.
  destruct (IndexJs.processSheetData service cfg (at_index row 0) (at_index row 1) h c)
    as [[r e_f] c_f] eqn:Hfetch.
  destruct r as [rData | t].
  - destruct (@index_processJob_fetched service nowStr cfg row h c rData e_f c_f Hfetch)
      as (e & c' & Hjob & _).
    rewrite Hjob. reflexivity.
  - destruct (@index_processJob_failed service nowStr cfg row h c one_attempt)
      as (err & e_f' & e_log & stamp & _ & Hjob & _).
    { intros rData. rewrite Hfetch. discriminate. }
    rewrite Hjob. reflexivity.
Qed.

Lemma index_allSettled_contributions (jobs : Rows) :
  forall h c,
    completion (allSettled (map (IndexJs.processJob service nowStr cfg) jobs) h c)
    = Return (map Return
                (map (fun p => contribution (fst p) (snd p))
                     (combine jobs (job_fetches service nowStr cfg jobs h c)))).
Proof.
  induction jobs as [| row rest IH]; intros h c; [reflexivity |].
  cbn [map job_fetches combine fst snd].
  pose proof (index_processJob_contribution row h c) as Hjob.
  destruct (IndexJs.processJob service nowStr cfg row h c) as [[r e] c1] eqn:Ejob.
  cbn [completion emitted counters fst snd] in *. subst r.
  destruct (allSettled_total (map (IndexJs.processJob service nowStr cfg) rest)
              (h ++ e) c1) as (rs & e2 & c2 & Hrest).
  erewrite allSettled_cons by eassumption.
  specialize (IH (h ++ e) c1). rewrite Hrest in IH. cbn [completion fst] in IH.
  inversion IH as [Hrs]. reflexivity.
Qed.

Lemma index_processBatch_contributions (batch : Rows) (batchIndex : Z) h c :
  completion (IndexJs.processBatch service nowStr cfg batch batchIndex h c)
  = Return (contributions batch
              (job_fetches service nowStr cfg batch
                 (h ++ [batch_banner batch batchIndex]) c)).
Proof.
  destruct (allSettled_total (map (IndexJs.processJob service nowStr cfg) batch)
              (h ++ [batch_banner batch batchIndex]) c) as (rs & evs & c' & Hall).
  destruct (@index_processBatch_run service nowStr cfg batch batchIndex h c _ _ _ Hall)
    as (e_end & Hrun & _).
  rewrite Hrun. cbn [completion fst].
  pose proof (index_allSettled_contributions batch
                (h ++ [batch_banner batch batchIndex]) c) as Hc.
  rewrite Hall in Hc. cbn [completion fst] in Hc. inversion Hc as [Hrs].
  rewrite fulfilled_rows_Return. reflexivity.
Qed.

Lemma length_loop_fetches (rows : Rows) (fuel : nat) :
  forall i finalData h c,
    List.length (loop_fetches service nowStr cfg rows fuel i finalData h c)
    = List.length (List.concat (chunkArrayLoop rows (BATCH_SIZE cfg) fuel i)).
Proof.
  induction fuel as [| fuel IH]; intros i finalData h c; [reflexivity |].
  cbn [loop_fetches chunkArrayLoop]. destruct (i <? len rows); [| reflexivity].
  cbn [List.concat]. rewrite !length_app, length_job_fetches, IH. reflexivity.
Qed.

(** The batch loop of [run] returns the rows it started with followed by
    the contributions of all the jobs it visits, in order, whichever of
    them failed. *)
Lemma index_batchLoop_contributions (rows : Rows) (fuel : nat) :
  forall i finalData h c,
    completion (IndexJs.batchLoop service nowStr cfg rows fuel i finalData h c)
    = Return (finalData
              ++ contributions (List.concat (chunkArrayLoop rows (BATCH_SIZE cfg) fuel i))
                   (loop_fetches service nowStr cfg rows fuel i finalData h c)).
Proof.
  induction fuel as [| fuel IH]; intros i finalData h c.
  - cbn. rewrite app_nil_r. reflexivity.
  - cbn [loop_fetches IndexJs.batchLoop chunkArrayLoop].
    destruct (i <? len rows).
    2:{ cbn. rewrite app_nil_r. reflexivity. }
    set (batch := slice rows i (i + BATCH_SIZE cfg)).
    destruct (index_batchStep_run service nowStr cfg rows i finalData h c)
      as (batchResults & evs & c1 & Hb & e_end & Hstep & _).
    fold batch in Hb.
    pose proof (index_processBatch_contributions batch (i / BATCH_SIZE cfg) h c) as Hc.
    rewrite Hb in Hc. cbn [completion fst] in Hc. inversion Hc as [Hres]. clear Hc.
    rewrite Hstep. cbn [completion emitted counters fst snd].
    erewrite bind_Return by exact Hstep. rewrite completion_after.
    rewrite IH, Hres. unfold contributions. cbn [List.concat].
    rewrite combine_app_eq by (symmetry; apply length_job_fetches).
    rewrite map_app, concat_app, !app_assoc. reflexivity.
Qed.

(** The fetches of a batch, split at a job. *)
Lemma job_fetches_app (pre post : Rows) :
  forall h c,
    job_fetches service nowStr cfg (pre ++ post) h c
    = job_fetches service nowStr cfg pre h c
      ++ job_fetches service nowStr cfg post
           (h ++ emitted (allSettled (map (IndexJs.processJob service nowStr cfg) pre) h c))
           (counters (allSettled (map (IndexJs.processJob service nowStr cfg) pre) h c)).
Proof.
  induction pre as [| row pre IH]; intros h c.
  - cbn. rewrite app_nil_r. reflexivity.
  - cbn [app map job_fetches].
    destruct (IndexJs.processJob service nowStr cfg row h c) as [[r e] c1] eqn:Ejob.
    cbn [emitted counters fst snd]. rewrite IH.
    destruct (allSettled_total (map (IndexJs.processJob service nowStr cfg) pre)
                (h ++ e) c1) as (rs & e2 & c2 & Hrest).
    erewrite allSettled_cons by eassumption.
    rewrite Hrest. cbn [emitted counters fst snd app]. rewrite app_assoc. reflexivity.
Qed.

End IndexContributions.

(** C2. A job of a batch whose fetch exhausts its attempts fulfils with no
    rows, raises [errorCount] by exactly one (and leaves [processedCount]),
    and sends the append of its error message to the S_LOG range of its own
    destination spreadsheet; the batch still returns, with the rows of the
    jobs before it followed by the rows of the jobs after it, which all run.
    And the run proceeds: when this batch is the one the batch loop of [run]
    starts at offset [i] of the configuration rows, the loop fetches every
    job from [i] on, those of the later batches too, the failed fetch being
    one of them; it returns the rows collected so far followed by the
    contribution of each of these jobs, in order, nothing for a job whose
    fetch threw; and [errorCount] has grown by the number of fetches that
    threw. *)
Theorem failed_job_is_isolated (service : list Event -> Request -> Reply)
    (nowStr : list Event -> string) (cfg : Config)
    (pre : Rows) (row : Row) (post : Rows) (batchIndex : Z) h c (t : Thrown) :
  let batch := pre ++ row :: post in
  let h0 := h ++ [batch_banner batch batchIndex] in
  let before := allSettled (map (IndexJs.processJob service nowStr cfg) pre) h0 c in
  let h1 := h0 ++ emitted before in
  let c1 := counters before in
  let fetch :=
    IndexJs.processSheetData service cfg (at_index row 0) (at_index row 1) h1 c1 in
  let job := IndexJs.processJob service nowStr cfg row h1 c1 in
  let later :=
    allSettled (map (IndexJs.processJob service nowStr cfg) post)
               (h1 ++ emitted job) (counters job) in
  0 < BATCH_SIZE cfg ->
  1 <= MAX_RETRIES cfg ->
  completion fetch = Throw t ->
  completion job = Return []
  /\ errorCount (counters job) = errorCount c1 + 1
  /\ processedCount (counters job) = processedCount c1
  /\ (exists err stamp,
        t = TError err
        /\ In (Append (at_index row 2) IndexJs.S_LOG [[CStr stamp; CStr (message err)]])
              (requests (emitted job)))
  /\ completion (IndexJs.processBatch service nowStr cfg batch batchIndex h c)
     = Return (fulfilled_rows (settled before) ++ fulfilled_rows (settled later))
  /\ counters (IndexJs.processBatch service nowStr cfg batch batchIndex h c)
     = counters later
  /\ (forall (rows : Rows) (fuel : nat) (i : Z) (finalData : Rows),
        0 <= i < len rows ->
        (List.length rows - Z.to_nat i <= fuel)%nat ->
        slice rows i (i + BATCH_SIZE cfg) = batch ->
        i / BATCH_SIZE cfg = batchIndex ->
        let loop := IndexJs.batchLoop service nowStr cfg rows fuel i finalData h c in
        let fetches := loop_fetches service nowStr cfg rows fuel i finalData h c in
        let jobs := skipn (Z.to_nat i) rows in
        jobs = batch ++ skipn (Z.to_nat (i + BATCH_SIZE cfg)) rows
        /\ List.length fetches = List.length jobs
        /\ nth_error fetches (List.length pre) = Some (Throw t)
        /\ completion loop = Return (finalData ++ contributions jobs fetches)
        /\ errorCount (counters loop) = errorCount c + count_failed fetches).
Proof.
  intros batch h0 before h1 c1 fetch job later Hsize Hmax Hthrow.
  assert (Hfail : forall rData, completion fetch <> Return rData)
    by (intros rData; rewrite Hthrow; discriminate).
  destruct (allSettled_total (map (IndexJs.processJob service nowStr cfg) pre) h0 c)
    as (rs_pre & e_pre & c_pre & Hpre).
  assert (Hbefore : before = (Return rs_pre, e_pre, c_pre)) by exact Hpre.
  assert (Hh1 : h1 = h0 ++ e_pre) by (unfold h1; rewrite Hbefore; reflexivity).
  assert (Hc1 : c1 = c_pre) by (unfold c1; rewrite Hbefore; reflexivity).
  destruct (@index_processJob_failed service nowStr cfg row h1 c1 Hmax Hfail)
    as (err & e_f & e_log & stamp & Hfetch & Hjob & _ & _ & Hin).
  fold job in Hjob. fold fetch in Hfetch.
  destruct (allSettled_total (map (IndexJs.processJob service nowStr cfg) post)
              (h1 ++ emitted job) (counters job)) as (rs_post & e_post & c_post & Hpost).
  assert (Hlater : later = (Return rs_post, e_post, c_post)) by exact Hpost.
  assert (Hall : allSettled (map (IndexJs.processJob service nowStr cfg) batch) h0 c
                 = (Return (rs_pre ++ Return [] :: rs_post),
                    e_pre ++ (e_f ++ e_log) ++ e_post, c_post)).
  { unfold batch. rewrite map_app. cbn [map].
    eapply allSettled_app; [exact Hpre |].
    rewrite <- Hh1, <- Hc1.
    eapply allSettled_cons; [exact Hjob |].
    rewrite Hjob in Hpost. exact Hpost. }
  destruct (@index_processBatch_run service nowStr cfg batch batchIndex h c _ _ _ Hall)
    as (e_end & Hrun & _).
  split; [rewrite Hjob; reflexivity |].
  split; [rewrite Hjob; reflexivity |].
  split; [rewrite Hjob; reflexivity |].
  split.
  { rewrite Hfetch in Hthrow. cbn [completion fst] in Hthrow. inversion Hthrow; subst t.
    exists err, stamp. split; [reflexivity |].
    rewrite Hjob. cbn [emitted fst snd]. rewrite requests_app.
    apply in_or_app. right. exact Hin. }
  split.
  { rewrite Hrun, Hbefore, Hlater. cbn [completion settled fst].
    rewrite fulfilled_rows_app. reflexivity. }
  split; [rewrite Hrun, Hlater; reflexivity |].
  intros rows fuel i finalData Hi Hfuel Hslice Hindex loop fetches jobs.
  assert (Hjobs : jobs = batch ++ skipn (Z.to_nat (i + BATCH_SIZE cfg)) rows).
  { rewrite <- Hslice, slice_step. unfold jobs.
    replace (Z.to_nat (i + BATCH_SIZE cfg))
      with (Z.to_nat (BATCH_SIZE cfg) + Z.to_nat i)%nat by lia.
    rewrite <- skipn_skipn. symmetry. apply firstn_skipn. }
  split; [exact Hjobs |].
  split.
  { unfold fetches, jobs. rewrite length_loop_fetches.
    rewrite chunkArrayLoop_concat by lia. reflexivity. }
  split.
  { unfold fetches. destruct fuel as [| fuel]; [unfold len in Hi; lia |].
    cbn [loop_fetches].
    replace (i <? len rows) with true by (symmetry; apply Z.ltb_lt; lia).
    rewrite Hslice, Hindex. fold h0.
    rewrite nth_error_app1
      by (rewrite length_job_fetches; unfold batch; rewrite length_app; cbn; lia).
    unfold batch. rewrite job_fetches_app. fold before. fold h1. fold c1.
    rewrite nth_error_app2 by (rewrite length_job_fetches; lia).
    rewrite length_job_fetches, Nat.sub_diag. cbn [job_fetches nth_error].
    fold fetch. rewrite Hthrow. reflexivity. }
  split.
  { unfold loop, fetches, jobs.
    rewrite (@index_batchLoop_contributions service nowStr cfg Hmax).
    rewrite chunkArrayLoop_concat by lia. reflexivity. }
  unfold loop, fetches.
  apply (index_batchLoop_counters service nowStr cfg rows fuel i finalData h c).
Qed.

Lemma failed_job_is_isolated_witness :
  let cfg := batches_of_two in
  let rows := [job_b; job_a; job_b] in
  let batch := [job_b] ++ job_a :: [] in
  let h0 := [] ++ [batch_banner batch 0] in
  let before := allSettled (map (IndexJs.processJob flaky_service noon cfg) [job_b]) h0 c0 in
  let h1 := h0 ++ emitted before in
  let c1 := counters before in
  let job := IndexJs.processJob flaky_service noon cfg job_a h1 c1 in
  let later :=
    allSettled (map (IndexJs.processJob flaky_service noon cfg) [])
               (h1 ++ emitted job) (counters job) in
  let loop := IndexJs.batchLoop flaky_service noon cfg rows 3 0 [] [] c0 in
  let fetches := loop_fetches flaky_service noon cfg rows 3 0 [] [] c0 in
  completion job = Return []
  /\ errorCount (counters job) = errorCount c1 + 1
  /\ processedCount (counters job) = processedCount c1
  /\ (exists err stamp,
        TError (mkError "Error" "Quota exceeded") = TError err
        /\ In (Append (at_index job_a 2) IndexJs.S_LOG [[CStr stamp; CStr (message err)]])
              (requests (emitted job)))
  /\ completion (IndexJs.processBatch flaky_service noon cfg batch 0 [] c0)
     = Return (fulfilled_rows (settled before) ++ fulfilled_rows (settled later))
  /\ counters (IndexJs.processBatch flaky_service noon cfg batch 0 [] c0)
     = counters later
  /\ rows = batch ++ [job_b]
  /\ List.length fetches = 3%nat
  /\ nth_error fetches 1 = Some (Throw (TError (mkError "Error" "Quota exceeded")))
  /\ completion loop = Return ([] ++ contributions rows fetches)
  /\ errorCount (counters loop) = errorCount c0 + count_failed fetches.
Proof.
  intros cfg rows batch h0 before h1 c1 job later loop fetches.
  destruct (@failed_job_is_isolated flaky_service noon cfg
              [job_b] job_a [] 0 [] c0 (TError (mkError "Error" "Quota exceeded")))
    as (H1 & H2 & H3 & H4 & H5 & H6 & H7).
  - reflexivity.
  - discriminate.
  - vm_compute. reflexivity.
  - destruct (H7 rows 3%nat 0 []) as (G1 & G2 & G3 & G4 & G5).
    + split; [discriminate | reflexivity].
    + apply Nat.le_refl.
    + reflexivity.
    + reflexivity.
    + repeat (split; [assumption |]). assumption.
Defined.

(** ** The fetch phase sends reads and error notes only *)

Lemma targets_read_or_log (req : Request) :
  targets CNull CNull req -> targets CUndefined CUndefined req -> is_read_or_log req.
Proof.
  destruct req as [i r | i r v | i r v | i r]; cbn; intros H1 H2.
  - exact I.
  - destruct H1 as [H1 _], H2 as [H2 _]. congruence.
  - destruct H1 as [H1 | [H1 _]]; [exact H1 |].
    destruct H2 as [H2 | [H2 _]]; [exact H2 | congruence].
  - destruct H1 as [H1 _], H2 as [H2 _]. congruence.
Qed.

Lemma emits_only_part001_retry {A} (P : Request -> Prop) (operation : Operation A) req n :
  calls_once req operation -> P req -> emits_only P (Part001.retryOperation operation n).
Proof.
  intros Hone HP h c.
  destruct (@part001_retry_once _ operation req n h c Hone) as (r & evs & Hr & Hreq & _).
  rewrite Hr. cbn [emitted fst snd].
  eapply Forall_impl; [| exact Hreq]. intros x <-. exact HP.
Qed.

Section Part001Batch.

Variable service : list Event -> Request -> Reply.
Variable cfg : Config.

Lemma emits_only_part001_processJob (row : Row) :
  emits_only is_read (Part001.processJob service cfg row).
Proof.
  unfold Part001.processJob. apply emits_only_try_catch.
  - apply emits_only_bind.
    + eapply emits_only_part001_retry; [apply fetch_values_calls_once |]. exact I.
    + intros rData. destruct (len rData =? 0); [apply emits_only_ret |].
      apply emits_only_bind; [intros h c; constructor |].
      intros; apply emits_only_ret.
  - intros t. apply emits_only_bind; [intros h c; constructor |].
    intros _. apply emits_only_bind; [apply emits_only_message_of |].
    intros msg. apply emits_only_bind; [apply emits_only_logger_error |].
    intros; apply emits_only_ret.
Qed.

Lemma emits_only_part001_processBatch (batch : Rows) (batchIndex : Z) :
  emits_only is_read (Part001.processBatch service cfg batch batchIndex).
Proof.
  unfold Part001.processBatch. apply emits_only_bind; [apply emits_only_logger_info |].
  intros _. apply emits_only_bind; [| intros; apply emits_only_ret].
  apply emits_only_allSettled. apply Forall_forall. intros p Hp.
  apply in_map_iff in Hp. destruct Hp as (row & <- & _).
  apply emits_only_part001_processJob.
Qed.

Lemma emits_only_part001_batchLoop (rows : Rows) (fuel : nat) :
  forall i finalData,
    emits_only is_read (Part001.batchLoop service cfg rows fuel i finalData).
Proof.
  induction fuel as [| fuel IH]; intros i finalData; [apply emits_only_ret |].
  cbn [Part001.batchLoop]. destruct (i <? len rows); [| apply emits_only_ret].
  apply emits_only_bind; [apply emits_only_part001_processBatch |].
  intros batchResults. apply emits_only_bind; [intros h c; constructor |].
  intros _. apply IH.
Qed.

Lemma part001_processBatch_returns (batch : Rows) (batchIndex : Z) h c :
  exists rows evs c',
    Part001.processBatch service cfg batch batchIndex h c = (Return rows, evs, c').
Proof.
  unfold Part001.processBatch, logger_info. rewrite bind_emit.
  match goal with
  | |- context [allSettled ?ps] =>
      destruct (allSettled_total ps (h ++ [batch_banner batch batchIndex]) c)
        as (rs & evs & c' & Hall)
  end.
  unfold batch_banner in Hall.
  erewrite bind_Return by exact Hall. eexists _, _, _. reflexivity.
Qed.

Lemma part001_batchLoop_returns (rows : Rows) (fuel : nat) :
  forall i finalData h c,
  exists data evs c',
    Part001.batchLoop service cfg rows fuel i finalData h c = (Return data, evs, c').
Proof.
  induction fuel as [| fuel IH]; intros i finalData h c.
  - eexists _, _, _. reflexivity.
  - cbn [Part001.batchLoop]. destruct (i <? len rows); [| eexists _, _, _; reflexivity].
    destruct (part001_processBatch_returns (slice rows i (i + BATCH_SIZE cfg))
                (i / BATCH_SIZE cfg) h c) as (batchResults & evs & c1 & Hb).
    erewrite bind_Return by exact Hb.
    erewrite bind_Return by reflexivity.
    match goal with
    | |- context [Part001.batchLoop service cfg rows fuel ?j ?d ?h' ?c''] =>
        destruct (IH j d h' c'') as (data & e2 & c2 & Hrest); rewrite Hrest
    end.
    eexists _, _, _. reflexivity.
Qed.

End Part001Batch.

(** X7. The fetch phase never throws and never writes data, whatever the
    service does and whatever the configuration holds: the batch loop of
    index.js returns, and each of its requests is a read or an append to an
    S_LOG range; the batch loop of the rewrite returns, and each of its
    requests is a read. *)
Theorem fetch_phase_reads_and_logs_only (service : list Event -> Request -> Reply)
    (nowStr : list Event -> string) (cfg : Config) (rows : Rows) (fuel : nat)
    (i : Z) (finalData : Rows) h c :
  (exists data,
     completion (IndexJs.batchLoop service nowStr cfg rows fuel i finalData h c)
     = Return data)
  /\ Forall is_read_or_log
            (requests (emitted (IndexJs.batchLoop service nowStr cfg rows fuel i finalData
                                  h c)))
  /\ (exists data,
        completion (Part001.batchLoop service cfg rows fuel i finalData h c) = Return data)
  /\ Forall is_read
            (requests (emitted (Part001.batchLoop service cfg rows fuel i finalData h c))).
Proof.
  split; [| split; [| split]].
  - destruct (index_batchLoop_returns service nowStr cfg rows fuel i finalData h c)
      as (data & evs & c' & Hr).
    exists data. rewrite Hr. reflexivity.
  - pose proof (@emits_only_index_batchLoop service nowStr cfg CNull CNull rows fuel
                  i finalData h c) as H1.
    pose proof (@emits_only_index_batchLoop service nowStr cfg CUndefined CUndefined rows
                  fuel i finalData h c) as H2.
    rewrite Forall_forall in *. intros req Hin.
    apply targets_read_or_log; [apply H1 | apply H2]; exact Hin.
  - destruct (part001_batchLoop_returns service cfg rows fuel i finalData h c)
      as (data & evs & c' & Hr).
    exists data. rewrite Hr. reflexivity.
  - apply emits_only_part001_batchLoop.
Qed.

(** ** The fetch phase with a service that rejects nothing *)

Lemma retry_fetch_ok (service : list Event -> Request -> Reply) (i r : Cell) n h c :
  never_fails service -> 1 <= n ->
  exists values,
    service (h ++ [EThrottle]) (Get i r) = inr values
    /\ IndexJs.retryOperation (fetch_values service i r) n h c
    = (Return (match values with Some v => v | None => [] end),
       [EThrottle; EInvoke; ERemote (Get i r) (inr values)], c)
    /\ Part001.retryOperation (fetch_values service i r) n h c
       = (Return (match values with Some v => v | None => [] end),
          [EThrottle; EInvoke; ERemote (Get i r) (inr values)], c).
Proof.
  intros Hok Hn. destruct (Hok (h ++ [EThrottle]) (Get i r)) as (values & Hv).
  exists values. unfold IndexJs.retryOperation, Part001.retryOperation, attempts_upto.
  replace (Z.to_nat n) with (S (Z.to_nat (n - 1))) by lia. cbn [seq map].
  assert (Hop : fetch_values service i r (h ++ [EThrottle])
                = (inr (match values with Some v => v | None => [] end),
                   [(Get i r, inr values)])).
  { unfold fetch_values. rewrite Hv. destruct values; reflexivity. }
  erewrite index_retryLoop_cons by exact Hop.
  erewrite part001_retryLoop_cons by exact Hop.
  split; [exact Hv | split; reflexivity].
Qed.

Lemma sends_exactly_ret {A} (v : A) : sends_exactly [] (ret v).
Proof. intros h c. split; reflexivity. Qed.

Lemma sends_exactly_bind {A B} (qs1 qs2 : list Request) (m : M A) (k : A -> M B) :
  sends_exactly qs1 m ->
  (forall h c t, completion (m h c) <> Throw t) ->
  (forall v, sends_exactly qs2 (k v)) ->
  sends_exactly (qs1 ++ qs2) (bind m k).
Proof.
  intros Hm Hret Hk h c. specialize (Hm h c). specialize (Hret h c).
  destruct (m h c) as [[[v | t] e] c1] eqn:E.
  - erewrite bind_Return by exact E. rewrite emitted_after, counters_after, requests_app.
    cbn [emitted counters fst snd] in Hm. destruct Hm as (Hq & Hc).
    destruct (Hk v (h ++ e) c1) as (Hq2 & Hc2). rewrite Hq, Hq2, Hc2, Hc.
    split; reflexivity.
  - exfalso. apply (Hret t). reflexivity.
Qed.

Lemma sends_exactly_allSettled (job : Row -> M Rows) (jobs : Rows) :
  (forall row, sends_exactly [job_read row] (job row)) ->
  sends_exactly (map job_read jobs) (allSettled (map job jobs)).
Proof.
  intros Hjob. induction jobs as [| row rest IH]; intros h c.
  - split; reflexivity.
  - cbn [map]. destruct (job row h c) as [[r e] c1] eqn:Ejob.
    destruct (allSettled_total (map job rest) (h ++ e) c1) as (rs & e2 & c2 & Hrest).
    erewrite allSettled_cons by eassumption.
    destruct (Hjob row h c) as (Hq & Hc). rewrite Ejob in Hq, Hc.
    destruct (IH (h ++ e) c1) as (Hq2 & Hc2). rewrite Hrest in Hq2, Hc2.
    cbn [emitted counters fst snd] in *. rewrite requests_app, Hq, Hq2, Hc2, Hc.
    split; reflexivity.
Qed.

Section HappyFetch.

Variable service : list Event -> Request -> Reply.
Variable nowStr : list Event -> string.
Variable cfg : Config.
Hypothesis service_ok : never_fails service.
Hypothesis one_attempt : 1 <= MAX_RETRIES cfg.

Lemma index_processJob_sends (row : Row) :
  sends_exactly [job_read row] (IndexJs.processJob service nowStr cfg row).
Proof.
  intros h c.
  destruct (@retry_fetch_ok service (at_index row 0) (at_index row 1) (MAX_RETRIES cfg)
              h c service_ok one_attempt) as (values & _ & Hf & _).
  destruct (@index_processJob_fetched service nowStr cfg row h c _ _ _ Hf)
    as (e & c' & Hjob & Hq & Hc).
  rewrite Hjob. cbn [emitted counters fst snd]. rewrite requests_app, Hq.
  split; [reflexivity | exact Hc].
Qed.

Lemma part001_processJob_sends (row : Row) :
  sends_exactly [job_read row] (Part001.processJob service cfg row).
Proof.
  intros h c.
  destruct (@retry_fetch_ok service (at_index row 0) (at_index row 1) (MAX_RETRIES cfg)
              h c service_ok one_attempt) as (values & _ & _ & Hf).
  unfold Part001.processJob, Part001.processSheetData.
  match goal with
  | |- context [try_catch ?m _] =>
      assert (Hbody : exists r c',
                 m h c = (Return r,
                          [EThrottle; EInvoke;
                           ERemote (Get (at_index row 0) (at_index row 1)) (inr values)],
                          c')
                 /\ errorCount c' = errorCount c)
  end.
  { erewrite bind_Return by exact Hf.
    match goal with |- context [if ?b then _ else _] => destruct b end.
    - eexists _, _. split; reflexivity.
    - erewrite bind_Return by reflexivity. eexists _, _. split; reflexivity. }
  destruct Hbody as (r & c' & Hbody & Hc).
  erewrite try_Return by exact Hbody. split; [reflexivity | exact Hc].
Qed.

Lemma index_processBatch_sends (batch : Rows) (batchIndex : Z) :
  sends_exactly (map job_read batch)
                (IndexJs.processBatch service nowStr cfg batch batchIndex).
Proof.
  intros h c.
  destruct (allSettled_total (map (IndexJs.processJob service nowStr cfg) batch)
              (h ++ [batch_banner batch batchIndex]) c) as (rs & evs & c' & Hall).
  destruct (@index_processBatch_run service nowStr cfg batch batchIndex h c _ _ _ Hall)
    as (e_end & Hrun & Hq).
  rewrite Hrun.
  destruct (sends_exactly_allSettled (IndexJs.processJob service nowStr cfg) batch
              index_processJob_sends (h ++ [batch_banner batch batchIndex]) c)
    as (Hqs & Hc).
  rewrite Hall in Hqs, Hc. cbn [emitted counters fst snd] in *.
  change (batch_banner batch batchIndex :: evs ++ e_end)
    with ([batch_banner batch batchIndex] ++ evs ++ e_end).
  rewrite !requests_app, Hq, Hqs, app_nil_r. split; [reflexivity | exact Hc].
Qed.

Lemma part001_processBatch_sends (batch : Rows) (batchIndex : Z) :
  sends_exactly (map job_read batch) (Part001.processBatch service cfg batch batchIndex).
Proof.
  intros h c. unfold Part001.processBatch, logger_info. rewrite bind_emit.
  fold (batch_banner batch batchIndex).
  destruct (allSettled_total (map (Part001.processJob service cfg) batch)
              (h ++ [batch_banner batch batchIndex]) c) as (rs & evs & c' & Hall).
  destruct (sends_exactly_allSettled (Part001.processJob service cfg) batch
              part001_processJob_sends (h ++ [batch_banner batch batchIndex]) c)
    as (Hqs & Hc).
  erewrite bind_Return by exact Hall.
  rewrite Hall in Hqs, Hc. cbn [emitted counters fst snd after ret] in *.
  rewrite app_nil_r.
  change (batch_banner batch batchIndex :: evs)
    with ([batch_banner batch batchIndex] ++ evs).
  rewrite requests_app, Hqs. split; [reflexivity | exact Hc].
Qed.

Lemma index_batchLoop_sends (rows : Rows) (fuel : nat) :
  forall i finalData,
    sends_exactly
      (map job_read (List.concat (chunkArrayLoop rows (BATCH_SIZE cfg) fuel i)))
      (IndexJs.batchLoop service nowStr cfg rows fuel i finalData).
Proof.
  induction fuel as [| fuel IH]; intros i finalData; [apply sends_exactly_ret |].
  cbn [IndexJs.batchLoop chunkArrayLoop]. destruct (i <? len rows); [| apply sends_exactly_ret].
  cbn [List.concat]. rewrite map_app.
  apply sends_exactly_bind; [| | intros data; apply IH].
  - intros h c.
    destruct (index_batchStep_run service nowStr cfg rows i finalData h c)
      as (batchResults & evs & c1 & Hb & e_end & Hstep & Hq).
    rewrite Hstep.
    destruct (index_processBatch_sends (slice rows i (i + BATCH_SIZE cfg))
                (i / BATCH_SIZE cfg) h c) as (Hqs & Hc).
    rewrite Hb in Hqs, Hc. cbn [emitted counters fst snd] in *.
    rewrite requests_app, Hq, app_nil_r. split; [exact Hqs | exact Hc].
  - intros h c t.
    destruct (index_batchStep_run service nowStr cfg rows i finalData h c)
      as (batchResults & evs & c1 & _ & e_end & Hstep & _).
    rewrite Hstep. discriminate.
Qed.

Lemma part001_batchLoop_sends (rows : Rows) (fuel : nat) :
  forall i finalData,
    sends_exactly
      (map job_read (List.concat (chunkArrayLoop rows (BATCH_SIZE cfg) fuel i)))
      (Part001.batchLoop service cfg rows fuel i finalData).
Proof.
  induction fuel as [| fuel IH]; intros i finalData; [apply sends_exactly_ret |].
  cbn [Part001.batchLoop chunkArrayLoop]. destruct (i <? len rows); [| apply sends_exactly_ret].
  cbn [List.concat]. rewrite map_app.
  apply sends_exactly_bind.
  - apply part001_processBatch_sends.
  - intros h c t.
    destruct (part001_processBatch_returns service cfg (slice rows i (i + BATCH_SIZE cfg))
                (i / BATCH_SIZE cfg) h c) as (data & evs & c1 & Hb).
    rewrite Hb. discriminate.
  - intros batchResults.
    change (map job_read (List.concat (chunkArrayLoop rows (BATCH_SIZE cfg) fuel
                                         (i + BATCH_SIZE cfg))))
      with ([] ++ map job_read (List.concat (chunkArrayLoop rows (BATCH_SIZE cfg) fuel
                                               (i + BATCH_SIZE cfg)))).
    apply sends_exactly_bind; [| intros h c t; discriminate | intros _; apply IH].
    intros h c. split; reflexivity.
Qed.

End HappyFetch.

(** The reads in job order are reads batch after batch. *)
Lemma reads_by_batch_in_order (rows : Rows) (size : Z) :
  0 < size -> reads_by_batch rows size (map job_read rows).
Proof.
  intros Hsize. exists (map (map job_read) (chunkArray rows size)). split.
  - rewrite <- concat_map. f_equal. unfold chunkArray.
    rewrite chunkArrayLoop_concat by lia. reflexivity.
  - induction (chunkArray rows size) as [| batch batches IH]; constructor.
    + apply Permutation_refl.
    + exact IH.
Qed.

(** X8. With a service that rejects nothing, at least one attempt allowed
    and a positive batch size, the fetch phase of either variant sends
    exactly one read per configuration row and nothing else, the reads of a
    batch (in whatever order) before those of the next batch; no error is
    counted. *)
Theorem fetch_phase_one_read_per_job (service : list Event -> Request -> Reply)
    (nowStr : list Event -> string) (cfg : Config) (rows : Rows) h c :
  never_fails service ->
  1 <= MAX_RETRIES cfg ->
  0 < BATCH_SIZE cfg ->
  reads_by_batch rows (BATCH_SIZE cfg)
    (requests (emitted (IndexJs.batchLoop service nowStr cfg rows (List.length rows)
                          0 [] h c)))
  /\ errorCount (counters (IndexJs.batchLoop service nowStr cfg rows (List.length rows)
                             0 [] h c))
     = errorCount c
  /\ reads_by_batch rows (BATCH_SIZE cfg)
       (requests (emitted (Part001.batchLoop service cfg rows (List.length rows)
                             0 [] h c)))
  /\ errorCount (counters (Part001.batchLoop service cfg rows (List.length rows) 0 [] h c))
     = errorCount c.
Proof.
  intros Hok Hmax Hsize.
  destruct (@index_batchLoop_sends service nowStr cfg Hok Hmax rows (List.length rows)
              0 [] h c) as (Hq1 & Hc1).
  destruct (@part001_batchLoop_sends service cfg Hok Hmax rows (List.length rows)
              0 [] h c) as (Hq2 & Hc2).
  rewrite chunkArrayLoop_concat in Hq1, Hq2 by lia.
  cbn [Z.to_nat skipn] in Hq1, Hq2. rewrite Hq1, Hq2.
  split; [apply reads_by_batch_in_order, Hsize |]. split; [exact Hc1 |].
  split; [apply reads_by_batch_in_order, Hsize | exact Hc2].
Qed.

Lemma fetch_phase_one_read_per_job_witness :
  reads_by_batch [job_a; job_b; job_a] 2
    (requests (emitted (IndexJs.batchLoop ok_service noon batches_of_two
                          [job_a; job_b; job_a] 3 0 [] [] c0)))
  /\ errorCount (counters (IndexJs.batchLoop ok_service noon batches_of_two
                             [job_a; job_b; job_a] 3 0 [] [] c0))
     = errorCount c0
  /\ reads_by_batch [job_a; job_b; job_a] 2
       (requests (emitted (Part001.batchLoop ok_service batches_of_two
                             [job_a; job_b; job_a] 3 0 [] [] c0)))
  /\ errorCount (counters (Part001.batchLoop ok_service batches_of_two
                             [job_a; job_b; job_a] 3 0 [] [] c0))
     = errorCount c0.
Proof.
  apply (@fetch_phase_one_read_per_job ok_service noon batches_of_two
           [job_a; job_b; job_a] [] c0).
  - intros h req. eexists. reflexivity.
  - cbn. lia.
  - cbn. lia.
Defined.

(** ** What [run] throws *)

Lemma never_throws_errors {A} (m : M A) : never_throws m -> throws_errors m.
Proof. intros Hm h c t Ht. exfalso. exact (Hm h c t Ht). Qed.

Lemma never_throws_ret {A} (v : A) : never_throws (ret v).
Proof. intros h c t. discriminate. Qed.

Lemma never_throws_emit (e : Event) : never_throws (emit e).
Proof. intros h c t. discriminate. Qed.

Lemma never_throws_bind {A B} (m : M A) (k : A -> M B) :
  never_throws m -> (forall v, never_throws (k v)) -> never_throws (bind m k).
Proof.
  intros Hm Hk h c t. specialize (Hm h c).
  destruct (m h c) as [[[v | t'] e] c1] eqn:E.
  - erewrite bind_Return by exact E. rewrite completion_after. apply Hk.
  - exfalso. apply (Hm t'). reflexivity.
Qed.

Lemma throws_errors_bind {A B} (m : M A) (k : A -> M B) :
  throws_errors m -> (forall v, throws_errors (k v)) -> throws_errors (bind m k).
Proof.
  intros Hm Hk h c t. specialize (Hm h c).
  destruct (m h c) as [[[v | t'] e] c1] eqn:E.
  - erewrite bind_Return by exact E. rewrite completion_after. apply Hk.
  - erewrite bind_Throw by exact E. intros Ht. apply Hm.
    cbn [completion fst] in *. inversion Ht. reflexivity.
Qed.

Lemma throws_errors_throw {A} (err : JsError) : throws_errors (@throw A (TError err)).
Proof. intros h c t Ht. exists err. inversion Ht. reflexivity. Qed.

Lemma throws_errors_message_of (t : Thrown) : throws_errors (message_of t).
Proof.
  destruct t as [| | err].
  - apply throws_errors_throw.
  - apply throws_errors_throw.
  - apply never_throws_errors, never_throws_ret.
Qed.

Lemma throws_errors_try_catch {A} (m : M A) (handler : Thrown -> M A) :
  (forall t, throws_errors (handler t)) -> throws_errors (try_catch m handler).
Proof.
  intros Hk h c t.
  destruct (m h c) as [[[v | t'] e] c1] eqn:E.
  - erewrite try_Return by exact E. discriminate.
  - erewrite try_Throw by exact E. rewrite completion_after. apply Hk.
Qed.

(** A [try] whose block throws Error objects only and whose handler does not
    throw on them never throws. *)
Lemma never_throws_try_catch {A} (m : M A) (handler : Thrown -> M A) :
  throws_errors m ->
  (forall err, never_throws (handler (TError err))) ->
  never_throws (try_catch m handler).
Proof.
  intros Hm Hk h c t. specialize (Hm h c).
  destruct (m h c) as [[[v | t'] e] c1] eqn:E.
  - erewrite try_Return by exact E. discriminate.
  - erewrite try_Throw by exact E. rewrite completion_after.
    destruct (Hm t' eq_refl) as (err & ->). apply Hk.
Qed.

Lemma throws_errors_index_retry {A} (operation : Operation A) (n : Z) :
  rejects_with_Errors operation ->
  1 <= n -> throws_errors (IndexJs.retryOperation operation n).
Proof.
  intros Hrej Hn h c t Ht.
  destruct (@index_retryOperation_Retry _ operation n h c Hn) as (r & evs & Hr & HR).
  rewrite Hr in Ht. cbn [completion fst] in Ht. subst r.
  exact (Retry_throws_error Hrej HR).
Qed.

Lemma throws_errors_part001_retry {A} (operation : Operation A) (n : Z) :
  rejects_with_Errors operation ->
  1 <= n -> throws_errors (Part001.retryOperation operation n).
Proof.
  intros Hrej Hn h c t Ht.
  destruct (@part001_retryOperation_Retry _ operation n h c Hn) as (r & evs & Hr & HR).
  rewrite Hr in Ht. cbn [completion fst] in Ht. subst r.
  exact (Retry_throws_error Hrej HR).
Qed.

(** The operations of the processor reject with the [Error] of their call. *)
Lemma perform_rejects_with_Errors (service : list Event -> Request -> Reply) req :
  rejects_with_Errors (perform service req).
Proof. exact (calls_once_rejects (perform_calls_once service req)). Qed.

Lemma fetch_values_rejects_with_Errors (service : list Event -> Request -> Reply) i r :
  rejects_with_Errors (fetch_values service i r).
Proof. exact (calls_once_rejects (fetch_values_calls_once service i r)). Qed.

Ltac service_operation :=
  first [ apply perform_rejects_with_Errors
        | apply fetch_values_rejects_with_Errors
        | match goal with
          | |- rejects_with_Errors (if ?b then _ else _) =>
              destruct b; apply perform_rejects_with_Errors
          end ].

Section RunThrows.

Variable service : list Event -> Request -> Reply.
Variable nowStr : list Event -> string.
Variable cfg : Config.
Hypothesis one_attempt : 1 <= MAX_RETRIES cfg.

Lemma never_throws_index_logToSheet (spreadsheetId : Cell) (msg : string) :
  never_throws (IndexJs.logToSheet service nowStr cfg spreadsheetId msg).
Proof.
  intros h c t.
  destruct (@index_logToSheet_returns service nowStr cfg spreadsheetId msg h c one_attempt)
    as (evs & Hr & _).
  rewrite Hr. discriminate.
Qed.

Lemma never_throws_index_batchLoop (rows : Rows) (fuel : nat) (i : Z) (finalData : Rows) :
  never_throws (IndexJs.batchLoop service nowStr cfg rows fuel i finalData).
Proof.
  intros h c t.
  destruct (index_batchLoop_returns service nowStr cfg rows fuel i finalData h c)
    as (data & evs & c' & Hr).
  rewrite Hr. discriminate.
Qed.

Lemma never_throws_part001_batchLoop (rows : Rows) (fuel : nat) (i : Z) (finalData : Rows) :
  never_throws (Part001.batchLoop service cfg rows fuel i finalData).
Proof.
  intros h c t.
  destruct (part001_batchLoop_returns service cfg rows fuel i finalData h c)
    as (data & evs & c' & Hr).
  rewrite Hr. discriminate.
Qed.

Lemma throws_errors_index_getConfigurationData :
  throws_errors (IndexJs.getConfigurationData service cfg).
Proof.
  unfold IndexJs.getConfigurationData. apply throws_errors_bind.
  - apply never_throws_errors, never_throws_emit.
  - intros _. apply throws_errors_index_retry; [service_operation | exact one_attempt].
Qed.

Lemma throws_errors_part001_getConfigurationData :
  throws_errors (Part001.getConfigurationData service cfg).
Proof.
  unfold Part001.getConfigurationData. apply throws_errors_bind.
  - apply never_throws_errors, never_throws_emit.
  - intros _. apply throws_errors_part001_retry; [service_operation | exact one_attempt].
Qed.

Lemma throws_errors_index_updateDestination (dest range : Cell) (data : Rows) :
  throws_errors (IndexJs.updateDestination service cfg dest range data).
Proof.
  unfold IndexJs.updateDestination. apply throws_errors_bind.
  - apply throws_errors_index_retry; [service_operation | exact one_attempt].
  - intros _. apply throws_errors_index_retry; [service_operation | exact one_attempt].
Qed.

Lemma throws_errors_part001_updateDestination (dest range : Cell) (data : Rows) :
  throws_errors (Part001.updateDestination service cfg dest range data).
Proof.
  unfold Part001.updateDestination. apply throws_errors_bind.
  - apply throws_errors_part001_retry; [service_operation | exact one_attempt].
  - intros _. apply throws_errors_part001_retry; [service_operation | exact one_attempt].
Qed.

Lemma throws_errors_index_chunkLoop (dest range : Cell) (data : Rows) (fuel : nat) :
  forall i, throws_errors (IndexJs.chunkLoop service cfg dest range data fuel i).
Proof.
  induction fuel as [| fuel IH]; intros i;
    [apply never_throws_errors, never_throws_ret |].
  cbn [IndexJs.chunkLoop].
  destruct (i <? len data); [| apply never_throws_errors, never_throws_ret].
  apply throws_errors_bind; [apply never_throws_errors, never_throws_emit |].
  intros _. apply throws_errors_bind; [| intros _; apply IH].
  apply throws_errors_index_retry; [service_operation | exact one_attempt].
Qed.

Lemma throws_errors_part001_chunkLoop (dest range : Cell) (data : Rows) (fuel : nat) :
  forall i, throws_errors (Part001.chunkLoop service cfg dest range data fuel i).
Proof.
  induction fuel as [| fuel IH]; intros i;
    [apply never_throws_errors, never_throws_ret |].
  cbn [Part001.chunkLoop].
  destruct (i <? len data); [| apply never_throws_errors, never_throws_ret].
  apply throws_errors_bind; [apply never_throws_errors, never_throws_emit |].
  intros _. apply throws_errors_bind; [| intros _; apply IH].
  apply throws_errors_try_catch. intros [| | err].
  - intros h c t Ht. erewrite bind_Throw in Ht by reflexivity.
    inversion Ht. eexists. reflexivity.
  - intros h c t Ht. erewrite bind_Throw in Ht by reflexivity.
    inversion Ht. eexists. reflexivity.
  - apply throws_errors_bind; [apply throws_errors_message_of |].
    intros _. apply throws_errors_bind; [apply never_throws_errors, never_throws_emit |].
    intros _. apply throws_errors_throw.
Qed.

Lemma throws_errors_index_updateDestinationInChunks (dest range : Cell) (data : Rows) :
  throws_errors (IndexJs.updateDestinationInChunks service cfg dest range data).
Proof.
  unfold IndexJs.updateDestinationInChunks.
  destruct (len data <=? CHUNK_SIZE cfg); [apply throws_errors_index_updateDestination |].
  apply throws_errors_bind; [apply never_throws_errors, never_throws_emit |].
  intros _. apply throws_errors_bind;
    [apply throws_errors_index_retry; [service_operation | exact one_attempt] |].
  intros _. apply throws_errors_index_chunkLoop.
Qed.

Lemma throws_errors_part001_updateDestinationInChunks (dest range : Cell) (data : Rows) :
  throws_errors (Part001.updateDestinationInChunks service cfg dest range data).
Proof.
  unfold Part001.updateDestinationInChunks.
  destruct (len data <=? CHUNK_SIZE cfg); [apply throws_errors_part001_updateDestination |].
  apply throws_errors_bind; [apply never_throws_errors, never_throws_emit |].
  intros _. apply throws_errors_bind;
    [apply throws_errors_part001_retry; [service_operation | exact one_attempt] |].
  intros _. apply throws_errors_part001_chunkLoop.
Qed.

Lemma throws_errors_index_run_try : throws_errors (index_run_try service nowStr cfg).
Proof.
  unfold index_run_try.
  apply throws_errors_bind.
  { apply never_throws_errors. unfold IndexJs.initialize.
    apply never_throws_bind; [apply never_throws_emit | intros _; apply never_throws_emit]. }
  intros _. apply throws_errors_bind; [apply throws_errors_index_getConfigurationData |].
  intros rows. apply throws_errors_bind; [apply never_throws_errors, never_throws_emit |].
  intros _. destruct (len rows =? 0); [apply never_throws_errors, never_throws_emit |].
  apply throws_errors_bind; [apply never_throws_errors, never_throws_index_batchLoop |].
  intros finalData.
  apply throws_errors_bind; [apply never_throws_errors, never_throws_emit |].
  intros _.
  apply throws_errors_bind; [| intros _; apply never_throws_errors, never_throws_emit].
  destruct (len rows >? 0); [| apply never_throws_errors, never_throws_ret].
  apply throws_errors_bind; [apply never_throws_errors, never_throws_emit |].
  intros _. apply throws_errors_bind.
  { match goal with |- context [if ?b then _ else _] => destruct b end;
      [apply throws_errors_index_updateDestinationInChunks
      | apply throws_errors_index_updateDestination]. }
  intros _.
  apply throws_errors_bind; [apply never_throws_errors, never_throws_index_logToSheet |].
  intros _. apply never_throws_errors, never_throws_emit.
Qed.

(** On an Error object the [catch] block of [run] ends in its [throw error]:
    neither the second configuration read nor the note it appends can get in
    the way. *)
Lemma index_run_catch_rethrows (err : JsError) h c :
  completion (index_run_catch service nowStr cfg (TError err) h c) = Throw (TError err).
Proof.
  unfold index_run_catch. erewrite bind_Return by reflexivity. rewrite completion_after.
  unfold logger_error at 1. rewrite bind_emit, completion_after.
  match goal with
  | |- completion (bind ?m _ ?h' ?c') = _ =>
      assert (Hm : never_throws m);
      [| specialize (Hm h' c'); destruct (m h' c') as [[[[] | t] e] c1] eqn:E ]
  end.
  - apply never_throws_try_catch.
    + apply throws_errors_bind; [apply throws_errors_index_getConfigurationData |].
      intros rows. destruct (len rows >? 0);
        [apply never_throws_errors, never_throws_index_logToSheet
        | apply never_throws_errors, never_throws_ret].
    + intros err'. apply never_throws_bind; [apply never_throws_ret |].
      intros _. apply never_throws_emit.
  - erewrite bind_Return by exact E. reflexivity.
  - exfalso. apply (Hm t). reflexivity.
Qed.

End RunThrows.

(** X9. With at least one attempt allowed, [run] of index.js completes exactly
    as its [try] block does: it returns when the block returns, and when the
    block throws it throws that very error, whatever happens while the
    [catch] block reads the configuration again and appends its note; [main]
    then exits with 0 in the first case and with 1 in the second. *)
Theorem index_run_rethrows (service : list Event -> Request -> Reply)
    (nowStr : list Event -> string) (cfg : Config) h c :
  1 <= MAX_RETRIES cfg ->
  completion (IndexJs.run service nowStr cfg h c)
  = completion (index_run_try service nowStr cfg h c)
  /\ completion (IndexJs.main service nowStr cfg h c)
     = Return (match completion (index_run_try service nowStr cfg h c) with
               | Return _ => 0
               | Throw _ => 1
               end).
Proof.
  intros Hmax.
  assert (Hrun : IndexJs.run service nowStr cfg
                 = try_catch (index_run_try service nowStr cfg)
                             (index_run_catch service nowStr cfg)) by reflexivity.
  assert (Hc : completion (IndexJs.run service nowStr cfg h c)
               = completion (index_run_try service nowStr cfg h c)).
  { rewrite Hrun.
    pose proof (@throws_errors_index_run_try service nowStr cfg Hmax h c) as Hte.
    destruct (index_run_try service nowStr cfg h c) as [[[[] | t] e] c1] eqn:E.
    - erewrite try_Return by exact E. reflexivity.
    - erewrite try_Throw by exact E. rewrite completion_after.
      destruct (Hte t eq_refl) as (err & ->).
      apply index_run_catch_rethrows, Hmax. }
  split; [exact Hc |].
  pose proof (@throws_errors_index_run_try service nowStr cfg Hmax h c) as Hte.
  rewrite <- Hc in *. unfold IndexJs.main.
  destruct (IndexJs.run service nowStr cfg h c) as [[[[] | t] e] c1] eqn:E.
  - erewrite try_Return by (erewrite bind_Return by exact E; reflexivity). reflexivity.
  - destruct (Hte t eq_refl) as (err & ->).
    erewrite try_Throw by (erewrite bind_Throw by exact E; reflexivity).
    reflexivity.
Qed.

Lemma index_run_rethrows_witness :
  completion (IndexJs.run down_service noon IndexJs.CONFIG [] c0)
  = completion (index_run_try down_service noon IndexJs.CONFIG [] c0)
  /\ completion (IndexJs.main down_service noon IndexJs.CONFIG [] c0)
     = Return (match completion (index_run_try down_service noon IndexJs.CONFIG [] c0) with
               | Return _ => 0
               | Throw _ => 1
               end).
Proof.
  apply (@index_run_rethrows down_service noon IndexJs.CONFIG [] c0). cbn. lia.
Defined.

(** X10. With at least one attempt allowed, [run] of the rewrite never
    throws, whatever the service does: every failure of the configuration
    read or of the write ends in the log line of its [catch] block, and the
    caller sees a normal return. *)
Theorem part001_run_never_throws (service : list Event -> Request -> Reply)
    (cfg : Config) h c :
  1 <= MAX_RETRIES cfg ->
  completion (Part001.run service cfg h c) = Return tt.
Proof.
  intros Hmax.
  assert (Hnt : never_throws (Part001.run service cfg)).
  { unfold Part001.run. apply never_throws_try_catch.
    - apply throws_errors_bind; [apply never_throws_errors, never_throws_emit |].
      intros _. apply throws_errors_bind;
        [apply throws_errors_part001_getConfigurationData, Hmax |].
      intros rows. destruct (len rows =? 0); [apply never_throws_errors, never_throws_emit |].
      apply throws_errors_bind;
        [apply never_throws_errors, never_throws_part001_batchLoop |].
      intros finalData.
      apply throws_errors_bind; [| intros _; apply never_throws_errors, never_throws_emit].
      match goal with |- context [if ?b then _ else _] => destruct b end;
        [apply throws_errors_part001_updateDestinationInChunks, Hmax
        | apply throws_errors_part001_updateDestination, Hmax].
    - intros err. apply never_throws_bind; [apply never_throws_ret |].
      intros _. apply never_throws_emit. }
  specialize (Hnt h c).
  destruct (Part001.run service cfg h c) as [[[[] | t] e] c1].
  - reflexivity.
  - exfalso. apply (Hnt t). reflexivity.
Qed.

Lemma part001_run_never_throws_witness :
  completion (Part001.run down_service Part001.CONFIG [] c0) = Return tt.
Proof.
  apply (@part001_run_never_throws down_service Part001.CONFIG [] c0). cbn. lia.
Defined.

(** ** A whole run with a service that rejects nothing *)

Lemma at_index_beyond (row : Row) (i : nat) :
  len row <= Z.of_nat i -> at_index row i = CUndefined.
Proof. intros Hi. unfold at_index. apply nth_overflow. unfold len in Hi. lia. Qed.

Lemma requests_log (level : Level) (msg : string) (evs : list Event) :
  requests (ELog level msg :: evs) = requests evs.
Proof. reflexivity. Qed.

Section HappyRun.

Variable service : list Event -> Request -> Reply.
Variable nowStr : list Event -> string.
Variable cfg : Config.
Hypothesis service_ok : never_fails service.
Hypothesis one_attempt : 1 <= MAX_RETRIES cfg.

Lemma index_getConfigurationData_ok h c :
  exists values,
    service ((h ++ [ELog INFO "Fetching configuration data..."]) ++ [EThrottle])
            (config_read cfg) = inr values
    /\ IndexJs.getConfigurationData service cfg h c
       = (Return (match values with Some v => v | None => [] end),
          [ELog INFO "Fetching configuration data..."; EThrottle; EInvoke;
           ERemote (config_read cfg) (inr values)], c).
Proof.
  unfold IndexJs.getConfigurationData, logger_info. rewrite bind_emit.
  destruct (@retry_fetch_ok service (CStr (SPREADSHEET_ID cfg)) (CStr "'COSTDATA_DB'!C2:F")
              (MAX_RETRIES cfg) (h ++ [ELog INFO "Fetching configuration data..."]) c
              service_ok one_attempt) as (values & Hv & Hr & _).
  exists values. split; [exact Hv |]. rewrite Hr. reflexivity.
Qed.

Lemma part001_getConfigurationData_ok h c :
  exists values,
    service ((h ++ [ELog INFO "Fetching configuration data..."]) ++ [EThrottle])
            (config_read cfg) = inr values
    /\ Part001.getConfigurationData service cfg h c
       = (Return (match values with Some v => v | None => [] end),
          [ELog INFO "Fetching configuration data..."; EThrottle; EInvoke;
           ERemote (config_read cfg) (inr values)], c).
Proof.
  unfold Part001.getConfigurationData, logger_info. rewrite bind_emit.
  destruct (@retry_fetch_ok service (CStr (SPREADSHEET_ID cfg)) (CStr "'COSTDATA_DB'!C2:F")
              (MAX_RETRIES cfg) (h ++ [ELog INFO "Fetching configuration data..."]) c
              service_ok one_attempt) as (values & Hv & _ & Hr).
  exists values. split; [exact Hv |]. rewrite Hr. reflexivity.
Qed.

Lemma index_logToSheet_ok (spreadsheetId : Cell) (msg : string) h c :
  exists values,
    IndexJs.logToSheet service nowStr cfg spreadsheetId msg h c
    = (Return tt,
       [EThrottle; EInvoke;
        ERemote (Append spreadsheetId IndexJs.S_LOG [[CStr (nowStr h); CStr msg]])
                (inr values)], c).
Proof.
  unfold IndexJs.logToSheet.
  destruct (@retry_perform_ok service
              (Append spreadsheetId IndexJs.S_LOG [[CStr (nowStr h); CStr msg]])
              (MAX_RETRIES cfg) h c service_ok one_attempt) as (values & Hr & _).
  exists values. apply try_Return. exact Hr.
Qed.

Lemma index_updateDestination_ok (dest range : Cell) (data : Rows) h c :
  exists evs,
    IndexJs.updateDestination service cfg dest range data h c = (Return tt, evs, c)
    /\ requests evs = [Clear dest range; Update dest range data].
Proof.
  unfold IndexJs.updateDestination.
  destruct (@retry_perform_ok service (Clear dest range) (MAX_RETRIES cfg) h c
              service_ok one_attempt) as (v1 & Hr1 & _).
  erewrite bind_Return by exact Hr1.
  match goal with
  | |- context [IndexJs.retryOperation (perform _ ?req) ?n ?h' ?c'] =>
      destruct (@retry_perform_ok service req n h' c' service_ok one_attempt)
        as (v2 & Hr2 & _)
  end.
  rewrite Hr2. eexists. split; reflexivity.
Qed.

Lemma part001_updateDestination_ok (dest range : Cell) (data : Rows) h c :
  exists evs,
    Part001.updateDestination service cfg dest range data h c = (Return tt, evs, c)
    /\ requests evs = [Clear dest range; Update dest range data].
Proof.
  unfold Part001.updateDestination.
  destruct (@retry_perform_ok service (Clear dest range) (MAX_RETRIES cfg) h c
              service_ok one_attempt) as (v1 & _ & Hr1).
  erewrite bind_Return by exact Hr1.
  match goal with
  | |- context [Part001.retryOperation (perform _ ?req) ?n ?h' ?c'] =>
      destruct (@retry_perform_ok service req n h' c' service_ok one_attempt)
        as (v2 & _ & Hr2)
  end.
  rewrite Hr2. eexists. split; reflexivity.
Qed.

Hypothesis chunk_size_positive : 0 < CHUNK_SIZE cfg.

(** The write phase of [run]: the branch on the size of the dataset. *)
Lemma index_write_ok (dest range : Cell) (data : Rows) h c :
  exists evs c',
    (if len data >? CHUNK_SIZE cfg
     then IndexJs.updateDestinationInChunks service cfg dest range data
     else IndexJs.updateDestination service cfg dest range data) h c
    = (Return tt, evs, c')
    /\ requests evs = write_calls dest range (CHUNK_SIZE cfg) data.
Proof.
  unfold write_calls. destruct (len data >? CHUNK_SIZE cfg) eqn:E.
  - apply Z.gtb_lt in E.
    destruct (@index_chunked_ok service cfg dest range data chunk_size_positive h c
                service_ok one_attempt E) as (Hc & Hq & _).
    destruct (IndexJs.updateDestinationInChunks service cfg dest range data h c)
      as [[r evs] c'].
    cbn [completion emitted fst snd] in Hc, Hq. subst r.
    exists evs, c'. split; [reflexivity |].
    rewrite Hq. unfold chunk_calls. rewrite chunkArray_first by lia. reflexivity.
  - destruct (index_updateDestination_ok dest range data h c) as (evs & Hr & Hq).
    exists evs, c. split; [exact Hr | exact Hq].
Qed.

Lemma part001_write_ok (dest range : Cell) (data : Rows) h c :
  exists evs c',
    (if len data >? CHUNK_SIZE cfg
     then Part001.updateDestinationInChunks service cfg dest range data
     else Part001.updateDestination service cfg dest range data) h c
    = (Return tt, evs, c')
    /\ requests evs = write_calls dest range (CHUNK_SIZE cfg) data.
Proof.
  unfold write_calls. destruct (len data >? CHUNK_SIZE cfg) eqn:E.
  - apply Z.gtb_lt in E.
    destruct (@part001_chunked_ok service cfg dest range data chunk_size_positive h c
                service_ok one_attempt E) as (Hc & Hq).
    destruct (Part001.updateDestinationInChunks service cfg dest range data h c)
      as [[r evs] c'].
    cbn [completion emitted fst snd] in Hc, Hq. subst r.
    exists evs, c'. split; [reflexivity |].
    rewrite Hq. unfold chunk_calls. rewrite chunkArray_first by lia. reflexivity.
  - destruct (part001_updateDestination_ok dest range data h c) as (evs & Hr & Hq).
    exists evs, c. split; [exact Hr | exact Hq].
Qed.

Hypothesis batch_size_positive : 0 < BATCH_SIZE cfg.

Lemma index_batchLoop_ok (rows : Rows) h c :
  exists finalData evs c',
    IndexJs.batchLoop service nowStr cfg rows (List.length rows) 0 [] h c
    = (Return finalData, evs, c')
    /\ requests evs = map job_read rows.
Proof.
  destruct (index_batchLoop_returns service nowStr cfg rows (List.length rows) 0 [] h c)
    as (finalData & evs & c' & Hr).
  exists finalData, evs, c'. split; [exact Hr |].
  destruct (@index_batchLoop_sends service nowStr cfg service_ok one_attempt rows
              (List.length rows) 0 [] h c) as (Hq & _).
  rewrite Hr in Hq. cbn [emitted fst snd] in Hq. rewrite Hq.
  rewrite chunkArrayLoop_concat by lia. reflexivity.
Qed.

Lemma part001_batchLoop_ok (rows : Rows) h c :
  exists finalData evs c',
    Part001.batchLoop service cfg rows (List.length rows) 0 [] h c
    = (Return finalData, evs, c')
    /\ requests evs = map job_read rows.
Proof.
  destruct (part001_batchLoop_returns service cfg rows (List.length rows) 0 [] h c)
    as (finalData & evs & c' & Hr).
  exists finalData, evs, c'. split; [exact Hr |].
  destruct (@part001_batchLoop_sends service cfg service_ok one_attempt rows
              (List.length rows) 0 [] h c) as (Hq & _).
  rewrite Hr in Hq. cbn [emitted fst snd] in Hq. rewrite Hq.
  rewrite chunkArrayLoop_concat by lia. reflexivity.
Qed.

(** The [try] block of [run] in src/index.js, phase by phase. *)
Lemma index_run_try_ok h c :
  exists values pre finalData stamp evs c',
    service (h ++ [ELog INFO "Initializing Google Sheets service...";
                   ELog INFO "Google Sheets service initialized successfully";
                   ELog INFO "Fetching configuration data..."; EThrottle])
            (config_read cfg) = inr values
    /\ let rows := match values with Some v => v | None => [] end in
       completion (IndexJs.batchLoop service nowStr cfg rows (List.length rows) 0 []
                     (h ++ pre) c) = Return finalData
       /\ index_run_try service nowStr cfg h c = (Return tt, evs, c')
       /\ requests evs
          = config_read cfg
            :: (if len rows =? 0 then []
                else map job_read rows
                     ++ write_calls (at_index (lastRow rows) 2) (at_index (lastRow rows) 3)
                          (CHUNK_SIZE cfg) (IndexJs.cleanData (Some finalData))
                     ++ [Append (at_index (lastRow rows) 2) IndexJs.S_LOG
                           [[CStr stamp; CStr "Done"]]]).
Proof.
  assert (Hinit : IndexJs.initialize h c
                  = (Return tt,
                     [ELog INFO "Initializing Google Sheets service...";
                      ELog INFO "Google Sheets service initialized successfully"], c))
    by reflexivity.
  set (h0 := h ++ [ELog INFO "Initializing Google Sheets service...";
                   ELog INFO "Google Sheets service initialized successfully"]) in *.
  destruct (index_getConfigurationData_ok h0 c) as (values & Hv & Hconf).
  exists values.
  set (rows := match values with Some v => v | None => [] end) in *.
  set (e0 := [ELog INFO "Fetching configuration data..."; EThrottle; EInvoke;
              ERemote (config_read cfg) (inr values)]) in *.
  set (found := ELog INFO ("Found " ++ string_of_Z (len rows) ++ " sheets to process")).
  set (h1 := (h0 ++ e0) ++ [found]).
  assert (Hh1 : exists pre, h1 = h ++ pre).
  { eexists. subst h1 h0. rewrite <- !app_assoc. reflexivity. }
  destruct Hh1 as (pre & Hpre).
  destruct (index_batchLoop_ok rows h1 c) as (finalData & e_b & c_b & Hb & Hqb).
  exists pre, finalData.
  assert (Hservice : service (h ++ [ELog INFO "Initializing Google Sheets service...";
                                    ELog INFO "Google Sheets service initialized successfully";
                                    ELog INFO "Fetching configuration data..."; EThrottle])
                             (config_read cfg) = inr values).
  { subst h0. rewrite <- !app_assoc in Hv. exact Hv. }
  assert (Hbatch : completion (IndexJs.batchLoop service nowStr cfg rows (List.length rows)
                                 0 [] (h ++ pre) c) = Return finalData).
  { rewrite <- Hpre, Hb. reflexivity. }
  destruct (len rows =? 0) eqn:Elen.
  - exists "". eexists _, _. split; [exact Hservice |]. cbn zeta.
    split; [exact Hbatch |]. split.
    + unfold index_run_try. erewrite bind_Return by exact Hinit.
      erewrite bind_Return by exact Hconf.
      unfold logger_info at 1. rewrite bind_emit. rewrite Elen. reflexivity.
    + fold rows. rewrite Elen. reflexivity.
  - assert (Hpos : (len rows >? 0) = true).
    { apply Z.gtb_lt. apply Z.eqb_neq in Elen. unfold len in *. lia. }
    set (data := IndexJs.cleanData (Some finalData)).
    set (dest := at_index (lastRow rows) 2). set (range := at_index (lastRow rows) 3).
    set (final := ELog INFO ("Final dataset contains " ++ string_of_Z (len data)
                             ++ " rows")).
    set (h2 := (h1 ++ e_b) ++ [final]).
    destruct (index_write_ok dest range data
                (h2 ++ [ELog INFO "Updating destination sheet..."]) c_b)
      as (e_w & c_w & Hw & Hqw).
    destruct (index_logToSheet_ok dest "Done"
                ((h2 ++ [ELog INFO "Updating destination sheet..."]) ++ e_w) c_w)
      as (v & Hlog).
    eexists _, _, _. split; [exact Hservice |]. cbn zeta.
    split; [exact Hbatch |]. split.
    + unfold index_run_try. erewrite bind_Return by exact Hinit.
      erewrite bind_Return by exact Hconf.
      unfold logger_info at 1. rewrite bind_emit. rewrite Elen.
      erewrite bind_Return by exact Hb.
      unfold logger_info at 1. rewrite bind_emit. rewrite Hpos.
      erewrite bind_Return.
      2:{ unfold logger_info at 1. rewrite bind_emit.
          erewrite bind_Return by exact Hw.
          erewrite bind_Return by exact Hlog. reflexivity. }
      reflexivity.
    + fold rows. rewrite Elen. cbn [after app].
      repeat (rewrite requests_app || rewrite requests_log).
      rewrite Hqb, Hqw. subst e0. cbn [requests flat_map app].
      rewrite app_nil_r, <- !app_assoc. reflexivity.
Qed.

(** The same for [run] of the rewrite: no note is appended, and the
    destination is read at indices 4 and 5 of the last row. *)
Lemma part001_run_ok h c :
  exists values pre finalData evs c',
    service (h ++ [ELog INFO "Google Sheets service initialized";
                   ELog INFO "Fetching configuration data..."; EThrottle])
            (config_read cfg) = inr values
    /\ let rows := match values with Some v => v | None => [] end in
       completion (Part001.batchLoop service cfg rows (List.length rows) 0 []
                     (h ++ pre) c) = Return finalData
       /\ Part001.run service cfg h c = (Return tt, evs, c')
       /\ requests evs
          = config_read cfg
            :: (if len rows =? 0 then []
                else map job_read rows
                     ++ write_calls (at_index (lastRow rows) 4) (at_index (lastRow rows) 5)
                          (CHUNK_SIZE cfg) (Part001.cleanData (Some finalData))).
Proof.
  assert (Hinit : Part001.initialize h c
                  = (Return tt, [ELog INFO "Google Sheets service initialized"], c))
    by reflexivity.
  set (h0 := h ++ [ELog INFO "Google Sheets service initialized"]) in *.
  destruct (part001_getConfigurationData_ok h0 c) as (values & Hv & Hconf).
  exists values.
  set (rows := match values with Some v => v | None => [] end) in *.
  set (e0 := [ELog INFO "Fetching configuration data..."; EThrottle; EInvoke;
              ERemote (config_read cfg) (inr values)]) in *.
  set (h1 := h0 ++ e0).
  assert (Hh1 : exists pre, h1 = h ++ pre).
  { eexists. subst h1 h0. rewrite <- !app_assoc. reflexivity. }
  destruct Hh1 as (pre & Hpre).
  destruct (part001_batchLoop_ok rows h1 c) as (finalData & e_b & c_b & Hb & Hqb).
  exists pre, finalData.
  assert (Hservice : service (h ++ [ELog INFO "Google Sheets service initialized";
                                    ELog INFO "Fetching configuration data..."; EThrottle])
                             (config_read cfg) = inr values).
  { subst h0. rewrite <- !app_assoc in Hv. exact Hv. }
  assert (Hbatch : completion (Part001.batchLoop service cfg rows (List.length rows)
                                 0 [] (h ++ pre) c) = Return finalData).
  { rewrite <- Hpre, Hb. reflexivity. }
  destruct (len rows =? 0) eqn:Elen.
  - eexists _, _. split; [exact Hservice |]. cbn zeta.
    split; [exact Hbatch |]. split.
    + unfold Part001.run. apply try_Return. erewrite bind_Return by exact Hinit.
      erewrite bind_Return by exact Hconf. rewrite Elen. reflexivity.
    + fold rows. rewrite Elen. reflexivity.
  - set (data := Part001.cleanData (Some finalData)).
    set (dest := at_index (lastRow rows) 4). set (range := at_index (lastRow rows) 5).
    destruct (part001_write_ok dest range data (h1 ++ e_b) c_b)
      as (e_w & c_w & Hw & Hqw).
    eexists _, _. split; [exact Hservice |]. cbn zeta.
    split; [exact Hbatch |]. split.
    + unfold Part001.run. apply try_Return. erewrite bind_Return by exact Hinit.
      erewrite bind_Return by exact Hconf. rewrite Elen.
      erewrite bind_Return by exact Hb.
      erewrite bind_Return by exact Hw. reflexivity.
    + fold rows. rewrite Elen. cbn [after app].
      repeat (rewrite requests_app || rewrite requests_log).
      rewrite Hqb, Hqw. subst e0. cbn [requests flat_map app].
      rewrite <- ?app_assoc, ?app_nil_r. reflexivity.
Qed.

End HappyRun.

Lemma config_service_never_fails : never_fails config_service.
Proof.
  intros h req. unfold config_service.
  destruct req as [i [s | n | |] | i r v | i r v | i r]; try (eexists; reflexivity).
  destruct (string_dec s "'COSTDATA_DB'!C2:F"); eexists; reflexivity.
Qed.

(** X11. A whole run of index.js with a service that rejects nothing (one
    attempt allowed, positive batch and chunk sizes) returns, and its
    requests are, in this order: the read of the configuration range; then,
    unless that found no row, one read per configuration row, batch after
    batch (the reads of one batch in whatever order), the write of the
    cleaned aggregate to the destination named at indices 2 and 3 of the
    last row (one clear and one update, or the chunked calls when the
    dataset is longer than the chunk size), and the append of the Done note
    to the S_LOG range of that destination. *)
Theorem index_run_request_sequence (service : list Event -> Request -> Reply)
    (nowStr : list Event -> string) (cfg : Config) h c :
  never_fails service ->
  1 <= MAX_RETRIES cfg ->
  0 < CHUNK_SIZE cfg ->
  0 < BATCH_SIZE cfg ->
  exists values pre finalData stamp reads,
    service (h ++ [ELog INFO "Initializing Google Sheets service...";
                   ELog INFO "Google Sheets service initialized successfully";
                   ELog INFO "Fetching configuration data..."; EThrottle])
            (config_read cfg) = inr values
    /\ let rows := match values with Some v => v | None => [] end in
       completion (IndexJs.batchLoop service nowStr cfg rows (List.length rows) 0 []
                     (h ++ pre) c) = Return finalData
       /\ reads_by_batch rows (BATCH_SIZE cfg) reads
       /\ completion (IndexJs.run service nowStr cfg h c) = Return tt
       /\ requests (emitted (IndexJs.run service nowStr cfg h c))
          = config_read cfg
            :: (if len rows =? 0 then []
                else reads
                     ++ write_calls (at_index (lastRow rows) 2) (at_index (lastRow rows) 3)
                          (CHUNK_SIZE cfg) (IndexJs.cleanData (Some finalData))
                     ++ [Append (at_index (lastRow rows) 2) IndexJs.S_LOG
                           [[CStr stamp; CStr "Done"]]]).
Proof.
  intros Hok Hmax Hchunk Hbatch.
  destruct (@index_run_try_ok service nowStr cfg Hok Hmax Hchunk Hbatch h c)
    as (values & pre & finalData & stamp & evs & c' & Hv & Hfetch & Hrun & Hq).
  exists values, pre, finalData, stamp,
    (map job_read (match values with Some v => v | None => [] end)).
  split; [exact Hv |]. cbn zeta in *.
  split; [exact Hfetch |]. split; [apply reads_by_batch_in_order, Hbatch |].
  assert (Hwhole : IndexJs.run service nowStr cfg h c = (Return tt, evs, c')).
  { change (IndexJs.run service nowStr cfg)
      with (try_catch (index_run_try service nowStr cfg)
                      (index_run_catch service nowStr cfg)).
    apply try_Return. exact Hrun. }
  rewrite Hwhole. split; [reflexivity | exact Hq].
Qed.

Lemma index_run_request_sequence_witness :
  exists values pre finalData stamp reads,
    config_service ([] ++ [ELog INFO "Initializing Google Sheets service...";
                           ELog INFO "Google Sheets service initialized successfully";
                           ELog INFO "Fetching configuration data..."; EThrottle])
                   (config_read IndexJs.CONFIG) = inr values
    /\ let rows := match values with Some v => v | None => [] end in
       completion (IndexJs.batchLoop config_service noon IndexJs.CONFIG rows
                     (List.length rows) 0 [] ([] ++ pre) c0) = Return finalData
       /\ reads_by_batch rows (BATCH_SIZE IndexJs.CONFIG) reads
       /\ completion (IndexJs.run config_service noon IndexJs.CONFIG [] c0) = Return tt
       /\ requests (emitted (IndexJs.run config_service noon IndexJs.CONFIG [] c0))
          = config_read IndexJs.CONFIG
            :: (if len rows =? 0 then []
                else reads
                     ++ write_calls (at_index (lastRow rows) 2) (at_index (lastRow rows) 3)
                          (CHUNK_SIZE IndexJs.CONFIG) (IndexJs.cleanData (Some finalData))
                     ++ [Append (at_index (lastRow rows) 2) IndexJs.S_LOG
                           [[CStr stamp; CStr "Done"]]]).
Proof.
  apply (@index_run_request_sequence config_service noon IndexJs.CONFIG [] c0).
  - exact config_service_never_fails.
  - cbn. lia.
  - cbn. lia.
  - cbn. lia.
Defined.

(** X12. A whole run of the rewrite with a service that rejects nothing
    returns, and its requests are the read of the configuration range, then,
    unless that found no row, one read per configuration row, batch after
    batch (the reads of one batch in whatever order), and the write of the
    cleaned aggregate; the spreadsheet and the range of that write are the
    cells at indices 4 and 5 of the last configuration row, which are
    [undefined] when that row has at most four cells. *)
Theorem part001_run_request_sequence (service : list Event -> Request -> Reply)
    (cfg : Config) h c :
  never_fails service ->
  1 <= MAX_RETRIES cfg ->
  0 < CHUNK_SIZE cfg ->
  0 < BATCH_SIZE cfg ->
  exists values pre finalData reads,
    service (h ++ [ELog INFO "Google Sheets service initialized";
                   ELog INFO "Fetching configuration data..."; EThrottle])
            (config_read cfg) = inr values
    /\ let rows := match values with Some v => v | None => [] end in
       completion (Part001.batchLoop service cfg rows (List.length rows) 0 []
                     (h ++ pre) c) = Return finalData
       /\ reads_by_batch rows (BATCH_SIZE cfg) reads
       /\ completion (Part001.run service cfg h c) = Return tt
       /\ requests (emitted (Part001.run service cfg h c))
          = config_read cfg
            :: (if len rows =? 0 then []
                else reads
                     ++ write_calls (at_index (lastRow rows) 4) (at_index (lastRow rows) 5)
                          (CHUNK_SIZE cfg) (Part001.cleanData (Some finalData)))
       /\ (len (lastRow rows) <= 4 ->
           at_index (lastRow rows) 4 = CUndefined
           /\ at_index (lastRow rows) 5 = CUndefined).
Proof.
  intros Hok Hmax Hchunk Hbatch.
  destruct (@part001_run_ok service cfg Hok Hmax Hchunk Hbatch h c)
    as (values & pre & finalData & evs & c' & Hv & Hfetch & Hrun & Hq).
  exists values, pre, finalData,
    (map job_read (match values with Some v => v | None => [] end)).
  split; [exact Hv |]. cbn zeta in *.
  split; [exact Hfetch |]. split; [apply reads_by_batch_in_order, Hbatch |]. rewrite Hrun.
  split; [reflexivity |]. split; [exact Hq |].
  intros Hlen. split; apply at_index_beyond; lia.
Qed.

Lemma part001_run_request_sequence_witness :
  exists values pre finalData reads,
    config_service ([] ++ [ELog INFO "Google Sheets service initialized";
                           ELog INFO "Fetching configuration data..."; EThrottle])
                   (config_read Part001.CONFIG) = inr values
    /\ let rows := match values with Some v => v | None => [] end in
       completion (Part001.batchLoop config_service Part001.CONFIG rows
                     (List.length rows) 0 [] ([] ++ pre) c0) = Return finalData
       /\ reads_by_batch rows (BATCH_SIZE Part001.CONFIG) reads
       /\ completion (Part001.run config_service Part001.CONFIG [] c0) = Return tt
       /\ requests (emitted (Part001.run config_service Part001.CONFIG [] c0))
          = config_read Part001.CONFIG
            :: (if len rows =? 0 then []
                else reads
                     ++ write_calls (at_index (lastRow rows) 4) (at_index (lastRow rows) 5)
                          (CHUNK_SIZE Part001.CONFIG)
                          (Part001.cleanData (Some finalData)))
       /\ (len (lastRow rows) <= 4 ->
           at_index (lastRow rows) 4 = CUndefined
           /\ at_index (lastRow rows) 5 = CUndefined).
Proof.
  apply (@part001_run_request_sequence config_service Part001.CONFIG [] c0).
  - exact config_service_never_fails.
  - cbn. lia.
  - cbn. lia.
  - cbn. lia.
Defined.

(** ** Notes to the S_LOG range, and a configuration that cannot be read *)

Lemma Retry_requests_repeat {A} (warning : Z -> string) (operation : Operation A)
    req n a h r evs :
  calls_once req operation ->
  Retry warning operation n a h r evs ->
  a <= n ->
  exists k,
    a <= k <= n
    /\ (forall t, r = Throw t -> k = n)
    /\ requests evs = repeat req (Z.to_nat (k + 1 - a)).
Proof.
  intros Hone HR. induction HR as [a h v calls Hop | h t calls Hop
                                  | a h err calls r evs Ha Hop HR IH
                                  | a h t typeError calls Ha Hop Ht]; intros Han.
  4:{ destruct (Hone (h ++ [EThrottle])) as [(err' & H) | (v' & values & H)];
        rewrite H in Hop; inversion Hop; subst. discriminate Ht. }
  - exists a.
    destruct (Hone (h ++ [EThrottle])) as [(err & H) | (v' & values & H)];
      rewrite H in Hop; inversion Hop; subst.
    replace (Z.to_nat (a + 1 - a)) with 1%nat by lia.
    repeat split; try lia. discriminate.
  - exists n.
    destruct (Hone (h ++ [EThrottle])) as [(err' & H) | (v' & values & H)];
      rewrite H in Hop; inversion Hop; subst.
    replace (Z.to_nat (n + 1 - n)) with 1%nat by lia.
    repeat split; lia.
  - destruct IH as (k & Hk & Hthrow & Hq); [lia |].
    exists k.
    destruct (Hone (h ++ [EThrottle])) as [(err' & H) | (v' & values & H)];
      rewrite H in Hop; inversion Hop; subst.
    split; [lia |]. split; [exact Hthrow |].
    rewrite requests_app, Hq.
    replace (Z.to_nat (k + 1 - a)) with (S (Z.to_nat (k + 1 - (a + 1)))) by lia.
    reflexivity.
Qed.

(** X13. [logToSheet] of index.js is best effort: with at least one attempt
    allowed it never throws and touches no counter, whatever the service
    does; what it sends is the same append to the S_LOG range of the given
    spreadsheet, stamped once before the first attempt, between one and
    MAX_RETRIES times, and MAX_RETRIES times when none resolved. *)
Theorem logToSheet_best_effort (service : list Event -> Request -> Reply)
    (nowStr : list Event -> string) (cfg : Config) (spreadsheetId : Cell) (msg : string)
    h c :
  1 <= MAX_RETRIES cfg ->
  exists k,
    1 <= k <= MAX_RETRIES cfg
    /\ completion (IndexJs.logToSheet service nowStr cfg spreadsheetId msg h c) = Return tt
    /\ counters (IndexJs.logToSheet service nowStr cfg spreadsheetId msg h c) = c
    /\ requests (emitted (IndexJs.logToSheet service nowStr cfg spreadsheetId msg h c))
       = repeat (Append spreadsheetId IndexJs.S_LOG [[CStr (nowStr h); CStr msg]])
                (Z.to_nat k)
    /\ (succeeded (emitted (IndexJs.logToSheet service nowStr cfg spreadsheetId msg h c))
        = [] -> k = MAX_RETRIES cfg).
Proof.
  intros Hmax. unfold IndexJs.logToSheet.
  match goal with
  | |- context [IndexJs.retryOperation ?op ?n] =>
      destruct (@index_retryOperation_Retry _ op n h c Hmax) as (r & evs & Hr & HR);
      pose proof (Retry_retried (perform_calls_once _ _) HR) as (_ & Hsucc & _);
      destruct (Retry_requests_repeat (perform_calls_once _ _) HR Hmax)
        as (k & Hk & Hthrow & Hq)
  end.
  exists k. replace (k + 1 - 1) with k in Hq by lia. split; [exact Hk |].
  destruct r as [[] | t].
  - erewrite try_Return by exact Hr. cbn [completion counters emitted fst snd].
    repeat split; [exact Hq |]. rewrite Hsucc. discriminate.
  - destruct (Retry_throws_error (calls_once_rejects (perform_calls_once _ _)) HR)
      as (err & ->).
    erewrite try_Throw by exact Hr.
    assert (Hh : (message_of (TError err) ;; logger_error "Failed to log to sheet")
                   (h ++ evs) c
                 = (Return tt, [ELog ERROR "Failed to log to sheet"], c)) by reflexivity.
    rewrite Hh. cbn [completion counters emitted fst snd after].
    repeat split.
    + rewrite requests_app, Hq. cbn [requests flat_map app]. apply app_nil_r.
    + intros _. exact (Hthrow _ eq_refl).
Qed.

Lemma logToSheet_best_effort_witness :
  exists k,
    1 <= k <= MAX_RETRIES IndexJs.CONFIG
    /\ completion (IndexJs.logToSheet down_service noon IndexJs.CONFIG dest_id "Done" [] c0)
       = Return tt
    /\ counters (IndexJs.logToSheet down_service noon IndexJs.CONFIG dest_id "Done" [] c0)
       = c0
    /\ requests (emitted (IndexJs.logToSheet down_service noon IndexJs.CONFIG dest_id
                            "Done" [] c0))
       = repeat (Append dest_id IndexJs.S_LOG [[CStr (noon []); CStr "Done"]])
                (Z.to_nat k)
    /\ (succeeded (emitted (IndexJs.logToSheet down_service noon IndexJs.CONFIG dest_id
                              "Done" [] c0))
        = [] -> k = MAX_RETRIES IndexJs.CONFIG).
Proof.
  apply (@logToSheet_best_effort down_service noon IndexJs.CONFIG dest_id "Done" [] c0).
  cbn. lia.
Defined.




(** ** More on DataCleaner *)

(** X15. The two variants of [cleanData] agree on every input: the loose
    comparisons [cell != null] and [cell == null] of the rewrite select the
    same cells as the strict comparisons with null and undefined of
    index.js. *)
Theorem cleanData_variants_agree (data : option Rows) :
  Part001.cleanData data = IndexJs.cleanData data.
Proof.
  destruct data as [rows |]; [| reflexivity].
  rewrite part001_cleanData_unfold, cleanData_unfold. reflexivity.
Qed.

Lemma has_value_filled (row : Row) :
  row <> [] -> Forall (fun cell => is_blank cell = false) row -> has_value row = true.
Proof.
  intros Hne Hall. destruct row as [| cell row]; [contradiction |].
  inversion Hall as [| ? ? Hcell _]. unfold has_value. cbn [existsb].
  rewrite Hcell. reflexivity.
Qed.

(** X16. The datasets [cleanData] leaves unchanged are exactly those with no
    empty row and no cell that is an empty string, null or undefined. *)
Theorem cleanData_fixed_points (rows : Rows) :
  IndexJs.cleanData (Some rows) = rows <-> all_filled rows.
Proof.
  rewrite cleanData_unfold. unfold all_filled. split.
  - intros Hfix. rewrite Forall_forall. intros row Hrow.
    rewrite <- Hfix in Hrow. apply in_map_iff in Hrow.
    destruct Hrow as (r0 & <- & Hr0). apply filter_In in Hr0. destruct Hr0 as (_ & Hv).
    split.
    + apply has_value_normalise in Hv. intros E. rewrite E in Hv. discriminate.
    + rewrite Forall_forall. intros cell. apply normalise_not_blank.
  - intros Hall. rewrite Forall_forall in Hall. rewrite filter_all.
    + apply map_fixed. intros row Hrow. apply normalise_fixed.
      destruct (Hall row Hrow) as (_ & Hcells). rewrite Forall_forall in Hcells.
      exact Hcells.
    + intros row Hrow. destruct (Hall row Hrow) as (Hne & Hcells).
      apply has_value_filled; assumption.
Qed.

Lemma cleanData_fixed_points_witness :
  IndexJs.cleanData (Some [[CNum 1; CStr "a"]]) = [[CNum 1; CStr "a"]].
Proof.
  apply (proj2 (cleanData_fixed_points [[CNum 1; CStr "a"]])).
  unfold all_filled. constructor; [| constructor].
  split; [discriminate | repeat constructor].
Defined.

(** *** What cleaning does to the rows a run has fetched *)

Lemma sourceUrl_not_blank (row : Row) : is_blank (CStr (IndexJs.sourceUrl row)) = false.
Proof. reflexivity. Qed.

Lemma has_value_tagged (body : Row) (row : Row) :
  has_value (body ++ [CStr (IndexJs.sourceUrl row)]) = true.
Proof.
  unfold has_value. rewrite existsb_app. cbn [existsb].
  rewrite sourceUrl_not_blank. cbn [negb orb]. apply orb_true_r.
Qed.

Lemma all_tagged_app (a b : Rows) : all_tagged a -> all_tagged b -> all_tagged (a ++ b).
Proof. intros Ha Hb. apply Forall_app. split; assumption. Qed.

Lemma all_tagged_tagged (row : Row) (rData : Rows) : all_tagged (tagged row rData).
Proof.
  unfold all_tagged, tagged. rewrite Forall_forall. intros dataRow Hin.
  apply in_map_iff in Hin. destruct Hin as (body & <- & _). exists row, body. reflexivity.
Qed.

Lemma all_tagged_clean (data : Rows) :
  all_tagged data ->
  IndexJs.cleanData (Some data) = map normalise data
  /\ len (IndexJs.cleanData (Some data)) = len data.
Proof.
  intros Hall. rewrite cleanData_unfold, filter_all.
  - split; [reflexivity |]. unfold len. rewrite length_map. reflexivity.
  - unfold all_tagged in Hall. rewrite Forall_forall in Hall.
    intros dataRow Hin. destruct (Hall dataRow Hin) as (row & body & ->).
    apply has_value_tagged.
Qed.

Lemma all_tagged_fulfilled (rs : list (Completion Rows)) :
  Forall (fun r => forall v, r = Return v -> all_tagged v) rs ->
  all_tagged (fulfilled_rows rs).
Proof.
  induction 1 as [| r rs Hr _ IH]; [constructor |].
  unfold fulfilled_rows. cbn [map List.concat]. apply all_tagged_app; [| exact IH].
  destruct r as [v | t]; [apply Hr; reflexivity | constructor].
Qed.

Lemma allSettled_results {A} (P : Completion A -> Prop) (ps : list (M A)) :
  (forall p, In p ps -> forall h c, P (completion (p h c))) ->
  forall h c rs, completion (allSettled ps h c) = Return rs -> Forall P rs.
Proof.
  induction ps as [| p rest IH]; intros Hps h c rs Hrs.
  - cbn in Hrs. inversion Hrs. constructor.
  - destruct (p h c) as [[r e] c1] eqn:Hp.
    destruct (allSettled_total rest (h ++ e) c1) as (rs' & e2 & c2 & Hrest).
    erewrite allSettled_cons in Hrs by eassumption.
    cbn [completion fst] in Hrs. inversion Hrs; subst. constructor.
    + specialize (Hps p (or_introl eq_refl) h c). rewrite Hp in Hps. exact Hps.
    + apply (IH (fun q Hq => Hps q (or_intror Hq)) (h ++ e) c1).
      rewrite Hrest. reflexivity.
Qed.

Lemma part001_collectResults (results : list (Completion Rows)) :
  forall batchResults,
    Part001.collectResults results batchResults = batchResults ++ fulfilled_rows results.
Proof.
  induction results as [| [value | t] rest IH]; intros acc.
  - cbn. rewrite app_nil_r. reflexivity.
  - cbn [Part001.collectResults]. rewrite IH. unfold fulfilled_rows.
    cbn [map List.concat]. rewrite app_assoc. reflexivity.
  - cbn [Part001.collectResults]. rewrite IH. reflexivity.
Qed.

Section FetchedRows.

Variable service : list Event -> Request -> Reply.
Variable nowStr : list Event -> string.
Variable cfg : Config.

Lemma index_processJob_tagged (row : Row) h c v :
  completion (IndexJs.processJob service nowStr cfg row h c) = Return v -> all_tagged v.
Proof.
  destruct (@index_retry_once _ (fetch_values service (at_index row 0) (at_index row 1))
              _ (MAX_RETRIES cfg) h c (fetch_values_calls_once _ _ _))
    as (r & e_f & Hr & _).
  destruct r as [rData | t].
  - destruct (@index_processJob_fetched service nowStr cfg row h c _ _ _ Hr)
      as (e & c' & Hjob & _).
    rewrite Hjob. intros Hv. inversion Hv. apply all_tagged_tagged.
  - unfold IndexJs.processJob, IndexJs.processSheetData.
    erewrite try_Throw by (erewrite bind_Throw by exact Hr; reflexivity).
    rewrite completion_after. erewrite bind_Return by reflexivity.
    rewrite completion_after. destruct t as [| | err]; [discriminate | discriminate |].
    erewrite bind_Return by reflexivity. rewrite completion_after.
    unfold logger_error at 1. rewrite bind_emit, completion_after.
    match goal with
    | |- completion (bind (IndexJs.logToSheet _ _ _ ?i ?m) _ ?h' ?c') = _ -> _ =>
        destruct (IndexJs.logToSheet service nowStr cfg i m h' c')
          as [[[[] | t] e] c2] eqn:E
    end.
    + erewrite bind_Return by exact E. intros Hv. inversion Hv. constructor.
    + erewrite bind_Throw by exact E. discriminate.
Qed.

Lemma part001_processJob_tagged (row : Row) h c v :
  completion (Part001.processJob service cfg row h c) = Return v -> all_tagged v.
Proof.
  destruct (@part001_retry_once _ (fetch_values service (at_index row 0) (at_index row 1))
              _ (MAX_RETRIES cfg) h c (fetch_values_calls_once _ _ _))
    as (r & e_f & Hr & _).
  unfold Part001.processJob, Part001.processSheetData.
  destruct r as [rData | t].
  - destruct (len rData =? 0) eqn:E.
    + erewrite try_Return.
      2:{ erewrite bind_Return by exact Hr. rewrite E. reflexivity. }
      intros Hv. inversion Hv. constructor.
    + erewrite try_Return.
      2:{ erewrite bind_Return by exact Hr. rewrite E.
          erewrite bind_Return by reflexivity. reflexivity. }
      intros Hv. inversion Hv. apply (all_tagged_tagged row rData).
  - erewrite try_Throw by (erewrite bind_Throw by exact Hr; reflexivity).
    rewrite completion_after. erewrite bind_Return by reflexivity.
    rewrite completion_after. destruct t as [| | err]; [discriminate | discriminate |].
    intros Hv. inversion Hv. constructor.
Qed.

Lemma index_processBatch_tagged (batch : Rows) (batchIndex : Z) h c v :
  completion (IndexJs.processBatch service nowStr cfg batch batchIndex h c) = Return v ->
  all_tagged v.
Proof.
  destruct (allSettled_total (map (IndexJs.processJob service nowStr cfg) batch)
              (h ++ [batch_banner batch batchIndex]) c) as (rs & evs & c' & Hall).
  destruct (@index_processBatch_run service nowStr cfg batch batchIndex h c _ _ _ Hall)
    as (e_end & Hrun & _).
  rewrite Hrun. intros Hv. inversion Hv. apply all_tagged_fulfilled.
  apply (allSettled_results
           (fun r => forall v, r = Return v -> all_tagged v)
           (map (IndexJs.processJob service nowStr cfg) batch))
    with (h := h ++ [batch_banner batch batchIndex]) (c := c).
  - intros p Hp h' c'' v'. apply in_map_iff in Hp. destruct Hp as (row & <- & _).
    apply index_processJob_tagged.
  - rewrite Hall. reflexivity.
Qed.

Lemma part001_processBatch_tagged (batch : Rows) (batchIndex : Z) h c v :
  completion (Part001.processBatch service cfg batch batchIndex h c) = Return v ->
  all_tagged v.
Proof.
  unfold Part001.processBatch, logger_info. rewrite bind_emit, completion_after.
  fold (batch_banner batch batchIndex).
  destruct (allSettled_total (map (Part001.processJob service cfg) batch)
              (h ++ [batch_banner batch batchIndex]) c) as (rs & evs & c' & Hall).
  erewrite bind_Return by exact Hall. rewrite completion_after.
  intros Hv. inversion Hv. rewrite part001_collectResults. apply all_tagged_fulfilled.
  apply (allSettled_results
           (fun r => forall v, r = Return v -> all_tagged v)
           (map (Part001.processJob service cfg) batch))
    with (h := h ++ [batch_banner batch batchIndex]) (c := c).
  - intros p Hp h' c'' v'. apply in_map_iff in Hp. destruct Hp as (row & <- & _).
    apply part001_processJob_tagged.
  - rewrite Hall. reflexivity.
Qed.

Lemma index_batchLoop_tagged (rows : Rows) (fuel : nat) :
  forall i finalData h c data,
    all_tagged finalData ->
    completion (IndexJs.batchLoop service nowStr cfg rows fuel i finalData h c)
    = Return data ->
    all_tagged data.
Proof.
  induction fuel as [| fuel IH]; intros i finalData h c data Hinit.
  - intros Hv. inversion Hv. subst. exact Hinit.
  - cbn [IndexJs.batchLoop]. destruct (i <? len rows).
    2:{ intros Hv. inversion Hv. subst. exact Hinit. }
    destruct (index_batchStep_run service nowStr cfg rows i finalData h c)
      as (batchResults & evs & c1 & Hb & e_end & Hstep & _).
    erewrite bind_Return by exact Hstep. rewrite completion_after.
    apply IH. apply all_tagged_app; [exact Hinit |].
    apply (@index_processBatch_tagged (slice rows i (i + BATCH_SIZE cfg))
             (i / BATCH_SIZE cfg) h c).
    rewrite Hb. reflexivity.
Qed.

Lemma part001_batchLoop_tagged (rows : Rows) (fuel : nat) :
  forall i finalData h c data,
    all_tagged finalData ->
    completion (Part001.batchLoop service cfg rows fuel i finalData h c) = Return data ->
    all_tagged data.
Proof.
  induction fuel as [| fuel IH]; intros i finalData h c data Hinit.
  - intros Hv. inversion Hv. subst. exact Hinit.
  - cbn [Part001.batchLoop]. destruct (i <? len rows).
    2:{ intros Hv. inversion Hv. subst. exact Hinit. }
    destruct (part001_processBatch_returns service cfg (slice rows i (i + BATCH_SIZE cfg))
                (i / BATCH_SIZE cfg) h c) as (batchResults & evs & c1 & Hb).
    erewrite bind_Return by exact Hb. rewrite completion_after.
    erewrite bind_Return by reflexivity. rewrite completion_after.
    apply IH. apply all_tagged_app; [exact Hinit |].
    apply (@part001_processBatch_tagged (slice rows i (i + BATCH_SIZE cfg))
             (i / BATCH_SIZE cfg) h c).
    rewrite Hb. reflexivity.
Qed.

End FetchedRows.

(** X17. In a run the row filter of [cleanData] never drops anything: every
    row the batch loop collects ends with the source URL its job appended,
    so every row has a value, and cleaning keeps all the rows, in order, with
    only their blank cells replaced by 0.  A row fetched entirely blank
    reaches the destination as a row of zeros followed by the URL.  It holds
    of both variants, whatever the service does. *)
Theorem run_cleaning_keeps_every_row (service : list Event -> Request -> Reply)
    (nowStr : list Event -> string) (cfg : Config) (rows : Rows) (fuel : nat) (i : Z)
    h c (data data' : Rows) :
  completion (IndexJs.batchLoop service nowStr cfg rows fuel i [] h c) = Return data ->
  completion (Part001.batchLoop service cfg rows fuel i [] h c) = Return data' ->
  all_tagged data
  /\ IndexJs.cleanData (Some data) = map normalise data
  /\ len (IndexJs.cleanData (Some data)) = len data
  /\ all_tagged data'
  /\ Part001.cleanData (Some data') = map normalise data'
  /\ len (Part001.cleanData (Some data')) = len data'.
Proof.
  intros Hi Hp.
  assert (Ht : all_tagged data).
  { apply (@index_batchLoop_tagged service nowStr cfg rows fuel i [] h c data);
      [constructor | exact Hi]. }
  assert (Ht' : all_tagged data').
  { apply (@part001_batchLoop_tagged service cfg rows fuel i [] h c data');
      [constructor | exact Hp]. }
  destruct (all_tagged_clean Ht) as (H1 & H2).
  destruct (all_tagged_clean Ht') as (H3 & H4).
  rewrite part001_cleanData_unfold, <- cleanData_unfold.
  repeat split; assumption.
Qed.

Lemma run_cleaning_keeps_every_row_witness :
  all_tagged [[CStr ""; CNull; CStr "https://docs.google.com/spreadsheets/d/source-b"]]
  /\ IndexJs.cleanData
       (Some [[CStr ""; CNull; CStr "https://docs.google.com/spreadsheets/d/source-b"]])
     = map normalise
           [[CStr ""; CNull; CStr "https://docs.google.com/spreadsheets/d/source-b"]]
  /\ len (IndexJs.cleanData
            (Some [[CStr ""; CNull;
                    CStr "https://docs.google.com/spreadsheets/d/source-b"]]))
     = len [[CStr ""; CNull; CStr "https://docs.google.com/spreadsheets/d/source-b"]]
  /\ all_tagged [[CStr ""; CNull; CStr "https://docs.google.com/spreadsheets/d/source-b"]]
  /\ Part001.cleanData
       (Some [[CStr ""; CNull; CStr "https://docs.google.com/spreadsheets/d/source-b"]])
     = map normalise
           [[CStr ""; CNull; CStr "https://docs.google.com/spreadsheets/d/source-b"]]
  /\ len (Part001.cleanData
            (Some [[CStr ""; CNull;
                    CStr "https://docs.google.com/spreadsheets/d/source-b"]]))
     = len [[CStr ""; CNull; CStr "https://docs.google.com/spreadsheets/d/source-b"]].
Proof.
  apply (@run_cleaning_keeps_every_row
           (fun _ _ => inr (Some [[CStr ""; CNull]])) noon IndexJs.CONFIG
           [job_b] 1 0 [] c0).
  - vm_compute. reflexivity.
  - vm_compute. reflexivity.
Defined.

(** ** The chunking helper of src/index2.js *)

Lemma len_slice {A} (data : list A) (i size : Z) :
  0 <= i -> 0 < size -> i <= len data ->
  len (slice data i (i + size)) = Z.min size (len data - i).
Proof.
  intros Hi Hs Hlen. rewrite slice_step. unfold len in *.
  rewrite length_firstn, length_skipn. lia.
Qed.

Lemma chunkArrayLoop_nonempty {A} (data : list A) (size : Z) :
  0 < size ->
  forall fuel i,
    0 <= i ->
    Forall (fun chunk => 0 < len chunk) (chunkArrayLoop data size fuel i).
Proof.
  intros Hs. induction fuel as [| fuel IH]; intros i Hi; cbn [chunkArrayLoop].
  - constructor.
  - destruct (i <? len data) eqn:E; [| constructor].
    apply Z.ltb_lt in E. constructor; [| apply IH; lia].
    rewrite len_slice by lia. lia.
Qed.

Lemma chunkArrayLoop_full_but_last {A} (data : list A) (size : Z) :
  0 < size ->
  forall fuel i,
    0 <= i ->
    full_but_last size (chunkArrayLoop data size fuel i).
Proof.
  intros Hs. induction fuel as [| fuel IH]; intros i Hi; cbn [chunkArrayLoop].
  - exact I.
  - destruct (i <? len data) eqn:E; [| exact I].
    apply Z.ltb_lt in E. cbn [full_but_last]. split; [| apply IH; lia].
    destruct fuel as [| fuel']; [exact I |]. cbn [chunkArrayLoop].
    destruct (i + size <? len data) eqn:E2; [| exact I].
    apply Z.ltb_lt in E2. rewrite len_slice by lia. lia.
Qed.

(** X19. [chunkArray] of index2.js cuts an array into consecutive pieces:
    for a positive size the chunks concatenate back to the array, there are
    ceil(length / size) of them, none is empty or longer than the size, and
    all but the last have exactly the size. *)
Theorem chunkArray_partition {A} (array : list A) (size : Z) :
  0 < size ->
  List.concat (chunkArray array size) = array
  /\ len (chunkArray array size) = ceil_div (len array) size
  /\ Forall (fun chunk => 0 < len chunk <= size) (chunkArray array size)
  /\ full_but_last size (chunkArray array size).
Proof.
  intros Hs. unfold chunkArray. split; [| split; [| split]].
  - rewrite chunkArrayLoop_concat by lia. reflexivity.
  - rewrite chunkArrayLoop_count by lia.
    destruct (0 <? len array) eqn:E.
    + f_equal. lia.
    + apply Z.ltb_ge in E. assert (len array = 0) as -> by (unfold len in *; lia).
      reflexivity.
  - pose proof (chunkArrayLoop_nonempty array Hs (List.length array) (i := 0)) as H1.
    pose proof (chunkArrayLoop_bounded array Hs (List.length array) 0) as H2.
    rewrite Forall_forall in *. intros chunk Hin.
    split; [apply H1; [lia | exact Hin] | apply H2; exact Hin].
  - apply chunkArrayLoop_full_but_last; lia.
Qed.

Lemma chunkArray_partition_witness :
  List.concat (chunkArray (sample_rows 7) 3) = sample_rows 7
  /\ len (chunkArray (sample_rows 7) 3) = ceil_div (len (sample_rows 7)) 3
  /\ Forall (fun chunk => 0 < len chunk <= 3) (chunkArray (sample_rows 7) 3)
  /\ full_but_last 3 (chunkArray (sample_rows 7) 3).
Proof. apply (@chunkArray_partition Row (sample_rows 7) 3). lia. Defined.

(** ** The padding of src/index2.js *)

Lemma padLoop_spec (fuel : nat) :
  forall filled,
    (23 - List.length filled <= fuel)%nat ->
    Index2Js.padLoop fuel filled
    = filled ++ repeat (CStr "") (23 - List.length filled).
Proof.
  induction fuel as [| fuel IH]; intros filled Hfuel.
  - cbn [Index2Js.padLoop]. replace (23 - List.length filled)%nat with 0%nat by lia.
    cbn [repeat]. rewrite app_nil_r. reflexivity.
  - cbn [Index2Js.padLoop]. destruct (len filled <? 23) eqn:E.
    + apply Z.ltb_lt in E. unfold len in E.
      rewrite IH by (rewrite length_app; cbn [List.length]; lia).
      rewrite length_app. cbn [List.length].
      replace (23 - List.length filled)%nat
        with (S (23 - (List.length filled + 1)))%nat by lia.
      cbn [repeat]. rewrite <- app_assoc. reflexivity.
    + apply Z.ltb_ge in E. unfold len in E.
      replace (23 - List.length filled)%nat with 0%nat by lia.
      cbn [repeat]. rewrite app_nil_r. reflexivity.
Qed.

(** X20. The padding of index2.js appends empty strings to a row until it
    has 23 cells and changes nothing else: a row of 23 cells or more comes
    out as it went in (it is not cut down), and a padded row has
    max(23, length) cells. *)
Theorem pad_appends_empty_cells (row : Row) :
  Index2Js.pad row = row ++ repeat (CStr "") (23 - List.length row)
  /\ len (Index2Js.pad row) = Z.max 23 (len row)
  /\ (23 <= len row -> Index2Js.pad row = row).
Proof.
  assert (H : Index2Js.pad row = row ++ repeat (CStr "") (23 - List.length row)).
  { unfold Index2Js.pad. apply padLoop_spec. lia. }
  split; [exact H |]. split.
  - rewrite H. unfold len. rewrite length_app, repeat_length. lia.
  - intros Hlen. rewrite H. unfold len in Hlen.
    replace (23 - List.length row)%nat with 0%nat by lia.
    cbn [repeat]. apply app_nil_r.
Qed.

(** ** Calls without retry *)

Lemma call_run (service : list Event -> Request -> Reply) (req : Request) h c :
  exists r evs,
    call service req h c = (r, evs, c)
    /\ runs_through [req] r evs
    /\ (never_fails service -> exists values, r = Return values).
Proof.
  unfold call. destruct (service h req) as [err | values] eqn:E.
  - eexists _, _. split; [reflexivity |]. split.
    + exists [], [req]. split; [reflexivity |]. split; [reflexivity |].
      exists req, [], err. repeat split.
    + intros Hok. destruct (Hok h req) as (v & Hv). congruence.
  - eexists _, _. split; [reflexivity |]. split.
    + exists [req], []. repeat split.
    + intros _. exists values. reflexivity.
Qed.

Lemma runs_through_nil {A} (v : A) : runs_through [] (Return v) [].
Proof. exists [], []. repeat split. Qed.

(** Sequencing: what ran through [e1] and returned, followed by what ran
    through [e2]. *)
Lemma runs_through_app {A B} (e1 e2 : list Request) (v : A) (r : Completion B)
    (evs1 evs2 : list Event) :
  runs_through e1 (Return v) evs1 ->
  runs_through e2 r evs2 ->
  runs_through (e1 ++ e2) r (evs1 ++ evs2).
Proof.
  intros (d1 & t1 & H1 & Hs1 & -> & Hq1) (d2 & t2 & H2 & Hs2 & Hr).
  rewrite app_nil_r in H1. subst e1 e2.
  exists (d1 ++ d2), t2. split; [apply app_assoc |].
  split; [rewrite succeeded_app, Hs1, Hs2; reflexivity |].
  destruct r as [w | t].
  - destruct Hr as (-> & Hq2). split; [reflexivity |].
    rewrite requests_app, Hq1, Hq2. reflexivity.
  - destruct Hr as (failed & rest & err & -> & Hq2 & ->).
    exists failed, rest, err. split; [reflexivity |]. split; [| reflexivity].
    rewrite requests_app, Hq1, Hq2. apply app_assoc.
Qed.

(** What threw while running through [e1] never reaches [e2]. *)
Lemma runs_through_throw {A B} (e1 e2 : list Request) (t : Thrown) (evs : list Event) :
  runs_through e1 (@Throw A t) evs -> runs_through (e1 ++ e2) (@Throw B t) evs.
Proof.
  intros (d & todo & H1 & Hs & failed & rest & err & -> & Hq & ->). subst e1.
  exists d, (failed :: rest ++ e2). split; [rewrite <- app_assoc; reflexivity |].
  split; [exact Hs |]. exists failed, (rest ++ e2), err. repeat split. exact Hq.
Qed.

Lemma runs_through_stops {A} (expected : list Request) (r : Completion A)
    (evs : list Event) :
  runs_through expected r evs -> stops_at_first_failure expected evs.
Proof.
  intros (done & todo & He & Hs & Hr). exists done. split; [exact Hs |].
  destruct r as [v | t].
  - destruct Hr as (-> & Hq). left. rewrite app_nil_r in He. split; assumption.
  - destruct Hr as (failed & rest & err & -> & Hq & _). right.
    exists failed, rest. split; assumption.
Qed.

(** A [try] around calls without retry, with a handler that only reads the
    message of the error: it returns whatever happens. *)
Lemma swallowed (m : M unit) (expected : list Request) h c r evs c' :
  m h c = (r, evs, c') ->
  runs_through expected r evs ->
  try_catch m (fun error => _ <- message_of error ;; ret tt) h c = (Return tt, evs, c').
Proof.
  intros Hm (done & todo & _ & _ & Hr). destruct r as [[] | t].
  - apply try_Return. exact Hm.
  - destruct Hr as (failed & rest & err & _ & _ & ->).
    erewrite try_Throw by exact Hm. cbn. rewrite app_nil_r. reflexivity.
Qed.

(** ** src/index2.js: [transferData] *)

Section Index2.

Variable service : list Event -> Request -> Reply.

Lemma index2_uploadLoop_runs (chunks : list Rows) :
  forall (k0 : nat) h c,
    full_but_last 15000 chunks ->
    exists r evs,
      Index2Js.uploadLoop service chunks (2 + 15000 * Z.of_nat k0) h c = (r, evs, c)
      /\ runs_through (upload_calls_from k0 chunks) r evs
      /\ (never_fails service -> r = Return tt).
Proof.
  induction chunks as [| chunk rest IH]; intros k0 h c Hfull.
  - exists (Return tt), []. split; [reflexivity |].
    split; [apply runs_through_nil | reflexivity].
  - cbn [Index2Js.uploadLoop].
    destruct Hfull as (Hchunk & Hrest).
    set (req := Update (CStr Index2Js.DEST_SPREADSHEET_ID)
                  (Index2Js.destRange (2 + 15000 * Z.of_nat k0)
                     (2 + 15000 * Z.of_nat k0 + len chunk - 1)) chunk).
    assert (Hcalls : upload_calls_from k0 (chunk :: rest)
                     = [req] ++ upload_calls_from (S k0) rest).
    { unfold upload_calls_from. cbn [List.length seq combine map fst snd app]. subst req.
      replace (1 + 15000 * Z.of_nat k0 + len chunk)
        with (2 + 15000 * Z.of_nat k0 + len chunk - 1) by lia.
      reflexivity. }
    destruct (call_run service req h c) as (r1 & e1 & Hcall & Hrun1 & Hok1).
    destruct r1 as [v | t].
    + destruct rest as [| next rest'].
      * exists (Return tt), e1. erewrite bind_Return by exact Hcall.
        cbn [Index2Js.uploadLoop after ret]. rewrite app_nil_r.
        split; [reflexivity |]. split; [| reflexivity].
        rewrite Hcalls. cbn [upload_calls_from List.length seq combine map].
        cbn [app]. destruct Hrun1 as (d & t & H1 & H2 & H3). exists d, t.
        split; [exact H1 |]. split; [exact H2 | exact H3].
      * assert (Hlen : len chunk = 15000) by exact Hchunk.
        destruct (IH (S k0) (h ++ e1) c Hrest) as (r2 & e2 & Hloop & Hrun2 & Hok2).
        exists r2, (e1 ++ e2). erewrite bind_Return by exact Hcall.
        replace (2 + 15000 * Z.of_nat k0 + len chunk - 1 + 1)
          with (2 + 15000 * Z.of_nat (S k0)) by lia.
        rewrite Hloop. split; [reflexivity |]. split; [| exact Hok2].
        rewrite Hcalls. eapply runs_through_app; eassumption.
    + exists (Throw t), e1. erewrite bind_Throw by exact Hcall.
      split; [reflexivity |]. split.
      * rewrite Hcalls. eapply runs_through_throw. exact Hrun1.
      * intros Hok. destruct (Hok1 Hok) as (v & Hv). discriminate.
Qed.

(** The requests [transferData] is to send, the read having been answered
    with [reply]. *)
Lemma index2_transferData_runs h c :
  exists evs,
    Index2Js.transferData service h c = (Return tt, evs, c)
    /\ stops_at_first_failure
         (Get (CStr Index2Js.SOURCE_SPREADSHEET_ID) (CStr Index2Js.SOURCE_RANGE)
          :: match service h (Get (CStr Index2Js.SOURCE_SPREADSHEET_ID)
                                  (CStr Index2Js.SOURCE_RANGE)) with
             | inl _ => []
             | inr values =>
                 Clear (CStr Index2Js.DEST_SPREADSHEET_ID) (CStr "DB!A2:W")
                 :: upload_calls (chunkArray (map Index2Js.pad (values_or_empty values))
                                    15000)
             end)
         evs
    /\ (never_fails service ->
        exists values,
          service h (Get (CStr Index2Js.SOURCE_SPREADSHEET_ID)
                         (CStr Index2Js.SOURCE_RANGE)) = inr values
          /\ requests evs
             = Get (CStr Index2Js.SOURCE_SPREADSHEET_ID) (CStr Index2Js.SOURCE_RANGE)
               :: Clear (CStr Index2Js.DEST_SPREADSHEET_ID) (CStr "DB!A2:W")
               :: upload_calls (chunkArray (map Index2Js.pad (values_or_empty values))
                                  15000)).
Proof.
  set (get := Get (CStr Index2Js.SOURCE_SPREADSHEET_ID) (CStr Index2Js.SOURCE_RANGE)).
  set (clear := Clear (CStr Index2Js.DEST_SPREADSHEET_ID) (CStr "DB!A2:W")).
  assert (Hbody : exists r evs,
             (response <- call service get ;;
              call service clear ;;
              Index2Js.uploadLoop service
                (chunkArray (map Index2Js.pad (values_or_empty response)) 15000)
                Index2Js.DEST_START_CELL) h c = (r, evs, c)
             /\ runs_through
                  (get :: match service h get with
                          | inl _ => []
                          | inr values =>
                              clear :: upload_calls
                                         (chunkArray (map Index2Js.pad
                                                        (values_or_empty values)) 15000)
                          end) r evs
             /\ (never_fails service ->
                 r = Return tt
                 /\ exists values, service h get = inr values)).
  { unfold call at 1. destruct (service h get) as [err | values] eqn:E.
    - eexists _, _. split; [unfold bind; rewrite E; reflexivity |]. split.
      + exists [], [get]. split; [reflexivity |]. split; [reflexivity |].
        exists get, [], err. repeat split.
      + intros Hok. destruct (Hok h get) as (v & Hv). congruence.
    - set (chunks := chunkArray (map Index2Js.pad (values_or_empty values)) 15000).
      set (e0 := [ERemote get (inr values)]).
      destruct (call_run service clear (h ++ e0) c) as (r1 & e1 & Hcall & Hrun1 & Hok1).
      assert (Hfull : full_but_last 15000 chunks).
      { apply chunkArrayLoop_full_but_last; lia. }
      destruct (index2_uploadLoop_runs chunks 0 ((h ++ e0) ++ e1) c Hfull)
        as (r2 & e2 & Hloop & Hrun2 & Hok2).
      change (2 + 15000 * Z.of_nat 0) with Index2Js.DEST_START_CELL in Hloop.
      assert (Hget : runs_through [get] (Return values) e0).
      { exists [get], []. repeat split. }
      destruct r1 as [v | t].
      + exists r2, (e0 ++ e1 ++ e2). split.
        * unfold bind at 1. rewrite E. fold e0. fold chunks.
          erewrite bind_Return by exact Hcall. rewrite Hloop. reflexivity.
        * split.
          -- change (get :: clear :: upload_calls chunks)
               with ([get] ++ [clear] ++ upload_calls_from 0 chunks).
             eapply runs_through_app; [exact Hget |].
             eapply runs_through_app; eassumption.
          -- intros Hok. split; [apply Hok2, Hok | exists values; reflexivity].
      + exists (Throw t), (e0 ++ e1). split.
        * unfold bind at 1. rewrite E. fold e0. fold chunks.
          erewrite bind_Throw by exact Hcall. reflexivity.
        * split.
          -- change (get :: clear :: upload_calls chunks)
               with ([get] ++ [clear] ++ upload_calls chunks).
             eapply runs_through_app; [exact Hget |].
             eapply runs_through_throw. exact Hrun1.
          -- intros Hok. destruct (Hok1 Hok) as (v & Hv). discriminate. }
  destruct Hbody as (r & evs & Hbody & Hrun & Hok).
  exists evs. split.
  - unfold Index2Js.transferData. eapply swallowed; [exact Hbody | exact Hrun].
  - split; [eapply runs_through_stops; exact Hrun |].
    intros Hnf. destruct (Hok Hnf) as (-> & values & Hv). exists values.
    split; [exact Hv |]. rewrite Hv in Hrun.
    destruct Hrun as (done & todo & He & _ & -> & Hq).
    rewrite app_nil_r in He. rewrite Hq, <- He. reflexivity.
Qed.

End Index2.

(** X21. [transferData] of index2.js never throws and does not retry: it
    sends the read of the source, the clear of the destination and the
    uploads of the padded chunks in this order, each at most once, and stops
    at the first call the service rejects, so that the calls before it have
    resolved and nothing after it is sent.  Chunk number k (from 0) is
    uploaded to the rows [2 + 15000 k .. 1 + 15000 k + length]. *)
Theorem transferData_stops_at_first_failure (service : list Event -> Request -> Reply)
    h c :
  completion (Index2Js.transferData service h c) = Return tt
  /\ stops_at_first_failure
       (Get (CStr Index2Js.SOURCE_SPREADSHEET_ID) (CStr Index2Js.SOURCE_RANGE)
        :: match service h (Get (CStr Index2Js.SOURCE_SPREADSHEET_ID)
                                (CStr Index2Js.SOURCE_RANGE)) with
           | inl _ => []
           | inr values =>
               Clear (CStr Index2Js.DEST_SPREADSHEET_ID) (CStr "DB!A2:W")
               :: upload_calls (chunkArray (map Index2Js.pad (values_or_empty values))
                                  15000)
           end)
       (emitted (Index2Js.transferData service h c)).
Proof.
  destruct (index2_transferData_runs service h c) as (evs & Hr & Hstop & _).
  rewrite Hr. split; [reflexivity | exact Hstop].
Qed.

(** X22. With a service that rejects nothing, the requests of
    [transferData] are exactly the read, the clear of [DB!A2:W] and one
    update per chunk of 15000 padded rows; the row ranges of the updates
    follow one another from row 2 without gap or overlap. *)
Theorem transferData_uploads_every_chunk (service : list Event -> Request -> Reply) h c :
  never_fails service ->
  exists values,
    service h (Get (CStr Index2Js.SOURCE_SPREADSHEET_ID) (CStr Index2Js.SOURCE_RANGE))
    = inr values
    /\ requests (emitted (Index2Js.transferData service h c))
       = Get (CStr Index2Js.SOURCE_SPREADSHEET_ID) (CStr Index2Js.SOURCE_RANGE)
         :: Clear (CStr Index2Js.DEST_SPREADSHEET_ID) (CStr "DB!A2:W")
         :: upload_calls (chunkArray (map Index2Js.pad (values_or_empty values)) 15000).
Proof.
  intros Hok.
  destruct (index2_transferData_runs service h c) as (evs & Hr & _ & Hall).
  destruct (Hall Hok) as (values & Hv & Hq).
  exists values. rewrite Hr. split; [exact Hv | exact Hq].
Qed.

Lemma transferData_uploads_every_chunk_witness :
  exists values,
    config_service [] (Get (CStr Index2Js.SOURCE_SPREADSHEET_ID)
                           (CStr Index2Js.SOURCE_RANGE))
    = inr values
    /\ requests (emitted (Index2Js.transferData config_service [] c0))
       = Get (CStr Index2Js.SOURCE_SPREADSHEET_ID) (CStr Index2Js.SOURCE_RANGE)
         :: Clear (CStr Index2Js.DEST_SPREADSHEET_ID) (CStr "DB!A2:W")
         :: upload_calls (chunkArray (map Index2Js.pad (values_or_empty values)) 15000).
Proof.
  apply (@transferData_uploads_every_chunk config_service [] c0).
  exact config_service_never_fails.
Defined.

(** ** src/unnamed/part_000 *)

Lemma truthy_not_blank (cell : Cell) : Part000.truthy cell = true -> is_blank cell = false.
Proof.
  destruct cell as [s | n | |]; cbn; try discriminate; try reflexivity.
  destruct (string_dec s ""); [discriminate | reflexivity].
Qed.

Lemma has_value_first (row : Row) :
  is_blank (at_index row 0) = false -> has_value row = true.
Proof.
  destruct row as [| cell row]; [discriminate |].
  cbn [at_index nth]. intros H. unfold has_value. cbn [existsb]. rewrite H. reflexivity.
Qed.

Lemma at_index_normalise (row : Row) (i : nat) :
  is_blank (at_index row i) = false -> at_index (normalise row) i = at_index row i.
Proof.
  unfold at_index, normalise. revert i. induction row as [| cell row IH]; intros i H.
  - destruct i; reflexivity.
  - destruct i as [| i]; cbn [map nth] in *.
    + rewrite H. reflexivity.
    + apply IH. exact H.
Qed.

(** X23. [filterAndCleanData] of part_000 keeps the rows whose first cell is
    a true value that passes the date test, in order, and replaces their
    blank cells by 0.  The second filter of the function (rows with at least
    one value) never drops a row, since a row that passed the first has its
    date; a row whose first cell is missing, empty, null or 0 is dropped
    whatever the date test says, and the first cell of a row that is kept is
    left as it was. *)
Theorem filterAndCleanData_keeps_dated_rows (on_or_after : Cell -> bool) (rows : Rows) :
  Part000.filterAndCleanData on_or_after rows
  = map normalise
        (filter (fun row => Part000.truthy (at_index row 0) && on_or_after (at_index row 0))
                rows)
  /\ (forall out,
        In out (Part000.filterAndCleanData on_or_after rows) ->
        exists row,
          In row rows /\ out = normalise row
          /\ Part000.truthy (at_index row 0) = true
          /\ on_or_after (at_index row 0) = true
          /\ at_index out 0 = at_index row 0)
  /\ (forall out cell,
        In out (Part000.filterAndCleanData on_or_after rows) -> In cell out ->
        is_blank cell = false).
Proof.
  set (dated := fun row : Row =>
                  Part000.truthy (at_index row 0) && on_or_after (at_index row 0)).
  assert (H : Part000.filterAndCleanData on_or_after rows
              = map normalise (filter dated rows)).
  { unfold Part000.filterAndCleanData. cbv zeta.
    change (filter (fun row => Part000.truthy (at_index row Part000.DATE_COLUMN_INDEX)
                               && on_or_after (at_index row Part000.DATE_COLUMN_INDEX))
                   rows)
      with (filter dated rows).
    pose proof (part001_cleanData_unfold (filter dated rows)) as Hclean.
    destruct (filter dated rows) as [| r rest] eqn:E; [reflexivity |].
    rewrite <- E in *.
    unfold Part001.cleanData in Hclean.
    replace (len (filter dated rows) =? 0) with false in Hclean
      by (rewrite E; reflexivity).
    cbv zeta in Hclean. rewrite Hclean. f_equal. apply filter_all.
    intros row Hrow. apply filter_In in Hrow. destruct Hrow as (_ & Hd).
    apply andb_true_iff in Hd. destruct Hd as (Ht & _).
    apply has_value_first, truthy_not_blank, Ht. }
  split; [exact H |]. rewrite H. split.
  - intros out Hout. apply in_map_iff in Hout. destruct Hout as (row & <- & Hrow).
    apply filter_In in Hrow. destruct Hrow as (Hin & Hd).
    apply andb_true_iff in Hd. destruct Hd as (Ht & Hdate).
    exists row. repeat split; try assumption.
    apply at_index_normalise, truthy_not_blank, Ht.
  - intros out cell Hout Hcell. apply in_map_iff in Hout.
    destruct Hout as (row & <- & _). eapply normalise_not_blank. exact Hcell.
Qed.

(** X24. [main] of part_000 never throws and does not retry: it sends the
    read of the source, then the clear and the update of the destination,
    each at most once, and stops at the first call the service rejects.  The
    clear and the update address the same range, [DB!A2:AE<n + 1>] for [n]
    cleaned rows, so that no row below the new data is cleared. *)
Theorem part000_main_stops_at_first_failure (service : list Event -> Request -> Reply)
    (on_or_after : Cell -> bool) h c :
  completion (Part000.main service on_or_after h c) = Return tt
  /\ stops_at_first_failure
       (Get (CStr Part000.SOURCE_SPREADSHEET_ID) (CStr Part000.SOURCE_RANGE)
        :: match service h (Get (CStr Part000.SOURCE_SPREADSHEET_ID)
                                (CStr Part000.SOURCE_RANGE)) with
           | inl _ => []
           | inr values =>
               let cleanedData :=
                 Part000.filterAndCleanData on_or_after (values_or_empty values) in
               [Clear (CStr Part000.DEST_SPREADSHEET_ID)
                      (Part000.destRange (len cleanedData + 1));
                Update (CStr Part000.DEST_SPREADSHEET_ID)
                       (Part000.destRange (len cleanedData + 1)) cleanedData]
           end)
       (emitted (Part000.main service on_or_after h c)).
Proof.
  set (get := Get (CStr Part000.SOURCE_SPREADSHEET_ID) (CStr Part000.SOURCE_RANGE)).
  assert (Hbody : exists r evs,
             (rows <- Part000.readSourceData service ;;
              let cleanedData := Part000.filterAndCleanData on_or_after rows in
              let DEST_END_ROW := Part000.DEST_START_ROW + len cleanedData - 1 in
              let DEST_RANGE := Part000.destRange DEST_END_ROW in
              Part000.clearDestinationRange service DEST_RANGE ;;
              Part000.writeData service DEST_RANGE cleanedData) h c = (r, evs, c)
             /\ runs_through
                  (get :: match service h get with
                          | inl _ => []
                          | inr values =>
                              let cleanedData :=
                                Part000.filterAndCleanData on_or_after
                                  (values_or_empty values) in
                              [Clear (CStr Part000.DEST_SPREADSHEET_ID)
                                     (Part000.destRange (len cleanedData + 1));
                               Update (CStr Part000.DEST_SPREADSHEET_ID)
                                      (Part000.destRange (len cleanedData + 1))
                                      cleanedData]
                          end) r evs).
  { unfold Part000.readSourceData.
    destruct (service h get) as [err | values] eqn:E.
    - assert (Hread : (res <- call service get ;; ret (values_or_empty res)) h c
                      = (Throw (TError err), [ERemote get (inl err)], c)).
      { unfold bind, call. fold get. rewrite E. reflexivity. }
      eexists _, _. split; [erewrite bind_Throw by exact Hread; reflexivity |].
      exists [], [get]. split; [reflexivity |]. split; [reflexivity |].
      exists get, [], err. repeat split.
    - set (e0 := [ERemote get (inr values)]).
      assert (Hread : (res <- call service get ;; ret (values_or_empty res)) h c
                      = (Return (values_or_empty values), e0, c)).
      { unfold bind, call. fold get. rewrite E. reflexivity. }
      set (cleanedData := Part000.filterAndCleanData on_or_after (values_or_empty values)).
      cbv zeta.
      replace (len cleanedData + 1) with (Part000.DEST_START_ROW + len cleanedData - 1)
        by (unfold Part000.DEST_START_ROW; lia).
      set (range := Part000.destRange (Part000.DEST_START_ROW + len cleanedData - 1)).
      set (clear := Clear (CStr Part000.DEST_SPREADSHEET_ID) range).
      set (update := Update (CStr Part000.DEST_SPREADSHEET_ID) range cleanedData).
      assert (Hget : runs_through [get] (Return (values_or_empty values)) e0).
      { exists [get], []. repeat split. }
      destruct (call_run service clear (h ++ e0) c) as (r1 & e1 & Hc1 & Hrun1 & _).
      destruct r1 as [v1 | t1].
      + destruct (call_run service update ((h ++ e0) ++ e1) c)
          as (r2 & e2 & Hc2 & Hrun2 & _).
        assert (Hclear : Part000.clearDestinationRange service range (h ++ e0) c
                         = (Return tt, e1, c)).
        { unfold Part000.clearDestinationRange. fold clear.
          erewrite bind_Return by exact Hc1. cbn [after ret]. rewrite app_nil_r.
          reflexivity. }
        destruct r2 as [v2 | t2].
        * exists (Return tt), (e0 ++ e1 ++ e2). split.
          -- erewrite bind_Return by exact Hread. fold cleanedData. fold range.
             erewrite bind_Return by exact Hclear.
             unfold Part000.writeData. fold update.
             erewrite bind_Return by exact Hc2. cbn [after ret]. rewrite app_nil_r.
             reflexivity.
          -- change (get :: [clear; update]) with ([get] ++ [clear] ++ [update]).
             eapply runs_through_app; [exact Hget |].
             eapply runs_through_app; [exact Hrun1 |].
             destruct Hrun2 as (d & t & H1 & H2 & H3). exists d, t.
             split; [exact H1 |]. split; [exact H2 | exact H3].
        * exists (Throw t2), (e0 ++ e1 ++ e2). split.
          -- erewrite bind_Return by exact Hread. fold cleanedData. fold range.
             erewrite bind_Return by exact Hclear.
             unfold Part000.writeData. fold update.
             erewrite bind_Throw by exact Hc2. reflexivity.
          -- change (get :: [clear; update]) with ([get] ++ [clear] ++ [update]).
             eapply runs_through_app; [exact Hget |].
             eapply runs_through_app; [exact Hrun1 |].
             destruct Hrun2 as (d & t & H1 & H2 & H3). exists d, t.
             split; [exact H1 |]. split; [exact H2 | exact H3].
      + exists (Throw t1), (e0 ++ e1). split.
        * erewrite bind_Return by exact Hread. fold cleanedData. fold range.
          unfold Part000.clearDestinationRange. fold clear.
          erewrite bind_Throw by (erewrite bind_Throw by exact Hc1; reflexivity).
          reflexivity.
        * change (get :: [clear; update]) with ([get] ++ [clear] ++ [update]).
          eapply runs_through_app; [exact Hget |].
          eapply runs_through_throw. exact Hrun1. }
  destruct Hbody as (r & evs & Hbody & Hrun).
  assert (Hmain : Part000.main service on_or_after h c = (Return tt, evs, c)).
  { unfold Part000.main. eapply swallowed; [exact Hbody | exact Hrun]. }
  rewrite Hmain. split; [reflexivity |]. eapply runs_through_stops. exact Hrun.
Qed.

(** ** RateLimiter *)

Lemma pause_bounds (rl : RateLimiter.t) (now ms : Z) :
  RateLimiter.pause rl now = Some ms ->
  0 < ms /\ (RateLimiter.lastRequest rl <= now -> ms <= RateLimiter.delay rl).
Proof.
  unfold RateLimiter.pause. cbv zeta.
  destruct (now - RateLimiter.lastRequest rl <? RateLimiter.delay rl) eqn:E;
    [| discriminate].
  apply Z.ltb_lt in E. intros H. inversion H. lia.
Qed.

Lemma throttle_distance (rl : RateLimiter.t) (now woken : Z) :
  timely rl now woken ->
  RateLimiter.delay rl
  <= RateLimiter.lastRequest (RateLimiter.throttle rl woken) - RateLimiter.lastRequest rl.
Proof.
  unfold timely, RateLimiter.pause, RateLimiter.throttle. cbv zeta.
  cbn [RateLimiter.lastRequest].
  destruct (now - RateLimiter.lastRequest rl <? RateLimiter.delay rl) eqn:E.
  - lia.
  - apply Z.ltb_ge in E. lia.
Qed.

(** X25. The rate limiter keeps its distance: over any series of calls of
    [throttle] made one after the other, if no timer fires early and the
    clock does not run backwards during a call, then each call ends at least
    [delay] milliseconds after the call before it ended (the first one at
    least [delay] after the initial stamp); a call never sleeps 0 or a
    negative time, and never more than [delay] when the clock has not run
    backwards since the last stamp. *)
Theorem throttle_keeps_distance (rl : RateLimiter.t) (readings : list (Z * Z)) :
  all_timely rl readings ->
  spaced (RateLimiter.delay rl) (RateLimiter.lastRequest rl)
         (RateLimiter.stamps rl readings)
  /\ (forall now ms,
        RateLimiter.pause rl now = Some ms ->
        0 < ms /\ (RateLimiter.lastRequest rl <= now -> ms <= RateLimiter.delay rl)).
Proof.
  intros Hall. split; [| intros now ms; apply pause_bounds].
  revert rl Hall. induction readings as [| [now woken] rest IH]; intros rl Hall.
  - exact I.
  - destruct Hall as (Hcall & Hrest). cbn [RateLimiter.stamps spaced]. split.
    + exact (@throttle_distance rl now woken Hcall).
    + exact (IH (RateLimiter.throttle rl woken) Hrest).
Qed.

Lemma throttle_keeps_distance_witness :
  spaced 100 0 (RateLimiter.stamps (RateLimiter.create 100)
                  [(1000, 1000); (1030, 1101); (1500, 1500)])
  /\ (forall now ms,
        RateLimiter.pause (RateLimiter.create 100) now = Some ms ->
        0 < ms
        /\ (RateLimiter.lastRequest (RateLimiter.create 100) <= now ->
            ms <= RateLimiter.delay (RateLimiter.create 100))).
Proof.
  apply (@throttle_keeps_distance (RateLimiter.create 100)
           [(1000, 1000); (1030, 1101); (1500, 1500)]).
  cbn. lia.
Defined.
